(** * ReDraft: the text-transformation core of [src/index.js]

    A shallow embedding of the five pure algorithms of the extension
    (content protection, reply parsing, point-of-view detection and the
    word diff) together with the fragment of ECMAScript they run on:
    strings as sequences of UTF-16 code units, the regular expressions
    that occur in the source with the backtracking semantics of
    ECMA-262, and binary64 multiplication for the one floating-point
    comparison of [detectPov].

    Around them: the rule compiler, the custom-rules panel with its
    export and import, the refinement of a message and its undo as
    transitions of the chat and its metadata, and the key masking, the
    error sanitizer and the configuration handler of the server plugin
    ([src/server-plugin/index.js]). *)

From Stdlib Require Import String Ascii.
From Stdlib Require Import List NArith ZArith Bool Lia Permutation.
From Stdlib Require Decimal DecimalN.
From Stdlib Require Import Floats.SpecFloat.
From Equations Require Import Equations.
From Equations.Prop Require Import Logic.
Import ListNotations.

Set Implicit Arguments.

(* ================================================================== *)
(** * Part I. ECMAScript strings *)
(* ================================================================== *)

Module JS.

Local Open Scope N_scope.

(** A string value is a finite sequence of 16-bit code units. *)
Definition char := N.
Definition jsstring := list char.

(** Source literals are ASCII; [str] reads one off a Rocq string. *)
Definition str (s : string) : jsstring :=
  List.map N_of_ascii (list_ascii_of_string s).

Definition LF : char := 10.

Definition between (lo hi c : char) : bool := (lo <=? c) && (c <=? hi).

(** [\s], which is also the set removed by [String.prototype.trim]:
    WhiteSpace and LineTerminator of ECMA-262. *)
Definition is_space (c : char) : bool :=
  between 9 13 c || (c =? 32) || (c =? 160) || (c =? 5760)
  || between 8192 8202 c || (c =? 8232) || (c =? 8233) || (c =? 8239)
  || (c =? 8287) || (c =? 12288) || (c =? 65279).

Definition is_digit (c : char) : bool := between 48 57 c.
Definition is_upper (c : char) : bool := between 65 90 c.
Definition is_lower (c : char) : bool := between 97 122 c.

(** [\w] *)
Definition is_word (c : char) : bool :=
  is_upper c || is_lower c || is_digit c || (c =? 95).

Definition any_char (c : char) : bool := true.

(** Case mapping on the ASCII letters.  Without the [u] flag,
    Canonicalize never maps a code unit above 127 to one below 128, so
    against the ASCII patterns of the source this is the whole of
    case-insensitive comparison. *)
Definition to_upper (c : char) : char := if is_lower c then c - 32 else c.
Definition to_lower (c : char) : char := if is_upper c then c + 32 else c.

Definition ascii_upper (s : jsstring) : jsstring := List.map to_upper s.
Definition ascii_lower (s : jsstring) : jsstring := List.map to_lower s.

Fixpoint eqb (s t : jsstring) : bool :=
  match s, t with
  | [], [] => true
  | x :: s', y :: t' => (x =? y) && eqb s' t'
  | _, _ => false
  end.

Fixpoint startsWith (s p : jsstring) : bool :=
  match p, s with
  | [], _ => true
  | x :: p', y :: s' => (x =? y) && startsWith s' p'
  | _ :: _, [] => false
  end.

Fixpoint includes (s p : jsstring) : bool :=
  startsWith s p ||
  match s with
  | [] => false
  | _ :: s' => includes s' p
  end.

Fixpoint trimStart (s : jsstring) : jsstring :=
  match s with
  | c :: s' => if is_space c then trimStart s' else s
  | [] => []
  end.

Definition trimEnd (s : jsstring) : jsstring := rev (trimStart (rev s)).

Definition trim (s : jsstring) : jsstring := trimEnd (trimStart s).

(** [s.substring(from)] and [s.substring(from, to)] for [from <= to]. *)
Definition substring_from (s : jsstring) (from : nat) : jsstring := skipn from s.
Definition substring (s : jsstring) (from to : nat) : jsstring :=
  firstn (to - from) (skipn from s).

(** Number-to-string conversion of a non-negative integer below 1e21. *)
Fixpoint uint_digits (u : Decimal.uint) : jsstring :=
  match u with
  | Decimal.Nil => []
  | Decimal.D0 u => 48 :: uint_digits u
  | Decimal.D1 u => 49 :: uint_digits u
  | Decimal.D2 u => 50 :: uint_digits u
  | Decimal.D3 u => 51 :: uint_digits u
  | Decimal.D4 u => 52 :: uint_digits u
  | Decimal.D5 u => 53 :: uint_digits u
  | Decimal.D6 u => 54 :: uint_digits u
  | Decimal.D7 u => 55 :: uint_digits u
  | Decimal.D8 u => 56 :: uint_digits u
  | Decimal.D9 u => 57 :: uint_digits u
  end.

Definition number_toString (n : N) : jsstring := uint_digits (N.to_uint n).

(** [parseInt(s, 10)] on the digit strings the source passes to it (the
    capture of [\d+]): the value of the leading run of digits, [None]
    (NaN) when there is none.  The value is kept exact; a double rounds
    it only from 2^53 on, far above any array length. *)
Fixpoint digits_uint (s : jsstring) : Decimal.uint :=
  match s with
  | [] => Decimal.Nil
  | c :: s' =>
      if c =? 48 then Decimal.D0 (digits_uint s') else
      if c =? 49 then Decimal.D1 (digits_uint s') else
      if c =? 50 then Decimal.D2 (digits_uint s') else
      if c =? 51 then Decimal.D3 (digits_uint s') else
      if c =? 52 then Decimal.D4 (digits_uint s') else
      if c =? 53 then Decimal.D5 (digits_uint s') else
      if c =? 54 then Decimal.D6 (digits_uint s') else
      if c =? 55 then Decimal.D7 (digits_uint s') else
      if c =? 56 then Decimal.D8 (digits_uint s') else
      if c =? 57 then Decimal.D9 (digits_uint s') else Decimal.Nil
  end.

Definition parseInt (s : jsstring) : option N :=
  match s with
  | c :: _ => if is_digit c then Some (N.of_uint (digits_uint s)) else None
  | [] => None
  end.

(** [arr[k]] for a numeric index: [None] is [undefined]. *)
Definition array_get {A : Type} (arr : list A) (k : N) : option A :=
  if k <? N.of_nat (List.length arr) then nth_error arr (N.to_nat k) else None.

(** [arr.join(sep)] on an array of strings. *)
Fixpoint join (sep : jsstring) (l : list jsstring) : jsstring :=
  match l with
  | [] => []
  | [x] => x
  | x :: l' => x ++ sep ++ join sep l'
  end.

(** A relative index of [slice]: counted from the end when negative,
    and kept inside the string. *)
Definition relative_index (len : nat) (k : Z) : nat :=
  if (k <? 0)%Z then Z.to_nat (Z.max (Z.of_nat len + k) 0)
  else Nat.min (Z.to_nat k) len.

(** [s.slice(start)] and [s.slice(start, end)] *)
Definition slice (s : jsstring) (start : Z) (end_ : option Z) : jsstring :=
  let len := length s in
  let from := relative_index len start in
  let to := match end_ with Some e => relative_index len e | None => len end in
  firstn (to - from) (skipn from s).

(** The values that reach the extension from outside: parsed JSON and
    the results of external calls.  Numbers are binary64. *)
#[warnings="-register-all"] Inductive value :=
| VUndefined
| VNull
| VBool (b : bool)
| VNumber (x : spec_float)
| VString (s : jsstring)
| VArray (items : list value)
| VObject (fields : list (string * value)).

(** ToBoolean *)
Definition truthy (v : value) : bool :=
  match v with
  | VUndefined | VNull => false
  | VBool b => b
  | VNumber (S754_zero _) | VNumber S754_nan => false
  | VNumber _ => true
  | VString [] => false
  | VString (_ :: _) => true
  | VArray _ | VObject _ => true
  end.

Fixpoint lookup (key : string) (fields : list (string * value)) : value :=
  match fields with
  | [] => VUndefined
  | (k, v) :: fields' => if String.eqb key k then v else lookup key fields'
  end.

(** [v.key] for the keys the source reads ([rules], [name], [label],
    [text], [enabled]): [None] is the TypeError on [null] and
    [undefined]; a value that is not an object has none of them. *)
Definition get (v : value) (key : string) : option value :=
  match v with
  | VUndefined | VNull => None
  | VObject fields => Some (lookup key fields)
  | _ => Some VUndefined
  end.

(** [a || b] *)
Definition or_else (a b : value) : value := if truthy a then a else b.

End JS.

(* ================================================================== *)
(** * Part II. Regular expressions *)
(* ================================================================== *)

(** The patterns of the source use literals, character classes, greedy
    and lazy repetition of a class, alternation, capture groups, one
    back-reference, [\b] and [$].  Matching follows the continuation
    semantics of ECMA-262 (22.2.2): a matcher receives the rest of the
    pattern as a continuation and backtracks when it fails. *)

Module Regex.
Import JS.
Local Open Scope N_scope.

(** A character class: a set of code units, possibly complemented. *)
Record cls := Cls { negated : bool; member : char -> bool }.

Inductive regex :=
| Eps
| Lit (s : jsstring)
| Chr (c : cls)
| Seq (r1 r2 : regex)
| Alt (r1 r2 : regex)
| Star (greedy : bool) (c : cls)
| Group (n : nat) (r : regex)
| Backref (n : nat)
| WordB
| Eol.

(** [c+], [r?] *)
Definition Plus (c : cls) : regex := Seq (Chr c) (Star true c).
Definition Opt (r : regex) : regex := Alt r Eps.

Definition captures := list (nat * jsstring).

Fixpoint capture (n : nat) (caps : captures) : option jsstring :=
  match caps with
  | [] => None
  | (k, s) :: caps' => if Nat.eqb k n then Some s else capture n caps'
  end.

(** A match ends with the remaining input and the captures.  A
    continuation receives the consumed input (latest code unit first),
    the remaining input and the captures so far. *)
Definition result := (jsstring * captures)%type.
Definition cont := jsstring -> jsstring -> captures -> option result.

Section Matcher.

(** The [i] flag. *)
Variable ignoreCase : bool.

Definition canonicalize (c : char) : char :=
  if ignoreCase then to_upper c else c.

Definition char_match (x c : char) : bool := canonicalize x =? canonicalize c.

Definition cls_match (cl : cls) (c : char) : bool :=
  xorb (negated cl)
       (member cl c || (ignoreCase && (member cl (to_upper c) || member cl (to_lower c)))).

Fixpoint lit (s : jsstring) (k : cont) (pre suf : jsstring) (caps : captures)
  : option result :=
  match s with
  | [] => k pre suf caps
  | x :: s' =>
      match suf with
      | c :: rest => if char_match x c then lit s' k (c :: pre) rest caps else None
      | [] => None
      end
  end.

Fixpoint star_greedy (cl : cls) (k : cont) (pre suf : jsstring) (caps : captures)
  {struct suf} : option result :=
  match suf with
  | c :: rest =>
      if cls_match cl c then
        match star_greedy cl k (c :: pre) rest caps with
        | Some r => Some r
        | None => k pre suf caps
        end
      else k pre suf caps
  | [] => k pre suf caps
  end.

Fixpoint star_lazy (cl : cls) (k : cont) (pre suf : jsstring) (caps : captures)
  {struct suf} : option result :=
  match k pre suf caps with
  | Some r => Some r
  | None =>
      match suf with
      | c :: rest => if cls_match cl c then star_lazy cl k (c :: pre) rest caps else None
      | [] => None
      end
  end.

(** [\b]: exactly one of the neighbouring code units is a word character. *)
Definition word_before (pre : jsstring) : bool :=
  match pre with c :: _ => is_word c | [] => false end.
Definition word_at (suf : jsstring) : bool :=
  match suf with c :: _ => is_word c | [] => false end.

Fixpoint run (r : regex) (k : cont) (pre suf : jsstring) (caps : captures)
  : option result :=
  match r with
  | Eps => k pre suf caps
  | Lit s => lit s k pre suf caps
  | Chr cl =>
      match suf with
      | c :: rest => if cls_match cl c then k (c :: pre) rest caps else None
      | [] => None
      end
  | Seq r1 r2 => run r1 (run r2 k) pre suf caps
  | Alt r1 r2 =>
      match run r1 k pre suf caps with
      | Some x => Some x
      | None => run r2 k pre suf caps
      end
  | Star true cl => star_greedy cl k pre suf caps
  | Star false cl => star_lazy cl k pre suf caps
  | Group n r1 =>
      run r1 (fun pre' suf' caps' =>
                k pre' suf' ((n, firstn (length suf - length suf') suf) :: caps'))
          pre suf caps
  | Backref n =>
      match capture n caps with
      | Some s => lit s k pre suf caps
      | None => k pre suf caps
      end
  | WordB => if xorb (word_before pre) (word_at suf) then k pre suf caps else None
  | Eol => match suf with [] => k pre suf caps | _ :: _ => None end
  end.

Definition accept : cont := fun _ suf caps => Some (suf, caps).

(** One attempt at the current position. *)
Definition match_here (r : regex) (pre suf : jsstring) : option result :=
  run r accept pre suf [].

(** What [RegExp.prototype.exec] reports. *)
Record match_result := MatchResult {
  index : nat;
  matched : jsstring;
  groups : captures;
}.

Definition group (n : nat) (m : match_result) : jsstring :=
  match capture n (groups m) with Some s => s | None => [] end.

Definition report (pre suf : jsstring) (r : result) : match_result :=
  let '(suf', caps) := r in
  {| index := length pre;
     matched := firstn (length suf - length suf') suf;
     groups := caps |}.

(** Leftmost match at or after the current position. *)
Fixpoint exec_from (r : regex) (pre suf : jsstring) : option match_result :=
  match match_here r pre suf with
  | Some res => Some (report pre suf res)
  | None =>
      match suf with
      | c :: rest => exec_from r (c :: pre) rest
      | [] => None
      end
  end.

(** [s.match(re)] without the [g] flag, [s.search(re)], [re.test(s)]. *)
Definition String_match (r : regex) (s : jsstring) : option match_result :=
  exec_from r [] s.

Definition search (r : regex) (s : jsstring) : option nat :=
  option_map index (String_match r s).

Definition test (r : regex) (s : jsstring) : bool :=
  match String_match r s with Some _ => true | None => false end.

(** The scan of a [g] pattern over the whole string, shared by
    [s.match(re)] and [s.replace(re, fn)].  After a match the scan
    resumes at its end ([skip] counts the code units still inside it);
    after an empty match it moves on by one code unit.  The callback
    [fn] threads the state [St] it closes over and returns the
    replacement. *)
Section Replace.
Variable St : Type.
Variable fn : St -> match_result -> St * jsstring.

Fixpoint replace_scan (r : regex) (skip : nat) (pre suf : jsstring) (st : St)
  {struct suf} : St * jsstring :=
  match suf with
  | [] =>
      match skip with
      | S _ => (st, [])
      | O =>
          match match_here r pre suf with
          | Some res => fn st (report pre suf res)
          | None => (st, [])
          end
      end
  | c :: rest =>
      match skip with
      | S n => replace_scan r n (c :: pre) rest st
      | O =>
          match match_here r pre suf with
          | Some res =>
              let m := report pre suf res in
              let '(st1, rep) := fn st m in
              match length (matched m) with
              | O =>
                  let '(st2, out) := replace_scan r 0 (c :: pre) rest st1 in
                  (st2, rep ++ c :: out)
              | S n =>
                  let '(st2, out) := replace_scan r n (c :: pre) rest st1 in
                  (st2, rep ++ out)
              end
          | None =>
              let '(st2, out) := replace_scan r 0 (c :: pre) rest st in
              (st2, c :: out)
          end
      end
  end.

Definition replace (r : regex) (s : jsstring) (st : St) : St * jsstring :=
  replace_scan r 0 [] s st.

End Replace.

(** The successive matches of a [g] pattern, as [exec] in a loop finds
    them. *)
Fixpoint exec_scan (r : regex) (skip : nat) (pre suf : jsstring) {struct suf}
  : list match_result :=
  match suf with
  | [] =>
      match skip with
      | S _ => []
      | O => match match_here r pre suf with
             | Some res => [report pre suf res]
             | None => []
             end
      end
  | c :: rest =>
      match skip with
      | S n => exec_scan r n (c :: pre) rest
      | O =>
          match match_here r pre suf with
          | Some res =>
              let m := report pre suf res in
              m :: exec_scan r (pred (length (matched m))) (c :: pre) rest
          | None => exec_scan r 0 (c :: pre) rest
          end
      end
  end.

Definition exec_all (r : regex) (s : jsstring) : list match_result :=
  exec_scan r 0 [] s.

(** [s.match(re)] with the [g] flag: the matched substrings ([null]
    when there are none, which every caller turns into []). *)
Definition match_all (r : regex) (s : jsstring) : list jsstring :=
  List.map matched (exec_all r s).

End Matcher.

(** Classes of the source. *)
Definition space : cls := Cls false is_space.
Definition nonspace : cls := Cls true is_space.
Definition digit : cls := Cls false is_digit.
Definition word : cls := Cls false is_word.
Definition anything : cls := Cls false any_char.
Definition one_of (s : jsstring) : cls := Cls false (fun c => existsb (N.eqb c) s).
Definition none_of (s : jsstring) : cls := Cls true (fun c => existsb (N.eqb c) s).

Fixpoint alternatives (rs : list regex) : regex :=
  match rs with
  | [] => Eps
  | [r] => r
  | r :: rs' => Alt r (alternatives rs')
  end.

Fixpoint sequence (rs : list regex) : regex :=
  match rs with
  | [] => Eps
  | [r] => r
  | r :: rs' => Seq r (sequence rs')
  end.

(** [s.replace(re, '')] for a pattern without the [g] flag: the first
    match is cut out. *)
Definition remove_first (ci : bool) (r : regex) (s : jsstring) : jsstring :=
  match String_match ci r s with
  | Some m => firstn (index m) s ++ skipn (index m + length (matched m)) s
  | None => s
  end.

End Regex.

(* ================================================================== *)
(** * Part III. The components of [src/index.js] *)
(* ================================================================== *)

Import JS Regex.

(** [[\s\S]] *)
Definition space_or_not : cls := Cls false (fun c => is_space c || negb (is_space c)).

(* ------------------------------------------------------------------ *)
(** ** ContentProtector: [stripProtectedBlocks], [restoreProtectedBlocks] *)

(** [/```[\s\S]*?```/g] *)
Definition re_fence : regex :=
  sequence [Lit (str "```"); Star false space_or_not; Lit (str "```")].

(** [blockTags] *)
Definition blockTags : list jsstring :=
  List.map str ["details"; "div"; "table"; "section"; "aside"; "article";
                "nav"; "pre"; "fieldset"; "figure"]%string.

(** The pattern built from [blockTags], with flags [gi]:
    [<(NAME)(ATTRS)>[\s\S]*?<\/\1>], where NAME is
    [details|...|figure|\w+[-_]\w[\w-]*] and ATTRS is [\b[^>]*]. *)
Definition re_block : regex :=
  sequence
    [Lit (str "<");
     Group 1 (alternatives
                (List.map Lit blockTags ++
                 [sequence [Plus word; Chr (one_of (str "-_")); Chr word;
                            Star true (Cls false (fun c => is_word c || (c =? 45)%N))]]));
     Group 2 (Seq WordB (Star true (none_of (str ">"))));
     Lit (str ">");
     Star false space_or_not;
     Lit (str "</"); Backref 1; Lit (str ">")].

(** [/\[([A-Z_]+)\][\s\S]*?\[\/\1\]/gi] *)
Definition re_bracket : regex :=
  sequence
    [Lit (str "[");
     Group 1 (Plus (Cls false (fun c => is_upper c || (c =? 95)%N)));
     Lit (str "]");
     Star false space_or_not;
     Lit (str "[/"); Backref 1; Lit (str "]")].

(** [/\[PROTECTED_(\d+)\]/g] *)
Definition re_placeholder : regex :=
  sequence [Lit (str "[PROTECTED_"); Group 1 (Plus digit); Lit (str "]")].

(** [`[PROTECTED_${n}]`] *)
Definition placeholder (n : nat) : jsstring :=
  str "[PROTECTED_" ++ number_toString (N.of_nat n) ++ str "]".

(** [blocks.push(match); return `[PROTECTED_${blocks.length - 1}]`] *)
Definition protect (blocks : list jsstring) (m : match_result)
  : list jsstring * jsstring :=
  let blocks' := blocks ++ [matched m] in
  (blocks', placeholder (length blocks' - 1)).

(** The callback of the third pass.  [tag] is the capture of
    [[A-Z_]+] under the [i] flag, hence ASCII, and [toUpperCase] acts
    on it as [ascii_upper]. *)
Definition own_tag (tag : jsstring) : bool :=
  JS.eqb (ascii_upper tag) (str "CHANGELOG")
  || startsWith (ascii_upper tag) (str "PROTECTED").

Definition protect_bracket (blocks : list jsstring) (m : match_result)
  : list jsstring * jsstring :=
  let tag := group 1 m in
  if own_tag tag then (blocks, matched m) else protect blocks m.

Definition strip_fences (text : jsstring) (blocks : list jsstring) :=
  replace false protect re_fence text blocks.
Definition strip_markup (text : jsstring) (blocks : list jsstring) :=
  replace true protect re_block text blocks.
Definition strip_brackets (text : jsstring) (blocks : list jsstring) :=
  replace true protect_bracket re_bracket text blocks.

Record Stripped := { stripped : jsstring; blocks : list jsstring }.

Definition stripProtectedBlocks (text : jsstring) : Stripped :=
  let '(blocks1, result1) := strip_fences text [] in
  let '(blocks2, result2) := strip_markup result1 blocks1 in
  let '(blocks3, result3) := strip_brackets result2 blocks2 in
  {| stripped := result3; blocks := blocks3 |}.

(** [x || ''] for a string or [undefined]. *)
Definition or_empty (x : option jsstring) : jsstring :=
  match x with Some s => s | None => [] end.

(** [(_, idx) => blocks[parseInt(idx, 10)] || ''] *)
Definition restore_one (blocks : list jsstring) (_ : unit) (m : match_result)
  : unit * jsstring :=
  (tt, or_empty (match parseInt (group 1 m) with
                 | Some k => array_get blocks k
                 | None => None
                 end)).

(** The first statement of [restoreProtectedBlocks]. *)
Definition restore_placeholders (text : jsstring) (blocks : list jsstring) : jsstring :=
  snd (replace false (restore_one blocks) re_placeholder text tt).

(** One turn of the safety-net loop. *)
Definition append_missing (text : jsstring) (blocks : list jsstring)
  (result : jsstring) (i : nat) : jsstring :=
  if includes text (placeholder i) then result
  else result ++ [LF] ++ nth i blocks [].

Definition restoreProtectedBlocks (text : jsstring) (blocks : list jsstring) : jsstring :=
  fold_left (append_missing text blocks) (seq 0 (length blocks))
            (restore_placeholders text blocks).

(* ------------------------------------------------------------------ *)
(** ** ResponseParser: [parseChangelog] *)

(** [/\[REFINED\]\s*([\s\S]*?)\s*\[\/REFINED\]/i] *)
Definition re_refined : regex :=
  sequence [Lit (str "[REFINED]"); Star true space;
            Group 1 (Star false space_or_not); Star true space;
            Lit (str "[/REFINED]")].

(** [/\[CHANGELOG\]\s*([\s\S]*?)\s*\[\/CHANGELOG\]/i] *)
Definition re_changelog : regex :=
  sequence [Lit (str "[CHANGELOG]"); Star true space;
            Group 1 (Star false space_or_not); Star true space;
            Lit (str "[/CHANGELOG]")].

(** [/\[CHANGELOG\]\s*([\s\S]*?)$/i] *)
Definition re_unclosed : regex :=
  sequence [Lit (str "[CHANGELOG]"); Star true space;
            Group 1 (Star false space_or_not); Eol].

(** [/\n\s*\n/] *)
Definition re_blank : regex :=
  sequence [Lit [LF]; Star true space; Lit [LF]].

(** [/\[\/?(?:REFINED|CHANGELOG)\]/gi] *)
Definition re_markers : regex :=
  sequence [Lit (str "["); Opt (Lit (str "/"));
            Alt (Lit (str "REFINED")) (Lit (str "CHANGELOG")); Lit (str "]")].

Record ParsedResponse := { changelog : option jsstring; refined : jsstring }.

(** [refined.replace(/\[\/?(?:REFINED|CHANGELOG)\]/gi, '')] *)
Definition remove_markers (s : jsstring) : jsstring :=
  snd (replace true (fun (_ : unit) _ => (tt, [])) re_markers s tt).

(** The extraction chain: the values of [changelog] and [refined]
    before the fallback, [None] standing for [null] and for a
    [refined] that was never assigned. *)
Definition extract (responseText : jsstring) : option jsstring * option jsstring :=
  match String_match true re_refined responseText with
  | Some refinedMatch =>
      let refined := trim (group 1 refinedMatch) in
      let changelog :=
        match String_match true re_changelog responseText with
        | Some changelogMatch => Some (trim (group 1 changelogMatch))
        | None => None
        end in
      (changelog, Some refined)
  | None =>
      match String_match true re_changelog responseText with
      | Some m =>
          (Some (trim (group 1 m)),
           Some (trim (substring_from responseText (index m + length (matched m)))))
      | None =>
          match String_match true re_unclosed responseText with
          | Some m =>
              let remainder := group 1 m in
              match search false re_blank remainder with
              | Some splitIdx =>
                  (Some (trim (substring remainder 0 splitIdx)),
                   Some (trim (substring_from remainder splitIdx)))
              | None => (None, None)
              end
          | None => (None, None)
          end
      end
  end.

(** [!refined] *)
Definition falsy (x : option jsstring) : bool :=
  match x with Some (_ :: _) => false | _ => true end.

Definition parseChangelog (responseText : jsstring) : ParsedResponse :=
  let '(changelog, refined) := extract responseText in
  let refined := if falsy refined then trim responseText else or_empty refined in
  {| changelog := changelog; refined := trim (remove_markers refined) |}.

(* ------------------------------------------------------------------ *)
(** ** PovDetector: [detectPov] *)

Inductive Pov := First | FirstAndSecond | Second | Third.

(** [/\b(i|me|my|myself|mine)\b/g] and its two siblings. *)
Definition re_pronouns (ws : list string) : regex :=
  sequence [WordB; Group 1 (alternatives (List.map (fun w => Lit (str w)) ws)); WordB].

Definition re_first : regex := re_pronouns ["i"; "me"; "my"; "myself"; "mine"]%string.
Definition re_second : regex := re_pronouns ["you"; "your"; "yours"; "yourself"]%string.
Definition re_third : regex :=
  re_pronouns ["he"; "she"; "they"; "him"; "her"; "them"; "his"; "hers";
               "their"; "theirs"]%string.

(** Numbers are binary64 values.  The counts are exact integers; the
    product [total * 0.2] is rounded. *)
Definition Number (n : N) : spec_float := binary_normalize 53 1024 (Z.of_N n) 0 false.

(** The double nearest to 0.2, 0x1999999999999A * 2^-55. *)
Definition point_two : spec_float := S754_finite false 7205759403792794 (-55).

(** [x > total * 0.2] *)
Definition above_fifth (x total : N) : bool :=
  SFltb (SFmul 53 1024 (Number total) point_two) (Number x).

Section PovDetector.

(** [String.prototype.toLowerCase] depends on the Unicode case tables,
    which are not part of the repository; the detector is taken over an
    arbitrary lowering function. *)
Variable toLowerCase : jsstring -> jsstring.

(** [(lower.match(re) || []).length] *)
Definition count (re : regex) (lower : jsstring) : N :=
  N.of_nat (length (match_all false re lower)).

Definition detectPov (text : jsstring) : option Pov :=
  let lower := toLowerCase text in
  let first := count re_first lower in
  let second := count re_second lower in
  let third := count re_third lower in
  let total := (first + second + third)%N in
  if (total <? 3)%N then None
  else if above_fifth first total && above_fifth second total then Some FirstAndSecond
  else if (second <? first)%N && (third <? first)%N then Some First
  else if (first <? second)%N && (third <? second)%N then Some Second
  else if (first <? third)%N && (second <? third)%N then Some Third
  else None.

End PovDetector.

(* ------------------------------------------------------------------ *)
(** ** DiffEngine: [tokenize], [lcsTable], [computeWordDiff] *)

(** [/\S+|\s+/g] *)
Definition re_token : regex := Alt (Plus nonspace) (Plus space).

Definition tokenize (text : jsstring) : list jsstring :=
  match_all false re_token text.

(** The table is an array of [Uint16Array] rows: a store keeps the
    value modulo 2^16. *)
Definition table := list (list N).

Definition tableAt (dp : table) (i j : nat) : N := nth j (nth i dp []) 0%N.

Fixpoint list_set {A : Type} (l : list A) (k : nat) (v : A) : list A :=
  match l, k with
  | [], _ => []
  | _ :: l', O => v :: l'
  | x :: l', S k' => x :: list_set l' k' v
  end.

Definition tableSet (dp : table) (i j : nat) (v : N) : table :=
  list_set dp i (list_set (nth i dp []) j (v mod 65536)%N).

(** [a[k]] on a token array; the loops only read inside the array. *)
Definition token (a : list jsstring) (k : nat) : jsstring := nth k a [].

Definition lcsCell (a b : list jsstring) (dp : table) (i j : nat) : table :=
  tableSet dp i j
    (if JS.eqb (token a (i - 1)) (token b (j - 1))
     then (tableAt dp (i - 1) (j - 1) + 1)%N
     else N.max (tableAt dp (i - 1) j) (tableAt dp i (j - 1))).

Definition lcsTable (a b : list jsstring) : table :=
  let m := length a in
  let n := length b in
  fold_left (fun dp i => fold_left (fun dp j => lcsCell a b dp i j) (seq 1 n) dp)
            (seq 1 m)
            (repeat (repeat 0%N (n + 1)) (m + 1)).

Inductive Kind := equal | delete | insert.

Definition Kind_eqb (x y : Kind) : bool :=
  match x, y with
  | equal, equal | delete, delete | insert, insert => true
  | _, _ => false
  end.

Record DiffSegment := Segment { type : Kind; text : jsstring }.

(** One turn of the backtrace loop at [(i, j)], with [i > 0 || j > 0]:
    the segment pushed and the indices after the turn. *)
Definition backtrace_step (a b : list jsstring) (dp : table) (i j : nat)
  : DiffSegment * (nat * nat) :=
  if (0 <? i)%nat && (0 <? j)%nat && JS.eqb (token a (i - 1)) (token b (j - 1)) then
    (Segment equal (token a (i - 1)), (i - 1, j - 1))
  else if (0 <? j)%nat
          && ((i =? 0)%nat || (tableAt dp (i - 1) j <=? tableAt dp i (j - 1))%N) then
    (Segment insert (token b (j - 1)), (i, j - 1))
  else
    (Segment delete (token a (i - 1)), (i - 1, j)).

(** [while (i > 0 || j > 0)]: the segments in the order they are pushed. *)
Equations? backtrace (a b : list jsstring) (dp : table) (i j : nat)
  : list DiffSegment by wf (i + j) lt :=
  backtrace a b dp i j with inspect ((0 <? i)%nat || (0 <? j)%nat) := {
    | exist _ false _ => [];
    | exist _ true _ =>
        fst (backtrace_step a b dp i j)
        :: backtrace a b dp (fst (snd (backtrace_step a b dp i j)))
                            (snd (snd (backtrace_step a b dp i j))) }.
Proof.
  unfold backtrace_step.
  destruct i, j; simpl in *; try discriminate;
    repeat match goal with |- context [if ?c then _ else _] => destruct c end;
    simpl; lia.
Qed.

(** The merge loop: [merged] after one more segment. *)
Definition merge_step (merged : list DiffSegment) (seg : DiffSegment)
  : list DiffSegment :=
  match rev merged with
  | last :: front =>
      if Kind_eqb (type last) (type seg)
      then rev front ++ [Segment (type last) (text last ++ text seg)]
      else merged ++ [seg]
  | [] => merged ++ [seg]
  end.

Definition computeWordDiff (original refined : jsstring) : list DiffSegment :=
  let a := tokenize original in
  let b := tokenize refined in
  let dp := lcsTable a b in
  let diff := rev (backtrace a b dp (length a) (length b)) in
  fold_left merge_step diff [].

(* ------------------------------------------------------------------ *)
(** ** RulesCompiler: [BUILTIN_RULES], [compileRules] *)

Module Rules.

Definition QUOTE : jsstring := [34%N].
Definition NEWLINE : jsstring := [LF].
(** U+2014 and U+00E9 *)
Definition DASH : jsstring := [8212%N].
Definition E_ACUTE : jsstring := [233%N].

Record BuiltinRule := { label : jsstring; prompt : jsstring }.

Definition grammar_rule : BuiltinRule :=
  {| label := str "Fix grammar & spelling";
     prompt :=
       str "Fix grammatical errors, spelling mistakes, and awkward phrasing. "
       ++ str "Do not alter intentional dialect, slang, verbal tics, or character-specific "
       ++ str "speech patterns " ++ DASH
       ++ str " only correct genuine errors. Preserve intentional sentence fragments "
       ++ str "used for rhythm or voice." |}.

Definition echo_rule : BuiltinRule :=
  {| label := str "Remove echo & restatement";
     prompt :=
       str "Using the " ++ QUOTE ++ str "Last user message" ++ QUOTE
       ++ str " from context above, scan for sentences where the character restates, "
       ++ str "paraphrases, or references the user's previous message instead of "
       ++ str "advancing the scene." ++ NEWLINE ++ NEWLINE ++ str "BANNED patterns "
       ++ DASH ++ str " if the sentence matches, cut and replace with forward motion:"
       ++ NEWLINE ++ str "1. Character speaks ABOUT what user said/did (any tense): "
       ++ QUOTE ++ str "You're asking me to..." ++ QUOTE ++ str " / " ++ QUOTE
       ++ str "You said..." ++ QUOTE ++ str " / " ++ QUOTE ++ str "You want me to..."
       ++ QUOTE ++ NEWLINE ++ str "2. " ++ QUOTE ++ str "That/this" ++ QUOTE
       ++ str " referring to user's input: " ++ QUOTE ++ str "That's not what you..."
       ++ QUOTE ++ str " / " ++ QUOTE ++ str "This is about..." ++ QUOTE ++ NEWLINE
       ++ str "3. Reframing: " ++ QUOTE ++ str "Not [user's word] " ++ DASH
       ++ str " [character's word]." ++ QUOTE ++ str " / " ++ QUOTE
       ++ str "In other words..." ++ QUOTE ++ NEWLINE ++ str "4. Processing narration: "
       ++ QUOTE ++ str "Your words [verb]..." ++ QUOTE
       ++ str " (hung, landed, settled) / Character processing what user said / "
       ++ str "Italicized replays of user's dialogue as character thought." ++ NEWLINE
       ++ NEWLINE
       ++ str "Check the WHOLE response, not just the opening. Replace cut content "
       ++ str "with character action " ++ DASH
       ++ str " what they do next, not what they think about what was said. One-word "
       ++ str "acknowledgment permitted (" ++ QUOTE ++ str "Yeah." ++ QUOTE
       ++ str " / nod), then forward." |}.

Definition repetition_rule : BuiltinRule :=
  {| label := str "Reduce repetition";
     prompt :=
       str "Using the " ++ QUOTE ++ str "Previous response ending" ++ QUOTE
       ++ str " from context above, scan for repetitive elements within this response "
       ++ str "AND compared to the previous response:" ++ NEWLINE
       ++ str "1. Repeated physical actions: Same gesture appearing twice+ (crossing "
       ++ str "arms, sighing, looking away). Replace the second instance with a "
       ++ str "different physical expression." ++ NEWLINE
       ++ str "2. Repeated sentence structures: Same openings, same punctuation "
       ++ str "patterns, same metaphor family used twice+." ++ NEWLINE
       ++ str "3. Repeated emotional beats: Character hitting the same note twice "
       ++ str "without progression. If angry twice, the second should be a different "
       ++ str "texture." ++ NEWLINE ++ NEWLINE
       ++ str "Do NOT remove intentional repetition for rhetorical effect (anaphora, "
       ++ str "callbacks, echoed dialogue). Only flag mechanical/unconscious repetition." |}.

Definition voice_rule : BuiltinRule :=
  {| label := str "Maintain character voice";
     prompt :=
       str "Using the " ++ QUOTE ++ str "Character" ++ QUOTE
       ++ str " context provided above, verify each character's dialogue is distinct "
       ++ str "and consistent:" ++ NEWLINE
       ++ str "1. Speech patterns: If a character uses contractions, slang, verbal "
       ++ str "tics, or specific vocabulary " ++ DASH
       ++ str " preserve them. Do not polish rough speech into grammatically correct "
       ++ str "prose." ++ NEWLINE
       ++ str "2. Voice flattening: If multiple characters speak, their dialogue "
       ++ str "should sound different. Flag if all characters use the same register "
       ++ str "or vocabulary level." ++ NEWLINE
       ++ str "3. Register consistency: A casual character shouldn't suddenly become "
       ++ str "eloquent mid-scene (unless that shift IS the point)." ++ NEWLINE ++ NEWLINE
       ++ str "Do not homogenize dialogue. A character's voice is more important "
       ++ str "than technically " ++ QUOTE ++ str "correct" ++ QUOTE ++ str " writing." |}.

Definition prose_rule : BuiltinRule :=
  {| label := str "Clean up prose";
     prompt :=
       str "Scan for common AI prose weaknesses. Per issue found, make the minimum "
       ++ str "surgical fix:" ++ NEWLINE ++ str "1. Somatic clich" ++ E_ACUTE ++ str "s: "
       ++ QUOTE ++ str "breath hitched/caught," ++ QUOTE ++ str " " ++ QUOTE
       ++ str "heart skipped/clenched," ++ QUOTE ++ str " " ++ QUOTE
       ++ str "stomach dropped/tightened," ++ QUOTE ++ str " " ++ QUOTE
       ++ str "shiver down spine." ++ QUOTE
       ++ str " Replace with plain statement or specific physical detail." ++ NEWLINE
       ++ str "2. Purple prose: " ++ QUOTE ++ str "Velvety voice," ++ QUOTE ++ str " "
       ++ QUOTE ++ str "liquid tone," ++ QUOTE ++ str " " ++ QUOTE ++ str "fluid grace,"
       ++ QUOTE ++ str " " ++ QUOTE ++ str "pregnant pause," ++ QUOTE
       ++ str " cosmic melodrama. Replace with concrete, grounded language." ++ NEWLINE
       ++ str "3. Filter words: " ++ QUOTE ++ str "She noticed," ++ QUOTE ++ str " "
       ++ QUOTE ++ str "he felt," ++ QUOTE ++ str " " ++ QUOTE ++ str "she realized."
       ++ QUOTE ++ str " Cut the filter " ++ DASH ++ str " go direct." ++ NEWLINE
       ++ str "4. Telling over showing: " ++ QUOTE ++ str "She felt sad" ++ QUOTE
       ++ str " / " ++ QUOTE ++ str "He was angry." ++ QUOTE
       ++ str " Replace with embodied reactions ONLY if the telling is genuinely "
       ++ str "weaker." ++ NEWLINE ++ NEWLINE
       ++ str "Do NOT over-edit. If prose is functional and voice-consistent, leave "
       ++ str "it alone. This rule targets clear weaknesses, not style preferences." |}.

Definition formatting_rule : BuiltinRule :=
  {| label := str "Fix formatting";
     prompt :=
       str "Ensure consistent formatting within the response's existing convention:"
       ++ NEWLINE
       ++ str "1. Fix orphaned formatting marks (unclosed asterisks, mismatched "
       ++ str "quotes, broken tags)" ++ NEWLINE
       ++ str "2. Fix inconsistent style (mixing *asterisks* and _underscores_ "
       ++ str "for the same purpose)" ++ NEWLINE
       ++ str "3. Ensure dialogue punctuation is consistent with the established "
       ++ str "convention" ++ NEWLINE ++ NEWLINE
       ++ str "Do not change the author's chosen formatting convention " ++ DASH
       ++ str " only correct errors within it." |}.

Definition ending_rule : BuiltinRule :=
  {| label := str "Fix crafted endings";
     prompt :=
       str "Check if the response ends with a " ++ QUOTE ++ str "dismount" ++ QUOTE
       ++ str " " ++ DASH
       ++ str " a crafted landing designed to feel like an ending rather than a "
       ++ str "mid-scene pause." ++ NEWLINE ++ NEWLINE ++ str "DISMOUNT patterns to fix:"
       ++ NEWLINE ++ str "1. Dialogue payload followed by physical stillness: " ++ QUOTE
       ++ str "Her thumb rested on his pulse." ++ QUOTE ++ str " " ++ DASH
       ++ str " body part + state verb + location as final beat." ++ NEWLINE
       ++ str "2. Fragment clusters placed after dialogue for weight: " ++ QUOTE
       ++ str "One beat." ++ QUOTE ++ str " / " ++ QUOTE ++ str "Counting." ++ QUOTE
       ++ str " / " ++ QUOTE ++ str "Still." ++ QUOTE ++ NEWLINE
       ++ str "3. Summary narration re-describing the emotional state of the scene."
       ++ NEWLINE ++ str "4. Poetic/philosophical final line " ++ DASH
       ++ str " theatrical closing statements." ++ NEWLINE
       ++ str "5. Double dismount: two landing constructions stacked." ++ NEWLINE
       ++ NEWLINE
       ++ str "FIX: Find the last line of dialogue or action with unresolved consequences. "
       ++ str "Cut everything after it. If the response has no dialogue (pure narration/action), "
       ++ str "find the last action with unresolved consequences and cut any stillness "
       ++ str "or summary after it. The response should end mid-scene." ++ NEWLINE
       ++ NEWLINE
       ++ str "EXCEPTION: If the scene is genuinely concluding (location change, "
       ++ str "time skip, departure), one clean landing beat is permitted." |}.

Definition lore_rule : BuiltinRule :=
  {| label := str "Maintain lore consistency";
     prompt :=
       str "Using the " ++ QUOTE ++ str "Character" ++ QUOTE
       ++ str " context provided above, flag only glaring contradictions with established "
       ++ str "character/world information. Examples: wrong eye color, wrong relationship "
       ++ str "status, referencing events that didn't happen, contradicting established "
       ++ str "abilities." ++ NEWLINE ++ NEWLINE
       ++ str "Do not invent new lore. When uncertain, preserve the original phrasing "
       ++ str "rather than " ++ QUOTE ++ str "correcting" ++ QUOTE
       ++ str " it. Minor ambiguities are not errors." |}.

Inductive RuleKey :=
  grammar | echo | repetition | voice | prose | formatting | ending | lore.

(** [Object.entries(BUILTIN_RULES)]: the entries in the order the
    literal lists them. *)
Definition BUILTIN_RULES : list (RuleKey * BuiltinRule) :=
  [(grammar, grammar_rule); (echo, echo_rule); (repetition, repetition_rule);
   (voice, voice_rule); (prose, prose_rule); (formatting, formatting_rule);
   (ending, ending_rule); (lore, lore_rule)].

(** A custom rule as the settings panel and the importer store it: the
    text is a string and the switch a boolean; the label, which only
    the importer sets, is any value. *)
Record CustomRule := { rule_label : value; text : jsstring; enabled : bool }.

(** The part of the settings object that [compileRules] reads. *)
Record Settings := {
  builtInRules : RuleKey -> bool;
  customRules : list CustomRule;
}.

(** [rule.enabled && rule.text && rule.text.trim()] *)
Definition active (rule : CustomRule) : bool :=
  enabled rule
  && match text rule with [] => false | _ :: _ => true end
  && match trim (text rule) with [] => false | _ :: _ => true end.

(** [rules.map((r, i) => `${i + 1}. ${r}`)], from index [i] on. *)
Fixpoint numbered (i : nat) (rules : list jsstring) : list jsstring :=
  match rules with
  | [] => []
  | r :: rules' =>
      (number_toString (N.of_nat (i + 1)) ++ str ". " ++ r) :: numbered (S i) rules'
  end.

Definition compileRules (settings : Settings) : jsstring :=
  let rules :=
    List.map (fun kr => prompt (snd kr))
             (filter (fun kr => builtInRules settings (fst kr)) BUILTIN_RULES)
    ++ List.map (fun rule => trim (text rule)) (filter active (customRules settings)) in
  let rules :=
    match rules with
    | [] => [str "Improve the overall quality of the message"]
    | _ :: _ => rules
    end in
  join [LF] (numbered 0 rules).

End Rules.

(* ------------------------------------------------------------------ *)
(** ** Chat: [findLastAiMessageIndex] *)

Module Chat.

(** The fields of a chat message the extension reads; the flags count
    by their truthiness. *)
Record Message := { mes : jsstring; is_user : bool; is_system : bool }.

(** [!chat[i].is_user && !chat[i].is_system] *)
Definition is_ai (m : Message) : bool := negb (is_user m) && negb (is_system m).

(** [for (let i = n - 1; i >= 0; i--)]: the loop from [i = n - 1]
    down, [n] never above the length. *)
Fixpoint last_ai_below (chat : list Message) (n : nat) : Z :=
  match n with
  | O => (-1)%Z
  | S i =>
      match nth_error chat i with
      | Some m => if is_ai m then Z.of_nat i else last_ai_below chat i
      | None => last_ai_below chat i
      end
  end.

(** [chat] is [None] when the context has no chat. *)
Definition findLastAiMessageIndex (chat : option (list Message)) : Z :=
  match chat with
  | None => (-1)%Z
  | Some chat => last_ai_below chat (length chat)
  end.

End Chat.

(* ------------------------------------------------------------------ *)
(** ** The custom-rules panel: [updateCustomRulesToggle], the master
       toggle and the drop handler of [initDragReorder] *)

Module Panel.
Import Rules.

(** The two properties of the master check box that the code sets. *)
Record Toggle := { checked : bool; indeterminate : bool }.

Definition updateCustomRulesToggle (rules : list CustomRule) : Toggle :=
  match rules with
  | [] => {| checked := false; indeterminate := false |}
  | _ :: _ =>
      let enabledCount := length (filter enabled rules) in
      {| checked := (enabledCount =? length rules)%nat;
         indeterminate := (0 <? enabledCount)%nat && (enabledCount <? length rules)%nat |}
  end.

(** [s.customRules.forEach(r => r.enabled = enable)] *)
Definition set_all (enable : bool) (rules : list CustomRule) : list CustomRule :=
  List.map (fun r => {| rule_label := rule_label r; text := text r; enabled := enable |})
           rules.

(** [arr.splice(i, 1)]: the removed elements and the array that is
    left; [arr.splice(i, 0, x)]: the array after the insertion.  An
    index beyond the end counts as the end. *)
Definition splice_out (A : Type) (i : nat) (l : list A) : list A * list A :=
  (firstn 1 (skipn i l), firstn i l ++ skipn (S i) l).

Definition splice_in (A : Type) (i : nat) (x : A) (l : list A) : list A :=
  firstn i l ++ x :: skipn i l.

(** The drop handler, for an item dragged from index [fromIndex] onto
    the item at [toIndex]: [None] when [moved] is [undefined], which
    the array would then hold.  The panel gives every item its own
    index, so the item dropped on itself is the one with equal
    indices. *)
Definition drop (fromIndex toIndex : nat) (rules : list CustomRule)
  : option (list CustomRule) :=
  if (fromIndex =? toIndex)%nat then Some rules
  else match splice_out fromIndex rules with
       | ([moved], rest) => Some (splice_in toIndex moved rest)
       | (_, _) => None
       end.

End Panel.

(* ------------------------------------------------------------------ *)
(** ** Moving custom rules: [exportCustomRules], [importCustomRules] *)

Module Transfer.
Import Rules.
Local Open Scope string_scope.

(** [v !== false] *)
Definition is_not_false (v : value) : bool :=
  match v with VBool false => false | _ => true end.

(** [r => ({ label: r.label || '', text: r.text || '', enabled: r.enabled !== false })] *)
Definition exported_rule (r : CustomRule) : value :=
  VObject [("label", or_else (rule_label r) (VString []));
           ("text", or_else (VString (text r)) (VString []));
           ("enabled", VBool (is_not_false (VBool (enabled r))))].

(** The object that [exportCustomRules] serialises; [None] when there
    is no custom rule and nothing is written. *)
Definition exportCustomRules (customRules : list CustomRule) : option value :=
  match customRules with
  | [] => None
  | _ :: _ =>
      Some (VObject [("name", VString (str "ReDraft Custom Rules"));
                     ("version", VNumber (Number 1));
                     ("rules", VArray (List.map exported_rule customRules))])
  end.

(** [r.key] behind the guard [r &&], where it cannot throw. *)
Definition field (r : value) (key : string) : value :=
  match get r key with Some v => v | None => VUndefined end.

(** [r => r && typeof r.text === 'string' && r.text.trim()] *)
Definition valid_entry (r : value) : bool :=
  truthy r
  && match field r "text" with
     | VString t => truthy (VString (trim t))
     | _ => false
     end.

(** [r => ({ label: r.label || '', text: r.text.trim(), enabled: r.enabled !== false })] *)
Definition imported_rule (r : value) : CustomRule :=
  {| rule_label := or_else (field r "label") (VString []);
     text := match field r "text" with VString t => trim t | _ => [] end;
     enabled := is_not_false (field r "enabled") |}.

(** [importCustomRules] as a function of the parsed file ([None] when
    [JSON.parse] throws), of the answer to the Replace/Append question
    and of the custom rules in the settings: the custom rules
    afterwards. *)
Definition importCustomRules (data : option value) (replace : bool)
  (customRules : list CustomRule) : list CustomRule :=
  match data with
  | None => customRules
  | Some data =>
      match get data "rules" with
      | Some (VArray ((_ :: _) as rules)) =>
          let importedRules := List.map imported_rule (filter valid_entry rules) in
          match importedRules with
          | [] => customRules
          | _ :: _ =>
              match customRules with
              | [] => importedRules
              | _ :: _ => if replace then importedRules else customRules ++ importedRules
              end
          end
      | _ => customRules
      end
  end.

End Transfer.

(* ------------------------------------------------------------------ *)
(** ** Refinement: [refineViaST], [refineViaPlugin], [redraftMessage],
       [undoRedraft] *)

Module Refiner.
Import Chat.
Local Open Scope Z_scope.

(** What an asynchronous call comes to: a value, or an exception with
    its message ([None] where the engine words it). *)
Inductive outcome (A : Type) :=
| Returned (a : A)
| Threw (message : option jsstring).
Arguments Threw {A} message.

(** [refineViaST], given whether [generateRaw] is a function and what
    it resolved to. *)
Definition refineViaST (available : bool) (result : value) : outcome jsstring :=
  if negb available then
    Threw (Some (str "generateRaw is not available in this version of SillyTavern"))
  else
    match result with
    | VString s =>
        if truthy (VString s) && truthy (VString (trim s)) then Returned (trim s)
        else Threw (Some (str "ST generated an empty response"))
    | _ => Threw (Some (str "ST generated an empty response"))
    end.

(** [refineViaPlugin], given the body [pluginRequest] resolved to.
    Reading [text] off [null] throws, and so does calling [trim] on a
    truthy [text] that is not a string. *)
Definition refineViaPlugin (result : value) : outcome jsstring :=
  match get result "text" with
  | None => Threw None
  | Some text =>
      if negb (truthy text) then Threw (Some (str "Plugin returned an empty response"))
      else match text with
           | VString s =>
               if truthy (VString (trim s)) then Returned (trim s)
               else Threw (Some (str "Plugin returned an empty response"))
           | _ => Threw None
           end
  end.

(** [chatMetadata['redraft_diffs'][i]] *)
Record SavedDiff := { original : jsstring; saved_changelog : option jsstring }.

(** The state that [redraftMessage] and [undoRedraft] read and write:
    the chat (a context without one has an empty chat: no index is
    valid in either), the two tables kept in the chat metadata (a
    missing table is an empty one) and the two module variables. *)
Record State := {
  chat : list Message;
  redraft_originals : Z -> option jsstring;
  redraft_diffs : Z -> option SavedDiff;
  isRefining : bool;
  pluginAvailable : bool;
}.

(** [table[key] = v] and [delete table[key]] *)
Definition store (A : Type) (table : Z -> option A) (key : Z) (v : A) : Z -> option A :=
  fun k => if k =? key then Some v else table k.
Definition remove (A : Type) (table : Z -> option A) (key : Z) : Z -> option A :=
  fun k => if k =? key then None else table k.

(** [chat[messageIndex]] *)
Definition message_at (chat : list Message) (messageIndex : Z) : option Message :=
  if messageIndex <? 0 then None else nth_error chat (Z.to_nat messageIndex).

(** [chat[messageIndex].mes = text] *)
Definition set_mes (chat : list Message) (messageIndex : Z) (text : jsstring)
  : list Message :=
  match message_at chat messageIndex with
  | Some m =>
      list_set chat (Z.to_nat messageIndex)
               {| mes := text; is_user := is_user m; is_system := is_system m |}
  | None => chat
  end.

(** How far the body of [try] gets: an exception before the reply is
    in (from [saveMetadata], the prompt or the call of the model), an
    exception after the refined text is written (from [saveChat] or the
    rendering), or none. *)
Inductive Run :=
| FailsEarly
| FailsLate (refinedText : jsstring)
| Completes (refinedText : jsstring).

(** The text that [redraftMessage] writes back for a message and the
    reply of the model. *)
Definition rewritten (mes refinedText : jsstring) : jsstring :=
  let protected := stripProtectedBlocks mes in
  let parsed := parseChangelog refinedText in
  restoreProtectedBlocks (refined parsed) (blocks protected).

(** [changelog || null] *)
Definition or_null (changelog : option jsstring) : option jsstring :=
  match changelog with Some ((_ :: _) as s) => Some s | _ => None end.

(** [redraftMessage(messageIndex)] in plugin mode or not. *)
Definition redraftMessage (pluginMode : bool) (run : Run) (messageIndex : Z) (st : State)
  : State :=
  if isRefining st then st
  else if (messageIndex <? 0) || (Z.of_nat (length (chat st)) <=? messageIndex) then st
  else
    match message_at (chat st) messageIndex with
    | None => st
    | Some message =>
        if negb (truthy (VString (mes message))) then st
        else if pluginMode && negb (pluginAvailable st) then st
        else
          let originals := store (redraft_originals st) messageIndex (mes message) in
          match run with
          | FailsEarly =>
              {| chat := chat st;
                 redraft_originals := originals;
                 redraft_diffs := redraft_diffs st;
                 isRefining := false;
                 pluginAvailable := pluginAvailable st |}
          | FailsLate refinedText =>
              {| chat := set_mes (chat st) messageIndex (rewritten (mes message) refinedText);
                 redraft_originals := originals;
                 redraft_diffs := redraft_diffs st;
                 isRefining := false;
                 pluginAvailable := pluginAvailable st |}
          | Completes refinedText =>
              {| chat := set_mes (chat st) messageIndex (rewritten (mes message) refinedText);
                 redraft_originals := originals;
                 redraft_diffs :=
                   store (redraft_diffs st) messageIndex
                         {| original := mes message;
                            saved_changelog :=
                              or_null (changelog (parseChangelog refinedText)) |};
                 isRefining := false;
                 pluginAvailable := pluginAvailable st |}
          end
    end.

(** [undoRedraft(messageIndex)].  Writing to a message that is not
    there throws before anything has changed. *)
Definition undoRedraft (messageIndex : Z) (st : State) : State :=
  match redraft_originals st messageIndex with
  | Some ((_ :: _) as originalText) =>
      match message_at (chat st) messageIndex with
      | Some _ =>
          {| chat := set_mes (chat st) messageIndex originalText;
             redraft_originals := remove (redraft_originals st) messageIndex;
             redraft_diffs := remove (redraft_diffs st) messageIndex;
             isRefining := isRefining st;
             pluginAvailable := pluginAvailable st |}
      | None => st
      end
  | _ => st
  end.

End Refiner.

(* ------------------------------------------------------------------ *)
(** ** The server plugin ([src/server-plugin/index.js]): [maskKey] and
       the handler of [POST /config] *)

Module Plugin.

(** [maskKey], on a string; the empty string is the falsy one. *)
Definition maskKey (key : jsstring) : jsstring :=
  if negb (truthy (VString key)) || (length key <? 8)%nat then str "****"
  else slice key 0 (Some 3%Z) ++ str "..." ++ slice key (-4) None.

(** The characters that [sanitizeError] escapes, the class
    [.*+?^${}()|[\]\\] of its pattern: the syntax characters of a
    regular expression. *)
Definition syntax_characters : jsstring := str "\.*+?^${}()|[]".

Definition is_syntax_character (c : char) : bool :=
  existsb (N.eqb c) syntax_characters.

Definition BACKSLASH : char := 92%N.

(** [key.replace(/[.*+?^${}()|[\]\\]/g, '\\$&')]: a backslash in
    front of every syntax character. *)
Definition escape (key : jsstring) : jsstring :=
  snd (replace false (fun (_ : unit) m => (tt, BACKSLASH :: matched m))
               (Chr (one_of syntax_characters)) key tt).

(** [new RegExp(pattern, 'g')] for a pattern made of pattern characters
    and escaped syntax characters: the literal it denotes.  Any other
    pattern is outside this reading ([None]). *)
Fixpoint literal_pattern (pattern : jsstring) : option jsstring :=
  match pattern with
  | [] => Some []
  | c :: rest =>
      if (c =? BACKSLASH)%N then
        match rest with
        | d :: rest' =>
            if is_syntax_character d then option_map (cons d) (literal_pattern rest')
            else None
        | [] => None
        end
      else if is_syntax_character c then None
      else option_map (cons c) (literal_pattern rest)
  end.

(** [/\/+$/] *)
Definition re_trailing_slashes : regex := Seq (Plus (one_of (str "/"))) Eol.

Record Config := {
  apiUrl : jsstring;
  apiKey : jsstring;
  model : jsstring;
  maxTokens : spec_float;
}.

(** The four fields the handler takes off the request body; a field
    that is not there is [undefined]. *)
Record Body := {
  body_apiUrl : value;
  body_apiKey : value;
  body_model : value;
  body_maxTokens : value;
}.

Inductive Response :=
| Ok
| Status (code : N) (error : jsstring).

(** [sanitizeError], given the cached configuration, whose key is a
    string as [POST /config] stores it. *)
Definition sanitizeError (cachedConfig : option Config) (message : jsstring)
  : option jsstring :=
  match cachedConfig with
  | Some config =>
      if truthy (VString (apiKey config)) && includes message (apiKey config) then
        match literal_pattern (escape (apiKey config)) with
        | Some key =>
            Some (snd (replace false (fun (_ : unit) _ => (tt, str "[REDACTED]"))
                               (Lit key) message tt))
        | None => None
        end
      else Some message
  | None => Some message
  end.

(** [!v || typeof v !== 'string' || !v.trim()], negated: the string
    that passes. *)
Definition required (v : value) : option jsstring :=
  match v with
  | VString s => if truthy (VString s) && truthy (VString (trim s)) then Some s else None
  | _ => None
  end.

Section SaveConfig.

(** The conversion [Number(v)] of an arbitrary value is not modelled. *)
Variable ToNumber : value -> spec_float.

(** The handler, given the body ([None] when there is none to
    destructure), whether the file can be written, and the cached
    configuration: the response and the cache afterwards. *)
Definition post_config (body : option Body) (writable : bool) (cachedConfig : option Config)
  : Response * option Config :=
  match body with
  | None => (Status 500 (str "Failed to save configuration"), cachedConfig)
  | Some body =>
      match required (body_apiUrl body) with
      | None =>
          (Status 400 (str "apiUrl is required and must be a non-empty string"),
           cachedConfig)
      | Some url =>
          match required (body_apiKey body) with
          | None =>
              (Status 400 (str "apiKey is required and must be a non-empty string"),
               cachedConfig)
          | Some key =>
              match required (body_model body) with
              | None =>
                  (Status 400 (str "model is required and must be a non-empty string"),
                   cachedConfig)
              | Some name =>
                  let config :=
                    {| apiUrl := remove_first false re_trailing_slashes (trim url);
                       apiKey := trim key;
                       model := trim name;
                       maxTokens :=
                         let n := ToNumber (body_maxTokens body) in
                         if truthy (VNumber n) then n else Number 4096 |} in
                  if writable then (Ok, Some config)
                  else (Status 500 (str "Failed to save configuration"), cachedConfig)
              end
          end
      end
  end.

End SaveConfig.

End Plugin.

(* ================================================================== *)
(** * Part IV. Properties *)
(* ================================================================== *)

Unset Implicit Arguments.

(* ------------------------------------------------------------------ *)
(** ** Vocabulary *)

Definition LBRACKET : char := 91%N.
Definition RBRACKET : char := 93%N.

(** Whether [suf] starts with a match of the literal [s]. *)
Fixpoint lit_prefix (ci : bool) (s suf : jsstring) : bool :=
  match s, suf with
  | [], _ => true
  | x :: s', c :: rest => char_match ci x c && lit_prefix ci s' rest
  | _ :: _, [] => false
  end.

(** The characters of a bracket tag under the [i] flag. *)
Definition is_tag_char (c : char) : bool :=
  is_upper c || is_lower c || (c =? 95)%N.

(** The first position at which the literal [l] occurs in [s] (under
    the [i] flag when [ci]). *)
Fixpoint first_index (ci : bool) (l s : jsstring) : option nat :=
  if lit_prefix ci l s then Some 0%nat
  else match s with
       | [] => None
       | _ :: s' => option_map S (first_index ci l s')
       end.

(** The inner content of the first closed pair of tags [O] ... [C] of
    a reply: what stands between the first [O] and the first [C]
    behind it, tags compared under the [i] flag. *)
Definition pair_inner (O C raw : jsstring) : option jsstring :=
  match first_index true O raw with
  | Some i =>
      let rest := skipn (i + length O) raw in
      match first_index true C rest with
      | Some j => Some (firstn j rest)
      | None => None
      end
  | None => None
  end.

(** A reply from which the extraction chain of [parseChangelog]
    recovers nothing: no closed [REFINED] pair, no closed [CHANGELOG]
    pair, and no unclosed [CHANGELOG] tag followed by a blank line. *)
Definition unrecovered (raw : jsstring) : Prop :=
  pair_inner (str "[REFINED]") (str "[/REFINED]") raw = None /\
  pair_inner (str "[CHANGELOG]") (str "[/CHANGELOG]") raw = None /\
  match String_match true re_unclosed raw with
  | Some m => search false re_blank (group 1 m) = None
  | None => True
  end.

(** The reply of the example in the specification. *)
Definition example_reply : jsstring :=
  str "blah blah [CHANGELOG]" ++ [LF] ++ str "- x" ++ [LF]
  ++ str "[/CHANGELOG][REFINED]Hello world.[/REFINED]".

(** The shape shared by [re_refined] and [re_changelog]. *)
Definition pair_pattern (O C : jsstring) : regex :=
  sequence [Lit O; Star true space; Group 1 (Star false space_or_not);
            Star true space; Lit C].

(** A string with no white space at either end. *)
Definition tight (b : jsstring) : Prop :=
  match b with c :: _ => is_space c = false | [] => True end /\
  match rev b with c :: _ => is_space c = false | [] => True end.

(** [[tag]body[/tag']] *)
Definition bracket_block (tag body tag' : jsstring) : jsstring :=
  str "[" ++ tag ++ str "]" ++ body ++ str "[/" ++ tag' ++ str "]".


(** [[/tag]] *)
Definition closing_tag (tag : jsstring) : jsstring := str "[/" ++ tag ++ str "]".

(** Every bracket block that the third pass finds in [text] starts at
    [start]: the text has no bracket block but the one there. *)
Definition only_bracket_block_at (start : nat) (text : jsstring) : bool :=
  forallb (fun m => (index m =? start)%nat) (exec_all true re_bracket text).

(** A text without protectable markup: no code fence, no protected
    element, and no bracket block other than those the third pass
    hands back (its own tags). *)
Definition no_protectable_markup (t : jsstring) : Prop :=
  test false re_fence t = false /\
  test true re_block t = false /\
  forallb (fun m => own_tag (group 1 m)) (exec_all true re_bracket t) = true.

(** A text without any placeholder-shaped token [[PROTECTED_<digits>]]. *)
Definition placeholder_free (t : jsstring) : Prop :=
  test false re_placeholder t = false.

(** A placeholder token is a bracket followed by [token_tail]. *)
Definition token_tail (ds : jsstring) : jsstring :=
  str "PROTECTED_" ++ ds ++ [RBRACKET].

(** The output of the scan of [restoreProtectedBlocks] from a given
    position, and what it puts in place of a token with digits [ds]. *)
Definition scan_restore (blocks : list jsstring) (skip : nat) (pre suf : jsstring)
  : jsstring :=
  snd (replace_scan false (restore_one blocks) re_placeholder skip pre suf tt).

Definition replacement_of (blocks : list jsstring) (ds : jsstring) : jsstring :=
  or_empty (match parseInt ds with
            | Some k => array_get blocks k
            | None => None
            end).

(** What the safety net of [restoreProtectedBlocks] appends for the
    indices in [l]: a line feed and the block, for each block whose
    placeholder is missing from the text. *)
Definition missing (text : jsstring) (i : nat) : bool :=
  negb (includes text (placeholder i)).

Definition appended (text : jsstring) (blocks : list jsstring) (l : list nat)
  : jsstring :=
  concat (List.map (fun i => LF :: nth i blocks []) (filter (missing text) l)).

(** Patterns without [\b]: a match attempt does not depend on the
    input before the current position. *)
Fixpoint no_lookbehind (r : regex) : bool :=
  match r with
  | WordB => false
  | Seq r1 r2 | Alt r1 r2 => no_lookbehind r1 && no_lookbehind r2
  | Group _ r1 => no_lookbehind r1
  | _ => true
  end.

Definition blind (k1 k2 : cont) : Prop :=
  forall pre1 pre2 suf caps, k1 pre1 suf caps = k2 pre2 suf caps.


(** *** Tokens and edit scripts *)

(** Two code units are of the same kind when both are white space or
    neither is. *)
Definition same_kind (c d : char) : bool := Bool.eqb (is_space c) (is_space d).

(** A run: a non-empty string of code units of one kind. *)
Definition is_run (t : jsstring) : bool :=
  match t with
  | c :: t' => forallb (same_kind c) t'
  | [] => false
  end.

(** Whether a token is a white-space token. *)
Definition blank_token (t : jsstring) : bool :=
  match t with c :: _ => is_space c | [] => false end.

(** Neighbouring tokens are of different kinds. *)
Fixpoint alternating (l : list jsstring) : Prop :=
  match l with
  | t1 :: ((t2 :: _) as l') => blank_token t1 <> blank_token t2 /\ alternating l'
  | _ => True
  end.

(** The maximal runs of a string, from the right. *)
Fixpoint runs (s : jsstring) : list jsstring :=
  match s with
  | [] => []
  | c :: s' =>
      match runs s' with
      | (d :: t) :: ts => if same_kind c d then (c :: d :: t) :: ts else [c] :: (d :: t) :: ts
      | _ => [[c]]
      end
  end.

Fixpoint drop_while (p : char -> bool) (s : jsstring) : jsstring :=
  match s with
  | c :: s' => if p c then drop_while p s' else s
  | [] => []
  end.

Fixpoint take_while (p : char -> bool) (s : jsstring) : jsstring :=
  match s with
  | c :: s' => if p c then c :: take_while p s' else []
  | [] => []
  end.

(** Neighbouring segments are of different types. *)
Fixpoint types_alternate (l : list DiffSegment) : Prop :=
  match l with
  | s1 :: ((s2 :: _) as l') => type s1 <> type s2 /\ types_alternate l'
  | _ => True
  end.

(** [c] is a subsequence of [l]: [l] with some elements left out. *)
Inductive Subseq {A : Type} : list A -> list A -> Prop :=
| Subseq_nil : Subseq [] []
| Subseq_skip c x l : Subseq c l -> Subseq c (x :: l)
| Subseq_take c x l : Subseq c l -> Subseq (x :: c) (x :: l).

(** The tokens an edit script keeps: the texts of its [equal] segments. *)
Definition kept_tokens (script : list DiffSegment) : list jsstring :=
  List.map text (filter (fun s => Kind_eqb (type s) equal) script).

(** The length of a longest common subsequence of the first [i] tokens
    of [a] and the first [j] tokens of [b], by the textbook recurrence. *)
Fixpoint lcs_length (a b : list jsstring) (i j : nat) {struct i} : nat :=
  match i with
  | O => O
  | S i' =>
      (fix row (j : nat) : nat :=
         match j with
         | O => O
         | S j' =>
             if JS.eqb (token a i') (token b j') then S (lcs_length a b i' j')
             else Nat.max (lcs_length a b i' (S j')) (row j')
         end) j
  end.

(** *** Replies *)

(** The text behind the first closed pair of tags [O] ... [C]. *)
Definition pair_tail (O C raw : jsstring) : option jsstring :=
  match first_index true O raw with
  | Some i =>
      let rest := skipn (i + length O) raw in
      match first_index true C rest with
      | Some j => Some (skipn (j + length C) rest)
      | None => None
      end
  | None => None
  end.

(** The first line feed of [s] that is followed, after white space
    only, by another line feed: where a blank line starts. *)
Fixpoint blank_line (s : jsstring) : option nat :=
  match s with
  | [] => None
  | c :: s' =>
      if (c =? LF)%N && existsb (N.eqb LF) (take_while is_space s') then Some 0%nat
      else option_map S (blank_line s')
  end.

(** *** The server plugin *)

Definition SLASH : char := 47%N.

(** Where the run of slashes at the end of [s] starts. *)
Fixpoint trailing_slashes (s : jsstring) : option nat :=
  match s with
  | [] => None
  | c :: s' =>
      if forallb (N.eqb SLASH) (c :: s') then Some 0%nat
      else option_map S (trailing_slashes s')
  end.

(** [s] does not end with a slash. *)
Definition no_final_slash (s : jsstring) : Prop :=
  match rev s with c :: _ => c <> SLASH | [] => True end.

(** No bracket occurs in [s]. *)
Definition bracket_free (s : jsstring) : bool :=
  forallb (fun c => negb ((c =? LBRACKET)%N || (c =? RBRACKET)%N)) s.

(** The output of the redaction scan from a given position. *)
Definition redact (key : jsstring) (skip : nat) (pre suf : jsstring) : jsstring :=
  snd (replace_scan false (fun (_ : unit) _ => (tt, str "[REDACTED]")) (Lit key)
                    skip pre suf tt).

(* ------------------------------------------------------------------ *)
(** ** The embedding at work *)

Example tokenize_runs :
  tokenize (str "The cat  sat.") = List.map str ["The"; " "; "cat"; "  "; "sat."]%string.
Proof. vm_compute. reflexivity. Qed.

Example diff_insertion :
  computeWordDiff (str "a b") (str "a c b")
  = [Segment equal (str "a"); Segment insert (str " c"); Segment equal (str " b")].
Proof. vm_compute. reflexivity. Qed.

Example strip_three_passes :
  stripProtectedBlocks (str "x ```code``` <div class=a>hi</div> [NOTE]n[/note] <b>k</b>")
  = {| stripped := str "x [PROTECTED_0] [PROTECTED_1] [PROTECTED_2] <b>k</b>";
       blocks := List.map str ["```code```"; "<div class=a>hi</div>";
                               "[NOTE]n[/note]"]%string |}.
Proof. vm_compute. reflexivity. Qed.

Example restore_in_place_and_appended :
  restoreProtectedBlocks (str "a [PROTECTED_1] b") [str "ZERO"; str "ONE"]
  = str "a ONE b" ++ [LF] ++ str "ZERO".
Proof. vm_compute. reflexivity. Qed.

Example parse_unclosed_changelog :
  parseChangelog (str "[CHANGELOG]- fixed typo" ++ [LF; LF] ++ str "Hello there.")
  = {| changelog := Some (str "- fixed typo"); refined := str "Hello there." |}.
Proof. vm_compute. reflexivity. Qed.

Example detectPov_third :
  detectPov ascii_lower (str "She saw him and they left.") = Some Third.
Proof. vm_compute. reflexivity. Qed.

Example detectPov_too_short :
  detectPov ascii_lower (str "The cat sat.") = None.
Proof. vm_compute. reflexivity. Qed.

Example redraft_saves_whole_changelog :
  let st := {| Refiner.chat := [ {| Chat.mes := str "Helo"; Chat.is_user := false;
                                    Chat.is_system := false |} ];
               Refiner.redraft_originals := fun _ => None;
               Refiner.redraft_diffs := fun _ => None;
               Refiner.isRefining := false;
               Refiner.pluginAvailable := false |} in
  let st' := Refiner.redraftMessage false
               (Refiner.Completes
                  (str "[CHANGELOG]- typo[/CHANGELOG][REFINED]Hello[/REFINED]")) 0 st in
  List.map Chat.mes (Refiner.chat st') = [str "Hello"] /\
  Refiner.redraft_originals st' 0%Z = Some (str "Helo") /\
  Refiner.redraft_diffs st' 0%Z
  = Some {| Refiner.original := str "Helo";
            Refiner.saved_changelog := Some (str "- typo") |}.
Proof. vm_compute. repeat split; reflexivity. Qed.

(* ------------------------------------------------------------------ *)
(** ** DiffEngine *)

(** The two readings of an edit script: the segments that come from the
    original text and those that come from the rewritten text. *)
Definition on_original (s : DiffSegment) : bool :=
  match type s with equal | delete => true | insert => false end.
Definition on_refined (s : DiffSegment) : bool :=
  match type s with equal | insert => true | delete => false end.
Definition side_of (keep : DiffSegment -> bool) (segs : list DiffSegment) : jsstring :=
  concat (List.map text (filter keep segs)).
Definition original_side (segs : list DiffSegment) : jsstring :=
  side_of on_original segs.
Definition refined_side (segs : list DiffSegment) : jsstring :=
  side_of on_refined segs.

Module DiffFacts.

Lemma eqb_eq s t : JS.eqb s t = true <-> s = t.
Proof.
  revert t; induction s as [|x s IH]; intros [|y t]; simpl; split;
    try congruence; try discriminate.
  - intros H. apply andb_true_iff in H. destruct H as [H1 H2].
    apply N.eqb_eq in H1. apply IH in H2. congruence.
  - intros H. inversion H; subst. rewrite N.eqb_refl. simpl. now apply IH.
Qed.

Section Side.
Variable keep : DiffSegment -> bool.
Hypothesis keep_type : forall s t, type s = type t -> keep s = keep t.

Local Abbreviation side := (side_of keep).

Lemma side_app l1 l2 : side (l1 ++ l2) = side l1 ++ side l2.
Proof. unfold side_of. now rewrite filter_app, map_app, concat_app. Qed.

Lemma side_one s : side [s] = if keep s then text s else [].
Proof. unfold side_of; simpl. destruct (keep s); simpl; now rewrite ?app_nil_r. Qed.

Lemma Kind_eqb_eq x y : Kind_eqb x y = true -> x = y.
Proof. destruct x, y; simpl; congruence. Qed.

Lemma side_merge_step merged seg :
  side (merge_step merged seg) = side merged ++ side [seg].
Proof.
  unfold merge_step.
  destruct (rev merged) as [|last front] eqn:E.
  - apply side_app.
  - destruct (Kind_eqb (type last) (type seg)) eqn:K; [|apply side_app].
    apply Kind_eqb_eq in K.
    assert (M : merged = rev front ++ [last]).
    { rewrite <- (rev_involutive merged), E. reflexivity. }
    rewrite M, !side_app, !side_one, <- app_assoc. f_equal.
    rewrite (keep_type (Segment (type last) (text last ++ text seg)) last eq_refl).
    rewrite (keep_type seg last (eq_sym K)).
    destruct (keep last); simpl; reflexivity.
Qed.

Lemma side_merge diff acc :
  side (fold_left merge_step diff acc) = side acc ++ side diff.
Proof.
  revert acc; induction diff as [|s diff IH]; intros acc; simpl.
  - unfold side_of at 3. simpl. now rewrite app_nil_r.
  - rewrite IH, side_merge_step, <- app_assoc. f_equal.
    change (s :: diff) with ([s] ++ diff). now rewrite side_app.
Qed.

End Side.

Lemma backtrace_unfold a b dp i j :
  backtrace a b dp i j =
  if (0 <? i)%nat || (0 <? j)%nat then
    fst (backtrace_step a b dp i j)
    :: backtrace a b dp (fst (snd (backtrace_step a b dp i j)))
                        (snd (snd (backtrace_step a b dp i j)))
  else [].
Proof.
  funelim (backtrace a b dp i j); rewrite e; reflexivity.
Qed.

Lemma concat_firstn_succ (a : list jsstring) i :
  (i < length a)%nat ->
  concat (firstn (S i) a) = concat (firstn i a) ++ token a i.
Proof.
  revert i; induction a as [|x a IH]; intros i H; simpl in *; [lia|].
  destruct i; simpl.
  - unfold token; simpl. now rewrite app_nil_r.
  - rewrite IH by lia. unfold token; simpl. now rewrite app_assoc.
Qed.

Lemma concat_firstn_pred (a : list jsstring) i :
  (0 < i <= length a)%nat ->
  concat (firstn i a) = concat (firstn (i - 1) a) ++ token a (i - 1).
Proof.
  intros H. destruct i as [|i]; [lia|].
  replace (S i - 1)%nat with i by lia. apply concat_firstn_succ. lia.
Qed.

Lemma backtrace_sides a b dp i j :
  (i <= length a)%nat -> (j <= length b)%nat ->
  side_of on_original (rev (backtrace a b dp i j)) = concat (firstn i a) /\
  side_of on_refined (rev (backtrace a b dp i j)) = concat (firstn j b).
Proof.
  funelim (backtrace a b dp i j); intros Hi Hj.
  - clear H0 Heqcall. revert H. unfold backtrace_step.
    destruct ((0 <? i)%nat && (0 <? j)%nat && JS.eqb (token a (i - 1)) (token b (j - 1))) eqn:E1;
      [|destruct ((0 <? j)%nat && ((i =? 0)%nat || (tableAt dp (i - 1) j <=? tableAt dp i (j - 1))%N)) eqn:E2];
      simpl; intros IH.
    + apply andb_true_iff in E1. destruct E1 as [E1 E3].
      apply andb_true_iff in E1. destruct E1 as [E1 E2].
      apply Nat.ltb_lt in E1, E2. apply eqb_eq in E3.
      destruct IH as [IH1 IH2]; [lia|lia|].
      rewrite !side_app, IH1, IH2, !side_one. simpl.
      rewrite (concat_firstn_pred a i), (concat_firstn_pred b j) by lia.
      rewrite E3. auto.
    + apply andb_true_iff in E2. destruct E2 as [E2 _]. apply Nat.ltb_lt in E2.
      destruct IH as [IH1 IH2]; [lia|lia|].
      rewrite !side_app, IH1, IH2, !side_one. simpl.
      rewrite (concat_firstn_pred b j) by lia. rewrite app_nil_r. auto.
    + assert (0 < i)%nat.
      { destruct i; [|lia]. destruct j; simpl in *; try discriminate. }
      destruct IH as [IH1 IH2]; [lia|lia|].
      rewrite !side_app, IH1, IH2, !side_one. simpl.
      rewrite (concat_firstn_pred a i) by lia. rewrite app_nil_r. auto.
  - destruct (orb_false_elim _ _ e) as [e1 e2].
    apply Nat.ltb_ge in e1, e2.
    replace i with 0%nat by lia. replace j with 0%nat by lia. simpl. auto.
Qed.

End DiffFacts.

(** C1.  For all inputs, the [equal] and [delete] segments of
    [computeWordDiff original refined] concatenate to the concatenation of
    [tokenize original], and its [equal] and [insert] segments to that of
    [tokenize refined]. *)
Theorem computeWordDiff_sides (original refined : jsstring) :
  original_side (computeWordDiff original refined) = concat (tokenize original) /\
  refined_side (computeWordDiff original refined) = concat (tokenize refined).
Proof.
  unfold computeWordDiff, original_side, refined_side.
  set (a := tokenize original). set (b := tokenize refined).
  destruct (DiffFacts.backtrace_sides a b (lcsTable a b) (length a) (length b)
              (Nat.le_refl _) (Nat.le_refl _)) as [H1 H2].
  split.
  - rewrite DiffFacts.side_merge, H1, firstn_all; [reflexivity|].
    intros s t E. unfold on_original. now rewrite E.
  - rewrite DiffFacts.side_merge, H2, firstn_all; [reflexivity|].
    intros s t E. unfold on_refined. now rewrite E.
Qed.

(** C7.  In the backtrace over the table of [computeWordDiff], a turn
    at [(i, j)] with both indices positive, differing tokens and
    [tableAt i (j-1) >= tableAt (i-1) j] pushes an [insert] segment and
    goes on at [(i, j-1)]: on a tie insertion wins over deletion. *)
Theorem backtrace_prefers_insert (original refined : jsstring) (i j : nat) :
  let a := tokenize original in
  let b := tokenize refined in
  let dp := lcsTable a b in
  (0 < i)%nat -> (0 < j)%nat ->
  token a (i - 1) <> token b (j - 1) ->
  (tableAt dp (i - 1) j <= tableAt dp i (j - 1))%N ->
  backtrace_step a b dp i j = (Segment insert (token b (j - 1)), (i, (j - 1)%nat)) /\
  backtrace a b dp i j = Segment insert (token b (j - 1)) :: backtrace a b dp i (j - 1).
Proof.
  intros a b dp Hi Hj Hne Hle.
  assert (E : backtrace_step a b dp i j
              = (Segment insert (token b (j - 1)), (i, (j - 1)%nat))).
  { unfold backtrace_step.
    destruct (JS.eqb (token a (i - 1)) (token b (j - 1))) eqn:E.
    - apply DiffFacts.eqb_eq in E. contradiction.
    - rewrite andb_false_r.
      apply Nat.ltb_lt in Hj. rewrite Hj. apply N.leb_le in Hle. rewrite Hle.
      now rewrite orb_true_r. }
  split; [exact E|].
  rewrite DiffFacts.backtrace_unfold, E. simpl.
  apply Nat.ltb_lt in Hi. now rewrite Hi.
Qed.

Lemma backtrace_prefers_insert_witness :
  backtrace_step (tokenize (str "a")) (tokenize (str "b"))
                 (lcsTable (tokenize (str "a")) (tokenize (str "b"))) 1 1
  = (Segment insert (str "b"), (1, 0)%nat) /\
  backtrace (tokenize (str "a")) (tokenize (str "b"))
            (lcsTable (tokenize (str "a")) (tokenize (str "b"))) 1 1
  = Segment insert (str "b")
    :: backtrace (tokenize (str "a")) (tokenize (str "b"))
                 (lcsTable (tokenize (str "a")) (tokenize (str "b"))) 1 0.
Proof.
  apply (backtrace_prefers_insert (str "a") (str "b") 1 1).
  - lia.
  - lia.
  - vm_compute. discriminate.
  - vm_compute. discriminate.
Defined.

(* ------------------------------------------------------------------ *)
(** ** Lists *)

Module ListFacts.

Lemma firstn_length_diff (A : Type) (m rest : list A) :
  firstn (length (m ++ rest) - length rest) (m ++ rest) = m.
Proof.
  rewrite length_app.
  replace (length m + length rest - length rest)%nat with (length m) by lia.
  rewrite firstn_app, Nat.sub_diag, firstn_all. simpl. apply app_nil_r.
Qed.

Lemma firstn_length_diff_cons (A : Type) (d : A) (m rest : list A) :
  firstn (length (d :: m ++ rest) - length rest) (d :: m ++ rest) = d :: m.
Proof. apply (firstn_length_diff A (d :: m) rest). Qed.

Lemma firstn_own_length (A : Type) (k : nat) (l : list A) :
  firstn (length (firstn k l)) l = firstn k l.
Proof.
  revert l; induction k as [|k IH]; intros [|x l]; simpl; auto. now rewrite IH.
Qed.

Lemma app_cons_snoc (A : Type) (l : list A) (x : A) (r : list A) :
  l ++ x :: r = (l ++ [x]) ++ r.
Proof. now rewrite <- app_assoc. Qed.

Lemma skipn_app_exact (A : Type) (s rest : list A) :
  skipn (length s) (s ++ rest) = rest.
Proof. now rewrite skipn_app, skipn_all, Nat.sub_diag. Qed.

Lemma firstn_app_exact (A : Type) (s rest : list A) :
  firstn (length s) (s ++ rest) = s.
Proof. now rewrite firstn_app, firstn_all, Nat.sub_diag, app_nil_r. Qed.

End ListFacts.

(* ------------------------------------------------------------------ *)
(** ** The matcher *)

Module RegexFacts.
Import ListFacts.

Section Generic.
Variable ci : bool.

Lemma lit_eq s k pre suf caps :
  lit ci s k pre suf caps =
  if lit_prefix ci s suf
  then k (rev (firstn (length s) suf) ++ pre) (skipn (length s) suf) caps
  else None.
Proof.
  revert pre suf; induction s as [|x s IH]; intros pre suf; simpl; [reflexivity|].
  destruct suf as [|c rest]; [reflexivity|].
  destruct (char_match ci x c); simpl; [|reflexivity].
  rewrite IH. simpl. now rewrite <- app_assoc.
Qed.

Lemma lit_prefix_app s m rest :
  length m = length s -> lit_prefix ci s (m ++ rest) = lit_prefix ci s m.
Proof.
  revert m; induction s as [|x s IH]; intros [|c m] H; simpl in *; try discriminate; auto.
  now rewrite IH by lia.
Qed.

Lemma lit_prefix_length s suf :
  lit_prefix ci s suf = true -> (length s <= length suf)%nat.
Proof.
  revert suf; induction s as [|x s IH]; intros [|c suf]; simpl; try lia; try discriminate.
  intros H. apply andb_true_iff in H. destruct H as [_ H]. apply IH in H. lia.
Qed.

(** Greedy repetition: the longest run first. *)
Lemma star_greedy_max cl k pre m rest caps r :
  forallb (cls_match ci cl) m = true ->
  match rest with c :: _ => cls_match ci cl c = false | [] => True end ->
  k (rev m ++ pre) rest caps = Some r ->
  star_greedy ci cl k pre (m ++ rest) caps = Some r.
Proof.
  revert pre; induction m as [|c m IH]; intros pre Hm Hrest Hk; simpl in *.
  - destruct rest as [|c rest]; simpl; [exact Hk|]. now rewrite Hrest.
  - apply andb_true_iff in Hm. destruct Hm as [Hc Hm]. rewrite Hc.
    rewrite (IH (c :: pre)); auto. now rewrite <- app_assoc in Hk.
Qed.

Lemma star_greedy_inv cl k pre suf caps r :
  star_greedy ci cl k pre suf caps = Some r ->
  exists m rest, suf = m ++ rest /\ forallb (cls_match ci cl) m = true /\
                 k (rev m ++ pre) rest caps = Some r.
Proof.
  revert pre; induction suf as [|c suf IH]; intros pre H; simpl in H.
  - exists [], []. auto.
  - destruct (cls_match ci cl c) eqn:Hc.
    + destruct (star_greedy ci cl k (c :: pre) suf caps) eqn:E.
      * inversion H; subst. apply IH in E. destruct E as (m & rest & -> & Hm & Hk).
        exists (c :: m), rest. simpl. rewrite Hc, Hm, <- app_assoc. auto.
      * exists [], (c :: suf). auto.
    + exists [], (c :: suf). auto.
Qed.

Lemma star_greedy_none cl k pre suf caps :
  (forall m rest, suf = m ++ rest -> forallb (cls_match ci cl) m = true ->
                  k (rev m ++ pre) rest caps = None) ->
  star_greedy ci cl k pre suf caps = None.
Proof.
  revert pre; induction suf as [|c suf IH]; intros pre H; simpl.
  - apply (H [] []); auto.
  - pose proof (H [] (c :: suf) eq_refl eq_refl) as H0. simpl in H0.
    destruct (cls_match ci cl c) eqn:Hc; [|exact H0].
    rewrite IH; [exact H0|].
    intros m rest -> Hm. specialize (H (c :: m) rest eq_refl).
    simpl in H. rewrite Hc, Hm, <- app_assoc in H. auto.
Qed.

(** Lazy repetition: the shortest run first. *)
Lemma star_lazy_first cl k pre m rest caps r :
  forallb (cls_match ci cl) m = true ->
  (forall m1 m2, m = m1 ++ m2 -> m2 <> [] ->
                 k (rev m1 ++ pre) (m2 ++ rest) caps = None) ->
  k (rev m ++ pre) rest caps = Some r ->
  star_lazy ci cl k pre (m ++ rest) caps = Some r.
Proof.
  revert pre; induction m as [|c m IH]; intros pre Hm Hnone Hk; simpl in *.
  - destruct rest; simpl; now rewrite Hk.
  - apply andb_true_iff in Hm. destruct Hm as [Hc Hm].
    assert (H0 : k pre (c :: m ++ rest) caps = None).
    { apply (Hnone [] (c :: m) eq_refl). discriminate. }
    rewrite H0, Hc.
    apply IH; auto.
    + intros m1 m2 -> Hm2. specialize (Hnone (c :: m1) m2 eq_refl Hm2).
      simpl in Hnone. now rewrite <- app_assoc in Hnone.
    + now rewrite <- app_assoc in Hk.
Qed.

Lemma star_lazy_inv cl k pre suf caps r :
  star_lazy ci cl k pre suf caps = Some r ->
  exists m rest, suf = m ++ rest /\ forallb (cls_match ci cl) m = true /\
                 k (rev m ++ pre) rest caps = Some r.
Proof.
  revert pre; induction suf as [|c suf IH]; intros pre H; simpl in H.
  - destruct (k pre [] caps) eqn:E; [|discriminate].
    inversion H; subst. exists [], []. auto.
  - destruct (k pre (c :: suf) caps) eqn:E.
    + inversion H; subst. exists [], (c :: suf). auto.
    + destruct (cls_match ci cl c) eqn:Hc; [|discriminate].
      apply IH in H. destruct H as (m & rest & -> & Hm & Hk).
      exists (c :: m), rest. simpl. rewrite Hc, Hm, <- app_assoc. auto.
Qed.

Lemma star_lazy_none cl k pre suf caps :
  (forall m rest, suf = m ++ rest -> forallb (cls_match ci cl) m = true ->
                  k (rev m ++ pre) rest caps = None) ->
  star_lazy ci cl k pre suf caps = None.
Proof.
  revert pre; induction suf as [|c suf IH]; intros pre H; simpl.
  - pose proof (H [] [] eq_refl eq_refl) as H0. simpl in H0. now rewrite H0.
  - pose proof (H [] (c :: suf) eq_refl eq_refl) as H0. simpl in H0. rewrite H0.
    destruct (cls_match ci cl c) eqn:Hc; [|reflexivity].
    apply IH. intros m rest -> Hm. specialize (H (c :: m) rest eq_refl).
    simpl in H. rewrite Hc, Hm, <- app_assoc in H. auto.
Qed.

(** A pattern that finds no match leaves the string alone. *)
Lemma exec_from_none_here r pre suf :
  exec_from ci r pre suf = None -> match_here ci r pre suf = None.
Proof. destruct suf; simpl; destruct (match_here ci r pre _); congruence. Qed.

Lemma replace_scan_no_match St (fn : St -> match_result -> St * jsstring) r pre suf st :
  exec_from ci r pre suf = None ->
  replace_scan ci fn r 0 pre suf st = (st, suf).
Proof.
  revert pre; induction suf as [|c suf IH]; intros pre H.
  - simpl. now rewrite (exec_from_none_here _ _ _ H).
  - simpl. rewrite (exec_from_none_here _ _ _ H).
    simpl in H. destruct (match_here ci r pre (c :: suf)); [discriminate|].
    now rewrite IH.
Qed.

Lemma replace_no_match St (fn : St -> match_result -> St * jsstring) r s st :
  test ci r s = false -> replace ci fn r s st = (st, s).
Proof.
  unfold test, String_match, replace. intros H. apply replace_scan_no_match.
  destruct (exec_from ci r [] s); congruence.
Qed.

(** [exec] walks past the positions where the pattern fails and
    reports the first match. *)
Lemma exec_from_pass r p :
  forall pre s,
  (forall p1 p2, p = p1 ++ p2 -> p2 <> [] ->
                 match_here ci r (rev p1 ++ pre) (p2 ++ s) = None) ->
  exec_from ci r pre (p ++ s) = exec_from ci r (rev p ++ pre) s.
Proof.
  induction p as [|c p IH]; intros pre s H; [reflexivity|].
  cbn [app exec_from].
  assert (H0 : match_here ci r pre (c :: p ++ s) = None).
  { apply (H [] (c :: p) eq_refl). discriminate. }
  rewrite H0, IH.
  - cbn [rev]. now rewrite <- app_assoc.
  - intros p1 p2 -> Hp2. specialize (H (c :: p1) p2 eq_refl Hp2).
    cbn [rev] in H. now rewrite <- app_assoc in H.
Qed.

Lemma exec_from_nowhere r s :
  forall pre,
  (forall p1 p2, s = p1 ++ p2 -> match_here ci r (rev p1 ++ pre) p2 = None) ->
  exec_from ci r pre s = None.
Proof.
  induction s as [|c s IH]; intros pre H; cbn [exec_from].
  - pose proof (H [] [] eq_refl) as H0. cbn [rev app] in H0. now rewrite H0.
  - pose proof (H [] (c :: s) eq_refl) as H0. cbn [rev app] in H0. rewrite H0.
    apply IH.
    intros p1 p2 -> . specialize (H (c :: p1) p2 eq_refl).
    cbn [rev] in H. now rewrite <- app_assoc in H.
Qed.

Lemma exec_from_here r pre x s caps :
  match_here ci r pre (x ++ s) = Some (s, caps) ->
  exec_from ci r pre (x ++ s) = Some (MatchResult (length pre) x caps).
Proof.
  intros H. destruct (x ++ s) eqn:E; cbn [exec_from]; rewrite H;
    unfold report; rewrite <- E; now rewrite firstn_length_diff.
Qed.

(** A pattern that opens with a literal cannot start where the first
    code unit of the literal is not. *)
Lemma seq_lit_head x l r' pre suf :
  match suf with c :: _ => char_match ci x c = false | [] => True end ->
  match_here ci (Seq (Lit (x :: l)) r') pre suf = None.
Proof.
  intros H. unfold match_here. cbn [run lit].
  destruct suf as [|c rest]; [reflexivity|]. now rewrite H.
Qed.

Lemma exec_from_absent x l r' suf :
  forall pre,
  forallb (fun c => negb (char_match ci x c)) suf = true ->
  exec_from ci (Seq (Lit (x :: l)) r') pre suf = None.
Proof.
  induction suf as [|c suf IH]; intros pre H; cbn [exec_from].
  - now rewrite seq_lit_head.
  - cbn [forallb] in H. apply andb_true_iff in H. destruct H as [H1 H2].
    apply negb_true_iff in H1. rewrite seq_lit_head by exact H1. now apply IH.
Qed.

Lemma test_absent x l r' s :
  forallb (fun c => negb (char_match ci x c)) s = true ->
  test ci (Seq (Lit (x :: l)) r') s = false.
Proof.
  intros H. unfold test, String_match. now rewrite exec_from_absent.
Qed.

Lemma lit_prefix_refl_app s m rest :
  List.map (canonicalize ci) m = List.map (canonicalize ci) s ->
  lit_prefix ci s (m ++ rest) = true.
Proof.
  revert m; induction s as [|x s IH]; intros [|c m] H; simpl in *; try discriminate; auto.
  inversion H. unfold char_match. rewrite H1, N.eqb_refl. simpl. now apply IH.
Qed.

Lemma lit_step s m rest k pre caps :
  List.map (canonicalize ci) m = List.map (canonicalize ci) s ->
  lit ci s k pre (m ++ rest) caps = k (rev m ++ pre) rest caps.
Proof.
  intros H. rewrite lit_eq, lit_prefix_refl_app by exact H.
  assert (L : length s = length m).
  { rewrite <- (length_map (canonicalize ci) s), <- H. apply length_map. }
  now rewrite L, skipn_app_exact, firstn_app_exact.
Qed.

End Generic.

(** ** Patterns without [\b] do not look behind *)

Section Blind.
Variable ci : bool.

Lemma lit_blind s k1 k2 : blind k1 k2 -> blind (lit ci s k1) (lit ci s k2).
Proof.
  intros Hk. induction s as [|x s IH]; intros pre1 pre2 suf caps; simpl.
  - apply Hk.
  - destruct suf as [|c rest]; [reflexivity|]. destruct (char_match ci x c); auto.
Qed.

Lemma star_greedy_blind cl k1 k2 :
  blind k1 k2 -> blind (star_greedy ci cl k1) (star_greedy ci cl k2).
Proof.
  intros Hk pre1 pre2 suf; revert pre1 pre2.
  induction suf as [|c suf IH]; intros pre1 pre2 caps; simpl.
  - apply Hk.
  - rewrite (IH (c :: pre1) (c :: pre2)), (Hk pre1 pre2). reflexivity.
Qed.

Lemma star_lazy_blind cl k1 k2 :
  blind k1 k2 -> blind (star_lazy ci cl k1) (star_lazy ci cl k2).
Proof.
  intros Hk pre1 pre2 suf; revert pre1 pre2.
  induction suf as [|c suf IH]; intros pre1 pre2 caps; simpl.
  - now rewrite (Hk pre1 pre2).
  - rewrite (IH (c :: pre1) (c :: pre2)), (Hk pre1 pre2). reflexivity.
Qed.

Lemma run_blind r : no_lookbehind r = true ->
  forall k1 k2, blind k1 k2 -> blind (run ci r k1) (run ci r k2).
Proof.
  induction r; simpl; intros Hr k1 k2 Hk; try discriminate.
  - exact Hk.
  - now apply lit_blind.
  - intros pre1 pre2 suf caps. simpl. destruct suf as [|x rest]; [reflexivity|].
    destruct (cls_match ci c x); auto.
  - apply andb_true_iff in Hr. destruct Hr as [H1 H2].
    intros pre1 pre2 suf caps. simpl. apply IHr1; auto.
  - apply andb_true_iff in Hr. destruct Hr as [H1 H2].
    intros pre1 pre2 suf caps. simpl.
    rewrite (IHr1 H1 k1 k2 Hk pre1 pre2), (IHr2 H2 k1 k2 Hk pre1 pre2). reflexivity.
  - intros pre1 pre2 suf caps. simpl. destruct greedy.
    + now apply star_greedy_blind.
    + now apply star_lazy_blind.
  - intros pre1 pre2 suf caps. simpl. apply IHr; auto.
    intros p1 p2 s c. apply Hk.
  - intros pre1 pre2 suf caps. simpl. destruct (capture n caps); [|apply Hk].
    now apply lit_blind.
  - intros pre1 pre2 suf caps. simpl. destruct suf; auto.
Qed.

Lemma match_here_blind r pre1 pre2 suf :
  no_lookbehind r = true -> match_here ci r pre1 suf = match_here ci r pre2 suf.
Proof.
  intros Hr. unfold match_here. apply run_blind; auto.
  intros p1 p2 s c. reflexivity.
Qed.

End Blind.

(** ** The scan of [replace] *)

Section Scan.
Variable ci : bool.
Variable St : Type.
Variable fn : St -> match_result -> St * jsstring.
Variable r : regex.

Lemma replace_scan_skip x s pre st :
  replace_scan ci fn r (length x) pre (x ++ s) st
  = replace_scan ci fn r 0 (rev x ++ pre) s st.
Proof.
  revert pre; induction x as [|c x IH]; intros pre; simpl; [reflexivity|].
  rewrite IH, <- app_assoc. reflexivity.
Qed.

Lemma report_exact pre x s caps :
  report pre (x ++ s) (s, caps) = MatchResult (length pre) x caps.
Proof. unfold report. now rewrite firstn_length_diff. Qed.

Lemma replace_scan_match x s caps pre st :
  x <> [] ->
  match_here ci r pre (x ++ s) = Some (s, caps) ->
  replace_scan ci fn r 0 pre (x ++ s) st
  = let '(st1, rep) := fn st (MatchResult (length pre) x caps) in
    let '(st2, out) := replace_scan ci fn r 0 (rev x ++ pre) s st1 in
    (st2, rep ++ out).
Proof.
  intros Hx Hm. destruct x as [|c x]; [congruence|].
  cbn [app replace_scan]. change (c :: x ++ s) with ((c :: x) ++ s).
  rewrite Hm, report_exact. cbn [matched length].
  destruct (fn st _) as [st1 rep].
  rewrite replace_scan_skip. cbn [rev]. rewrite <- app_assoc. reflexivity.
Qed.

Lemma replace_scan_pass p s pre st :
  (forall p1 p2, p = p1 ++ p2 -> p2 <> [] ->
                 match_here ci r (rev p1 ++ pre) (p2 ++ s) = None) ->
  replace_scan ci fn r 0 pre (p ++ s) st
  = let '(st', out) := replace_scan ci fn r 0 (rev p ++ pre) s st in (st', p ++ out).
Proof.
  revert pre; induction p as [|c p IH]; intros pre H.
  - simpl. now destruct (replace_scan ci fn r 0 pre s st).
  - cbn [app replace_scan].
    assert (H0 : match_here ci r pre (c :: p ++ s) = None).
    { apply (H [] (c :: p) eq_refl). discriminate. }
    rewrite H0, IH.
    + cbn [rev]. rewrite <- app_assoc. cbn [app].
      now destruct (replace_scan ci fn r 0 (rev p ++ c :: pre) s st).
    + intros p1 p2 -> Hp2. specialize (H (c :: p1) p2 eq_refl Hp2).
      cbn [rev] in H. now rewrite <- app_assoc in H.
Qed.

(** A callback that hands every match back leaves the string alone. *)
Lemma replace_scan_identity suf :
  forall skip pre st,
  (forall m, In m (exec_scan ci r skip pre suf) -> forall st, fn st m = (st, matched m)) ->
  replace_scan ci fn r skip pre suf st = (st, skipn skip suf).
Proof.
  induction suf as [|c suf IH]; intros skip pre st H.
  - destruct skip; cbn [replace_scan exec_scan] in *; [|reflexivity].
    destruct (match_here ci r pre []) as [res|]; [|reflexivity].
    rewrite H by (left; reflexivity).
    unfold report. destruct res as [suf' caps]. cbn [matched]. now rewrite firstn_nil.
  - destruct skip as [|skip]; cbn [replace_scan exec_scan] in *.
    + destruct (match_here ci r pre (c :: suf)) as [res|].
      * rewrite H by (left; reflexivity).
        pose proof (firstn_own_length _ (length (c :: suf) - length (fst res)) (c :: suf)) as F.
        assert (M : matched (report pre (c :: suf) res)
                    = firstn (length (c :: suf) - length (fst res)) (c :: suf)).
        { destruct res; reflexivity. }
        rewrite <- M in F.
        destruct (length (matched (report pre (c :: suf) res))) as [|n] eqn:L.
        -- rewrite IH by (intros; apply H; right; assumption).
           rewrite <- F. reflexivity.
        -- rewrite IH by (intros; apply H; right; assumption).
           rewrite <- F. cbn [firstn skipn app]. now rewrite firstn_skipn.
      * rewrite IH by (intros; apply H; assumption). reflexivity.
    + apply IH. exact H.
Qed.

(** A callback that ignores the position of the match sees the same
    scan whatever precedes it. *)
Lemma replace_scan_blind suf skip pre1 pre2 st :
  no_lookbehind r = true ->
  (forall st i j x caps, fn st (MatchResult i x caps) = fn st (MatchResult j x caps)) ->
  replace_scan ci fn r skip pre1 suf st = replace_scan ci fn r skip pre2 suf st.
Proof.
  intros Hr Hfn. revert skip pre1 pre2 st.
  induction suf as [|c suf IH]; intros skip pre1 pre2 st.
  - destruct skip; [|reflexivity]. cbn [replace_scan].
    rewrite (match_here_blind ci r pre1 pre2 [] Hr).
    destruct (match_here ci r pre2 []) as [[suf' caps]|]; [|reflexivity].
    unfold report. apply Hfn.
  - destruct skip; cbn [replace_scan]; [|apply IH].
    rewrite (match_here_blind ci r pre1 pre2 (c :: suf) Hr).
    destruct (match_here ci r pre2 (c :: suf)) as [[suf' caps]|].
    + unfold report. cbn [matched].
      rewrite (Hfn st (length pre1) (length pre2)).
      destruct (fn st _) as [st1 rep].
      destruct (length (firstn _ _)); now rewrite (IH _ (c :: pre1) (c :: pre2)).
    + now rewrite (IH _ (c :: pre1) (c :: pre2)).
Qed.

End Scan.
End RegexFacts.

(* ------------------------------------------------------------------ *)
(** ** ContentProtector *)

Module ProtectorFacts.
Import ListFacts RegexFacts.

Lemma cls_match_plain p c : cls_match false (Cls false p) c = p c.
Proof. unfold cls_match; simpl. now rewrite orb_false_r. Qed.

Lemma forallb_plain p m :
  forallb (cls_match false (Cls false p)) m = forallb p m.
Proof. induction m as [|c m IH]; simpl; [|rewrite cls_match_plain, IH]; reflexivity. Qed.

(** Case-sensitive literals are plain prefixes. *)
Lemma lit_prefix_exact s suf :
  lit_prefix false s suf = true <-> exists rest, suf = s ++ rest.
Proof.
  revert suf; induction s as [|x s IH]; intros suf; simpl.
  - split; eauto.
  - destruct suf as [|c suf].
    + split; [discriminate|]. intros [rest H]. discriminate.
    + unfold char_match, canonicalize. split.
      * intros H. apply andb_true_iff in H. destruct H as [H1 H2].
        apply N.eqb_eq in H1. apply IH in H2. destruct H2 as [rest ->].
        exists rest. now subst.
      * intros [rest H]. inversion H; subst. rewrite N.eqb_refl. simpl.
        apply IH. eauto.
Qed.

(** *** What [re_placeholder] matches *)

Lemma placeholder_match_intro ds rest pre :
  ds <> [] -> forallb is_digit ds = true ->
  match_here false re_placeholder pre (str "[PROTECTED_" ++ ds ++ RBRACKET :: rest)
  = Some (rest, [(1%nat, ds)]).
Proof.
  intros Hne Hds. destruct ds as [|d ds]; [congruence|]. clear Hne.
  simpl in Hds. apply andb_true_iff in Hds. destruct Hds as [Hd Hds].
  unfold match_here, re_placeholder. cbn [sequence run].
  rewrite lit_eq.
  assert (P : lit_prefix false (str "[PROTECTED_")
                (str "[PROTECTED_" ++ (d :: ds) ++ RBRACKET :: rest) = true).
  { apply lit_prefix_exact. eauto. }
  rewrite P, skipn_app_exact, firstn_app_exact.
  cbn [app]. unfold Plus, digit. cbn [run]. rewrite cls_match_plain, Hd.
  erewrite star_greedy_max with (m := ds) (rest := RBRACKET :: rest).
  - reflexivity.
  - now rewrite forallb_plain.
  - reflexivity.
  - rewrite lit_eq. cbn -[Nat.sub length firstn].
    now rewrite firstn_length_diff_cons.
Qed.

Lemma placeholder_match_inv pre suf suf' caps :
  match_here false re_placeholder pre suf = Some (suf', caps) ->
  exists ds, ds <> [] /\ forallb is_digit ds = true /\
             suf = str "[PROTECTED_" ++ ds ++ RBRACKET :: suf' /\
             caps = [(1%nat, ds)].
Proof.
  unfold match_here, re_placeholder. cbn [sequence run].
  rewrite lit_eq.
  destruct (lit_prefix false (str "[PROTECTED_") suf) eqn:P; [|discriminate].
  apply lit_prefix_exact in P. destruct P as [rest0 ->].
  rewrite skipn_app_exact, firstn_app_exact.
  unfold Plus, digit. cbn [run].
  destruct rest0 as [|d rest1]; [discriminate|].
  rewrite cls_match_plain. destruct (is_digit d) eqn:Hd; [|discriminate].
  intros H. apply star_greedy_inv in H. destruct H as (m & rest & -> & Hm & Hk).
  rewrite forallb_plain in Hm.
  rewrite lit_eq in Hk.
  destruct (lit_prefix false (str "]") rest) eqn:P2; [|discriminate].
  apply lit_prefix_exact in P2. destruct P2 as [rest2 ->].
  cbn -[Nat.sub length firstn] in Hk.
  rewrite firstn_length_diff_cons in Hk. inversion Hk; subst.
  exists (d :: m). repeat split; try discriminate.
  simpl. now rewrite Hd, Hm.
Qed.

(** *** Decimal indices *)

Lemma digits_uint_digits u : digits_uint (uint_digits u) = u.
Proof. induction u; simpl; congruence. Qed.

Lemma uint_digits_all u : forallb is_digit (uint_digits u) = true.
Proof. induction u; simpl; auto. Qed.

Lemma to_uint_nonnil n : N.to_uint n <> Decimal.Nil.
Proof.
  destruct n; simpl; [discriminate|]. apply DecimalPos.Unsigned.to_uint_nonnil.
Qed.

Lemma number_toString_nonempty n : number_toString n <> [].
Proof.
  unfold number_toString. pose proof (to_uint_nonnil n) as H.
  destruct (N.to_uint n); simpl; congruence.
Qed.

Lemma number_toString_digits n : forallb is_digit (number_toString n) = true.
Proof. apply uint_digits_all. Qed.

Lemma parseInt_number_toString n : parseInt (number_toString n) = Some n.
Proof.
  unfold parseInt. pose proof (number_toString_nonempty n) as Hne.
  pose proof (number_toString_digits n) as Hd.
  destruct (number_toString n) as [|c s] eqn:E; [congruence|].
  simpl in Hd. apply andb_true_iff in Hd. destruct Hd as [Hc _]. rewrite Hc.
  rewrite <- E. unfold number_toString.
  now rewrite digits_uint_digits, DecimalN.Unsigned.of_to.
Qed.

Lemma array_get_nth (blocks : list jsstring) i :
  (i < length blocks)%nat -> array_get blocks (N.of_nat i) = Some (nth i blocks []).
Proof.
  intros H. unfold array_get.
  assert (E : (N.of_nat i <? N.of_nat (length blocks))%N = true) by (apply N.ltb_lt; lia).
  rewrite E, Nat2N.id. now apply nth_error_nth'.
Qed.

Lemma array_get_beyond (blocks : list jsstring) k :
  (N.of_nat (length blocks) <= k)%N -> array_get blocks k = None.
Proof.
  intros H. unfold array_get.
  assert (E : (k <? N.of_nat (length blocks))%N = false) by (apply N.ltb_ge; lia).
  now rewrite E.
Qed.

(** *** A match of [re_placeholder] never runs across a bracket *)

Lemma meet_bracket body s p X :
  Forall (fun x => x <> LBRACKET) body ->
  body ++ s = p ++ LBRACKET :: X ->
  exists p', p = body ++ p' /\ s = p' ++ LBRACKET :: X.
Proof.
  intros Hb. revert p. induction Hb as [|b body Hb _ IH]; intros p H; simpl in *.
  - eauto.
  - destruct p as [|c p]; simpl in H; inversion H; subst; [congruence|].
    destruct (IH _ H2) as (p' & -> & ->). eauto.
Qed.

Lemma digit_not_bracket ds :
  forallb is_digit ds = true -> Forall (fun x => x <> LBRACKET) ds.
Proof.
  induction ds as [|d ds IH]; simpl; intros H; constructor.
  - apply andb_true_iff in H. destruct H as [H _]. intros ->. discriminate.
  - apply IH. apply andb_true_iff in H. tauto.
Qed.

Lemma token_form ds rest :
  str "[PROTECTED_" ++ ds ++ RBRACKET :: rest = LBRACKET :: token_tail ds ++ rest.
Proof. unfold token_tail. cbn [app str]. now rewrite <- !app_assoc. Qed.

Lemma token_tail_no_bracket ds :
  forallb is_digit ds = true ->
  Forall (fun x => x <> LBRACKET) (token_tail ds).
Proof.
  intros H. unfold token_tail. apply Forall_app. split.
  - repeat constructor; discriminate.
  - apply Forall_app. split; [now apply digit_not_bracket|].
    repeat constructor; discriminate.
Qed.

Section Restore.
Variable blocks : list jsstring.

Local Abbreviation scanR := (scan_restore blocks).
Local Abbreviation replacement := (replacement_of blocks).

Lemma scanR_pair skip pre suf :
  replace_scan false (restore_one blocks) re_placeholder skip pre suf tt
  = (tt, scanR skip pre suf).
Proof.
  unfold scan_restore.
  destruct (replace_scan false (restore_one blocks) re_placeholder skip pre suf tt)
    as [[] out]. reflexivity.
Qed.

Lemma placeholder_no_empty_match pre : match_here false re_placeholder pre [] = None.
Proof.
  destruct (match_here false re_placeholder pre []) as [[suf' caps]|] eqn:M; [|reflexivity].
  apply placeholder_match_inv in M. destruct M as (ds & _ & _ & H & _). discriminate.
Qed.

Lemma scanR_nil skip pre : scanR skip pre [] = [].
Proof.
  unfold scan_restore. destruct skip; cbn [replace_scan]; [|reflexivity].
  now rewrite placeholder_no_empty_match.
Qed.

Lemma scanR_skip skip pre c suf :
  scanR (S skip) pre (c :: suf) = scanR skip (c :: pre) suf.
Proof. reflexivity. Qed.

Lemma scanR_no_match pre c suf :
  match_here false re_placeholder pre (c :: suf) = None ->
  scanR 0 pre (c :: suf) = c :: scanR 0 (c :: pre) suf.
Proof.
  intros M. unfold scan_restore at 1. cbn [replace_scan]. rewrite M.
  now rewrite scanR_pair.
Qed.

Lemma scanR_token pre ds rest :
  ds <> [] -> forallb is_digit ds = true ->
  scanR 0 pre (str "[PROTECTED_" ++ ds ++ RBRACKET :: rest)
  = replacement ds ++ scanR (length (token_tail ds)) (LBRACKET :: pre) (token_tail ds ++ rest).
Proof.
  intros Hne Hds. unfold scan_restore at 1.
  pose proof (placeholder_match_intro ds rest pre Hne Hds) as M.
  rewrite token_form in *. cbn [replace_scan]. rewrite M.
  change (LBRACKET :: token_tail ds ++ rest) with ((LBRACKET :: token_tail ds) ++ rest).
  rewrite report_exact. cbn [matched length restore_one group groups capture Nat.eqb].
  now rewrite scanR_pair.
Qed.

(** Scanning up to a bracket: what lies before it is rewritten as if it
    stood alone. *)
Lemma scanR_split p X :
  forall pre skip, (skip <= length p)%nat ->
  scanR skip pre (p ++ LBRACKET :: X)
  = scanR skip pre p ++ scanR 0 (rev p ++ pre) (LBRACKET :: X).
Proof.
  induction p as [|c p IH]; intros pre skip Hskip.
  - simpl in Hskip. replace skip with 0%nat by lia.
    now rewrite scanR_nil.
  - cbn [app]. destruct skip as [|skip].
    + destruct (match_here false re_placeholder pre (c :: p ++ LBRACKET :: X))
        as [[suf' caps]|] eqn:M.
      * destruct (placeholder_match_inv _ _ _ _ M) as (ds & Hne & Hds & E & ->).
        rewrite token_form in E. injection E as -> E'. symmetry in E'.
        destruct (meet_bracket _ _ _ _ (token_tail_no_bracket ds Hds) E')
          as (p' & -> & ->).
        rewrite <- !token_form, <- app_assoc, <- !token_form.
        rewrite !scanR_token by assumption.
        rewrite <- app_assoc. f_equal.
        rewrite app_assoc, IH by (rewrite length_app; lia).
        f_equal. f_equal. rewrite token_form. cbn [rev]. now rewrite <- app_assoc.
      * assert (M' : match_here false re_placeholder pre (c :: p) = None).
        { destruct (match_here false re_placeholder pre (c :: p))
            as [[suf' caps]|] eqn:M'; [|reflexivity].
          destruct (placeholder_match_inv _ _ _ _ M') as (ds & Hne & Hds & E & ->).
          change (c :: p ++ LBRACKET :: X) with ((c :: p) ++ LBRACKET :: X) in M.
          rewrite E in M. rewrite <- !app_assoc in M. cbn [app] in M.
          rewrite placeholder_match_intro in M by assumption. discriminate. }
        rewrite !scanR_no_match by assumption.
        rewrite IH by (simpl in Hskip; lia).
        cbn [rev app]. now rewrite <- app_assoc.
    + rewrite !scanR_skip. rewrite IH by (simpl in Hskip; lia).
      cbn [rev]. now rewrite <- app_assoc.
Qed.

Lemma scanR_blind skip pre1 pre2 suf : scanR skip pre1 suf = scanR skip pre2 suf.
Proof.
  unfold scan_restore. f_equal. apply replace_scan_blind; reflexivity.
Qed.

Lemma scanR_skip_all x pre suf :
  scanR (length x) pre (x ++ suf) = scanR 0 (rev x ++ pre) suf.
Proof. unfold scan_restore. now rewrite replace_scan_skip. Qed.

Lemma restore_placeholders_scan text :
  restore_placeholders text blocks = scanR 0 [] text.
Proof. reflexivity. Qed.

(** A token in the text is rewritten on its own. *)
Lemma restore_placeholders_token pre ds post :
  ds <> [] -> forallb is_digit ds = true ->
  restore_placeholders (pre ++ str "[PROTECTED_" ++ ds ++ RBRACKET :: post) blocks
  = restore_placeholders pre blocks ++ replacement ds
    ++ restore_placeholders post blocks.
Proof.
  intros Hne Hds. rewrite !restore_placeholders_scan.
  rewrite token_form, scanR_split by lia. f_equal.
  rewrite <- token_form, scanR_token by assumption. f_equal.
  rewrite scanR_skip_all. apply scanR_blind.
Qed.

End Restore.

(** *** The safety net in closed form *)

Lemma fold_append_missing text blocks l acc :
  fold_left (append_missing text blocks) l acc = acc ++ appended text blocks l.
Proof.
  revert acc; induction l as [|i l IH]; intros acc; unfold appended in *; simpl.
  - now rewrite app_nil_r.
  - rewrite IH. unfold append_missing, missing.
    destruct (includes text (placeholder i)); simpl; [reflexivity|].
    now rewrite <- !app_assoc.
Qed.

Lemma restoreProtectedBlocks_eq text blocks :
  restoreProtectedBlocks text blocks
  = restore_placeholders text blocks
    ++ appended text blocks (seq 0 (length blocks)).
Proof. apply fold_append_missing. Qed.

Lemma includes_split s p :
  includes s p = true -> exists pre post, s = pre ++ p ++ post.
Proof.
  assert (SW : forall s p, startsWith s p = true -> exists post, s = p ++ post).
  { clear. intros s p; revert s; induction p as [|x p IH]; intros s H; simpl in *.
    - eauto.
    - destruct s as [|y s]; [discriminate|].
      apply andb_true_iff in H. destruct H as [H1 H2]. apply N.eqb_eq in H1.
      destruct (IH _ H2) as [post ->]. subst. eauto. }
  induction s as [|c s IH]; cbn [includes]; intros H.
  - rewrite orb_false_r in H. apply SW in H. destruct H as [post H].
    exists [], post. exact H.
  - apply orb_true_iff in H. destruct H as [H|H].
    + apply SW in H. destruct H as [post H]. exists [], post. exact H.
    + destruct (IH H) as (pre & post & ->). exists (c :: pre), post. reflexivity.
Qed.

Lemma placeholder_shape i :
  placeholder i = str "[PROTECTED_" ++ number_toString (N.of_nat i) ++ [RBRACKET].
Proof. reflexivity. Qed.

End ProtectorFacts.

(** C10.  A placeholder-shaped token whose index is outside the block
    list is deleted: the text before and after it is rewritten as if it
    stood alone and nothing stands in for the token. *)
Theorem restore_deletes_out_of_range
  (blocks : list jsstring) (pre ds post : jsstring) (k : N) :
  forallb is_digit ds = true ->
  parseInt ds = Some k ->
  (N.of_nat (length blocks) <= k)%N ->
  let text := pre ++ str "[PROTECTED_" ++ ds ++ str "]" ++ post in
  restore_placeholders text blocks
  = restore_placeholders pre blocks ++ restore_placeholders post blocks /\
  restoreProtectedBlocks text blocks
  = restore_placeholders pre blocks ++ restore_placeholders post blocks
    ++ appended text blocks (seq 0 (length blocks)).
Proof.
  intros Hds Hk Hout text.
  assert (Hne : ds <> []) by (intros ->; discriminate).
  assert (E : restore_placeholders text blocks
              = restore_placeholders pre blocks ++ restore_placeholders post blocks).
  { unfold text. change (str "]" ++ post) with (RBRACKET :: post).
    rewrite ProtectorFacts.restore_placeholders_token by assumption.
    unfold replacement_of.
    now rewrite Hk, ProtectorFacts.array_get_beyond. }
  split; [exact E|].
  now rewrite ProtectorFacts.restoreProtectedBlocks_eq, E, <- app_assoc.
Qed.

Lemma restore_deletes_out_of_range_witness :
  restore_placeholders (str "x " ++ str "[PROTECTED_" ++ str "5" ++ str "]" ++ str " y")
                       [str "A"]
  = restore_placeholders (str "x ") [str "A"] ++ restore_placeholders (str " y") [str "A"] /\
  restoreProtectedBlocks (str "x " ++ str "[PROTECTED_" ++ str "5" ++ str "]" ++ str " y")
                         [str "A"]
  = restore_placeholders (str "x ") [str "A"] ++ restore_placeholders (str " y") [str "A"]
    ++ appended (str "x " ++ str "[PROTECTED_" ++ str "5" ++ str "]" ++ str " y")
                [str "A"] (seq 0 (length [str "A"])).
Proof.
  apply (restore_deletes_out_of_range [str "A"] (str "x ") (str "5") (str " y") 5%N).
  - reflexivity.
  - reflexivity.
  - vm_compute. discriminate.
Defined.

(** C4.  A stored block whose placeholder does not occur in the text is
    appended, after a line feed, behind the rewritten text and the
    blocks appended before it; and whether its placeholder occurs or
    not, the content of every stored block occurs in the result. *)
Theorem restore_never_loses (text : jsstring) (blocks : list jsstring) (i : nat) :
  (i < length blocks)%nat ->
  restoreProtectedBlocks text blocks
  = restore_placeholders text blocks
    ++ appended text blocks (seq 0 i)
    ++ (if includes text (placeholder i) then [] else [LF] ++ nth i blocks [])
    ++ appended text blocks (seq (S i) (length blocks - S i)) /\
  (exists l r, restoreProtectedBlocks text blocks = l ++ nth i blocks [] ++ r).
Proof.
  intros Hi.
  assert (A : restoreProtectedBlocks text blocks
              = restore_placeholders text blocks
                ++ appended text blocks (seq 0 i)
                ++ (if includes text (placeholder i) then [] else [LF] ++ nth i blocks [])
                ++ appended text blocks (seq (S i) (length blocks - S i))).
  { rewrite ProtectorFacts.restoreProtectedBlocks_eq. f_equal.
    replace (length blocks) with (i + S (length blocks - S i))%nat at 1 by lia.
    rewrite seq_app. cbn [seq]. unfold appended.
    rewrite filter_app, map_app, concat_app. f_equal.
    cbn [filter Nat.add]. unfold missing at 1.
    destruct (includes text (placeholder i)); reflexivity. }
  split; [exact A|].
  destruct (includes text (placeholder i)) eqn:Hin.
  - destruct (ProtectorFacts.includes_split _ _ Hin) as (pre & post & E).
    assert (R : restore_placeholders text blocks
                = restore_placeholders pre blocks ++ nth i blocks []
                  ++ restore_placeholders post blocks).
    { rewrite E, ProtectorFacts.placeholder_shape.
      rewrite <- (app_assoc (str "[PROTECTED_")), <- app_assoc. cbn [app].
      change (93%N :: post) with (RBRACKET :: post).
      rewrite ProtectorFacts.restore_placeholders_token
        by auto using ProtectorFacts.number_toString_nonempty,
                      ProtectorFacts.number_toString_digits.
      unfold replacement_of.
      rewrite ProtectorFacts.parseInt_number_toString,
              ProtectorFacts.array_get_nth by assumption.
      reflexivity. }
    rewrite ProtectorFacts.restoreProtectedBlocks_eq, R.
    exists (restore_placeholders pre blocks),
           (restore_placeholders post blocks
            ++ appended text blocks (seq 0 (length blocks))).
    now rewrite <- !app_assoc.
  - rewrite A.
    exists (restore_placeholders text blocks ++ appended text blocks (seq 0 i) ++ [LF]),
           (appended text blocks (seq (S i) (length blocks - S i))).
    now rewrite <- !app_assoc.
Qed.

Lemma restore_never_loses_witness :
  restoreProtectedBlocks (str "kept [PROTECTED_0]") [str "<a>"; str "<b>"]
  = restore_placeholders (str "kept [PROTECTED_0]") [str "<a>"; str "<b>"]
    ++ appended (str "kept [PROTECTED_0]") [str "<a>"; str "<b>"] (seq 0 1)
    ++ (if includes (str "kept [PROTECTED_0]") (placeholder 1)
        then [] else [LF] ++ nth 1 [str "<a>"; str "<b>"] [])
    ++ appended (str "kept [PROTECTED_0]") [str "<a>"; str "<b>"]
                (seq 2 (length [str "<a>"; str "<b>"] - 2)) /\
  (exists l r, restoreProtectedBlocks (str "kept [PROTECTED_0]") [str "<a>"; str "<b>"]
               = l ++ nth 1 [str "<a>"; str "<b>"] [] ++ r).
Proof.
  apply (restore_never_loses (str "kept [PROTECTED_0]") [str "<a>"; str "<b>"] 1).
  simpl. lia.
Defined.

Lemma strip_without_markup (t : jsstring) :
  no_protectable_markup t ->
  stripProtectedBlocks t = {| stripped := t; blocks := [] |}.
Proof.
  intros (H1 & H2 & H3). unfold stripProtectedBlocks.
  unfold strip_fences. rewrite (RegexFacts.replace_no_match _ _ _ _ _ _ H1).
  unfold strip_markup. rewrite (RegexFacts.replace_no_match _ _ _ _ _ _ H2).
  unfold strip_brackets, replace.
  rewrite RegexFacts.replace_scan_identity; [reflexivity|].
  intros m Hm st. unfold protect_bracket.
  rewrite forallb_forall in H3. now rewrite (H3 m Hm).
Qed.

(** C2, as amended.  A text without protectable markup and without
    any placeholder-shaped token is returned unchanged by
    [stripProtectedBlocks], with an empty block list, and restoring
    gives it back. *)
Theorem strip_restore_without_markup (t : jsstring) :
  no_protectable_markup t ->
  placeholder_free t ->
  stripProtectedBlocks t = {| stripped := t; blocks := [] |} /\
  restoreProtectedBlocks (stripped (stripProtectedBlocks t))
                         (blocks (stripProtectedBlocks t)) = t.
Proof.
  intros H Hp. pose proof (strip_without_markup t H) as E. split; [exact E|].
  rewrite E. cbn [stripped blocks].
  unfold restoreProtectedBlocks, restore_placeholders. cbn [length seq fold_left].
  now rewrite (RegexFacts.replace_no_match _ _ _ _ _ _ Hp).
Qed.

Lemma strip_restore_without_markup_witness :
  stripProtectedBlocks (str "He said [CHANGELOG]x[/CHANGELOG] twice.")
  = {| stripped := str "He said [CHANGELOG]x[/CHANGELOG] twice."; blocks := [] |} /\
  restoreProtectedBlocks
    (stripped (stripProtectedBlocks (str "He said [CHANGELOG]x[/CHANGELOG] twice.")))
    (blocks (stripProtectedBlocks (str "He said [CHANGELOG]x[/CHANGELOG] twice.")))
  = str "He said [CHANGELOG]x[/CHANGELOG] twice.".
Proof.
  apply (strip_restore_without_markup (str "He said [CHANGELOG]x[/CHANGELOG] twice.")).
  - repeat split; vm_compute; reflexivity.
  - vm_compute. reflexivity.
Defined.

(** C2 fails as stated: a placeholder-shaped token is no protectable
    markup, and restoring against the empty block list deletes it. *)
Lemma strip_restore_counterexample :
  no_protectable_markup (str "[PROTECTED_0]") /\
  stripProtectedBlocks (str "[PROTECTED_0]")
  = {| stripped := str "[PROTECTED_0]"; blocks := [] |} /\
  restoreProtectedBlocks (stripped (stripProtectedBlocks (str "[PROTECTED_0]")))
                         (blocks (stripProtectedBlocks (str "[PROTECTED_0]")))
  = [] /\
  restoreProtectedBlocks (stripped (stripProtectedBlocks (str "[PROTECTED_0]")))
                         (blocks (stripProtectedBlocks (str "[PROTECTED_0]")))
  <> str "[PROTECTED_0]".
Proof.
  repeat split; try (vm_compute; reflexivity). vm_compute. discriminate.
Qed.

Module BracketFacts.
Import ListFacts RegexFacts.


End BracketFacts.



Module CaseFacts.
Import ListFacts RegexFacts.

Ltac chars :=
  unfold char_match, canonicalize, cls_match, is_tag_char, to_upper, to_lower,
         is_upper, is_lower, is_digit, between in *;
  cbn [negated member xorb andb orb] in *;
  repeat match goal with
         | |- context [(?a <=? ?b)%N] => destruct (N.leb_spec a b)
         | |- context [(?a =? ?b)%N] => destruct (N.eqb_spec a b)
         | H : context [(?a <=? ?b)%N] |- _ => destruct (N.leb_spec a b)
         | H : context [(?a =? ?b)%N] |- _ => destruct (N.eqb_spec a b)
         end;
  cbn [negated member xorb andb orb negb] in *;
  try reflexivity; try discriminate; try lia.

(** [[A-Z_]] under the [i] flag. *)
Lemma tag_class c :
  cls_match true (Cls false (fun c => is_upper c || (c =? 95)%N)) c = is_tag_char c.
Proof. chars. Qed.

Lemma forallb_tag_class tag :
  forallb (cls_match true (Cls false (fun c => is_upper c || (c =? 95)%N))) tag
  = forallb is_tag_char tag.
Proof. induction tag as [|c tag IH]; simpl; [|rewrite tag_class, IH]; reflexivity. Qed.

Lemma any_class ci c : cls_match ci space_or_not c = true.
Proof.
  unfold cls_match, space_or_not. cbn [negated member xorb].
  destruct (is_space c); reflexivity.
Qed.

Lemma forallb_any ci m : forallb (cls_match ci space_or_not) m = true.
Proof. induction m; simpl; [|rewrite any_class]; auto. Qed.

Lemma bracket_block_app tag body tag' rest :
  bracket_block tag body tag' ++ rest
  = str "[" ++ tag ++ str "]" ++ body ++ str "[/" ++ tag' ++ str "]" ++ rest.
Proof. unfold bracket_block. now rewrite <- !app_assoc. Qed.

Lemma bracket_block_nonempty tag body tag' : bracket_block tag body tag' <> [].
Proof. discriminate. Qed.

End CaseFacts.

Module OnlyBlockFacts.
Import ListFacts RegexFacts.

Section Scan.
Variable ci : bool.
Variable r : regex.

Lemma report_index pre suf res : index (report pre suf res) = length pre.
Proof. unfold report. now destruct res. Qed.

(** The scan reports no match before the position it starts from. *)
Lemma exec_scan_index suf : forall skip pre m,
  In m (exec_scan ci r skip pre suf) -> (length pre <= index m)%nat.
Proof.
  induction suf as [|c suf IH]; intros skip pre m H; cbn [exec_scan] in H.
  - destruct skip; [|destruct H].
    destruct (match_here ci r pre []); [|destruct H].
    destruct H as [<-|[]]. rewrite report_index. lia.
  - destruct skip as [|n].
    + destruct (match_here ci r pre (c :: suf)).
      * destruct H as [<-|H]; [rewrite report_index; lia|].
        apply IH in H. simpl in H. lia.
      * apply IH in H. simpl in H. lia.
    + apply IH in H. simpl in H. lia.
Qed.

(** Where every match of the scan lies behind [p], no attempt inside
    [p] succeeds, and the scan goes on behind [p]. *)
Lemma exec_scan_behind p s : forall pre,
  (forall m, In m (exec_scan ci r 0 pre (p ++ s)) ->
             (length pre + length p <= index m)%nat) ->
  (forall p1 p2, p = p1 ++ p2 -> p2 <> [] ->
                 match_here ci r (rev p1 ++ pre) (p2 ++ s) = None) /\
  exec_scan ci r 0 pre (p ++ s) = exec_scan ci r 0 (rev p ++ pre) s.
Proof.
  induction p as [|c p IH]; intros pre H.
  - split; [|reflexivity]. intros p1 p2 E Hp2.
    destruct p1; [simpl in E; congruence|discriminate].
  - cbn [app exec_scan] in H.
    destruct (match_here ci r pre (c :: p ++ s)) as [res|] eqn:E0.
    + specialize (H _ (or_introl eq_refl)). rewrite report_index in H.
      simpl in H. lia.
    + destruct (IH (c :: pre)) as [IH1 IH2].
      { intros m Hm. specialize (H m Hm). simpl in *. lia. }
      split.
      * intros p1 p2 E Hp2. destruct p1 as [|c1 p1].
        -- simpl in E. subst p2. exact E0.
        -- inversion E; subst. cbn [rev]. rewrite <- app_assoc. now apply IH1.
      * cbn [app exec_scan]. rewrite E0, IH2. cbn [rev]. now rewrite <- app_assoc.
Qed.

Lemma exec_scan_jump x s : forall pre,
  exec_scan ci r (length x) pre (x ++ s) = exec_scan ci r 0 (rev x ++ pre) s.
Proof.
  induction x as [|c x IH]; intros pre; [reflexivity|].
  cbn [length app exec_scan]. rewrite IH. cbn [rev]. now rewrite <- app_assoc.
Qed.

(** The scan at a match. *)
Lemma exec_scan_match x s caps pre :
  x <> [] ->
  match_here ci r pre (x ++ s) = Some (s, caps) ->
  exec_scan ci r 0 pre (x ++ s)
  = MatchResult (length pre) x caps :: exec_scan ci r 0 (rev x ++ pre) s.
Proof.
  intros Hx Hm. destruct x as [|c x]; [congruence|].
  cbn [app exec_scan]. change (c :: x ++ s) with ((c :: x) ++ s).
  rewrite Hm, report_exact. cbn [matched length pred].
  rewrite exec_scan_jump. cbn [rev]. now rewrite <- app_assoc.
Qed.

(** A scan that finds nothing: no match at or behind the position. *)
Lemma exec_scan_nothing suf : forall pre,
  exec_scan ci r 0 pre suf = [] -> exec_from ci r pre suf = None.
Proof.
  induction suf as [|c suf IH]; intros pre H; cbn [exec_scan exec_from] in *.
  - destruct (match_here ci r pre []); [discriminate|reflexivity].
  - destruct (match_here ci r pre (c :: suf)); [discriminate|]. now apply IH.
Qed.

Lemma lit_cat a b k pre suf caps :
  lit ci (a ++ b) k pre suf caps = lit ci a (lit ci b k) pre suf caps.
Proof.
  revert pre suf; induction a as [|x a IH]; intros pre suf; [reflexivity|].
  cbn [app lit]. destruct suf as [|c rest]; [reflexivity|].
  destruct (char_match ci x c); [apply IH|reflexivity].
Qed.

Lemma lit_prefix_cat a b suf :
  lit_prefix ci (a ++ b) suf
  = lit_prefix ci a suf && lit_prefix ci b (skipn (length a) suf).
Proof.
  revert suf; induction a as [|x a IH]; intros [|c suf]; simpl; auto.
  now rewrite IH, andb_assoc.
Qed.

Lemma lit_prefix_within s a rest :
  (length s <= length a)%nat -> lit_prefix ci s (a ++ rest) = lit_prefix ci s a.
Proof.
  revert a; induction s as [|x s IH]; intros [|c a] H; simpl in *; try lia; auto.
  now rewrite IH by lia.
Qed.

(** Before its first occurrence a literal does not occur. *)
Lemma first_index_least l s n :
  first_index ci l s = Some n ->
  forall m1 m2, s = m1 ++ m2 -> (length m1 < n)%nat -> lit_prefix ci l m2 = false.
Proof.
  revert n; induction s as [|c s IH]; intros n H m1 m2 E Hlt.
  - cbn [first_index] in H. destruct (lit_prefix ci l []); [|discriminate].
    inversion H; subst. lia.
  - cbn [first_index] in H. destruct (lit_prefix ci l (c :: s)) eqn:E0.
    + inversion H; subst. lia.
    + destruct (first_index ci l s) as [n'|] eqn:E1; [|discriminate].
      inversion H; subst. destruct m1 as [|c1 m1].
      * simpl in E. now subst m2.
      * inversion E; subst. apply (IH n' eq_refl m1 m2 eq_refl). simpl in Hlt. lia.
Qed.

End Scan.

(** A closed block with a letters-and-underscores tag is one match of
    [re_bracket] when its closing tag is the first one behind the
    opening tag. *)
Lemma bracket_match_lazy pre tag tag' body rest :
  tag <> [] -> forallb is_tag_char tag = true ->
  ascii_upper tag' = ascii_upper tag ->
  first_index true (closing_tag tag) (body ++ closing_tag tag') = Some (length body) ->
  match_here true re_bracket pre
    (str "[" ++ tag ++ str "]" ++ body ++ str "[/" ++ tag' ++ str "]" ++ rest)
  = Some (rest, [(1%nat, tag)]).
Proof.
  intros Hne Htag Hclose Hfirst.
  assert (Hlen : length tag' = length tag).
  { unfold ascii_upper in Hclose.
    rewrite <- (length_map to_upper tag'), Hclose. apply length_map. }
  destruct tag as [|t tag]; [congruence|]. clear Hne.
  cbn [forallb] in Htag. apply andb_true_iff in Htag. destruct Htag as [Ht Htag].
  unfold match_here, re_bracket. cbn [sequence run].
  rewrite lit_step by reflexivity.
  unfold Plus. cbn [run app]. rewrite CaseFacts.tag_class, Ht.
  erewrite star_greedy_max with (m := tag); [reflexivity| | |].
  - now rewrite CaseFacts.forallb_tag_class.
  - reflexivity.
  - rewrite firstn_length_diff_cons.
    rewrite lit_step by reflexivity.
    erewrite star_lazy_first with (m := body); [reflexivity| | |].
    + apply CaseFacts.forallb_any.
    + intros m1 m2 -> Hm2.
      set (suf := m2 ++ str "[/" ++ tag' ++ str "]" ++ rest).
      assert (Hno : lit_prefix true (closing_tag (t :: tag)) suf = false).
      { unfold suf.
        change (m2 ++ str "[/" ++ tag' ++ str "]" ++ rest)
          with (m2 ++ str "[/" ++ (tag' ++ (str "]" ++ rest))).
        replace (m2 ++ str "[/" ++ (tag' ++ (str "]" ++ rest)))
          with ((m2 ++ closing_tag tag') ++ rest)
          by (unfold closing_tag; now rewrite <- !app_assoc).
        rewrite lit_prefix_within.
        - apply (first_index_least _ _ _ _ Hfirst m1 (m2 ++ closing_tag tag')).
          + now rewrite <- app_assoc.
          + rewrite length_app. destruct m2; [congruence|]. simpl. lia.
        - unfold closing_tag. rewrite !length_app. simpl length. simpl in Hlen. lia. }
      unfold closing_tag in Hno. rewrite !lit_prefix_cat in Hno.
      rewrite lit_eq.
      destruct (lit_prefix true (str "[/") suf); [|reflexivity].
      cbn [capture Nat.eqb]. rewrite lit_eq.
      destruct (lit_prefix true (t :: tag) (skipn (length (str "[/")) suf));
        [|reflexivity].
      rewrite lit_eq.
      destruct (lit_prefix true (str "]")
                  (skipn (length (t :: tag)) (skipn (length (str "[/")) suf)));
        [discriminate Hno|reflexivity].
    + rewrite lit_step by reflexivity.
      cbn [capture Nat.eqb].
      rewrite lit_step by exact Hclose.
      rewrite lit_step by reflexivity.
      reflexivity.
Qed.

Lemma not_own_tag tag :
  ascii_upper tag <> str "CHANGELOG" ->
  startsWith (ascii_upper tag) (str "PROTECTED") = false ->
  own_tag tag = false.
Proof.
  intros H1 H2. unfold own_tag. rewrite H2, orb_false_r.
  destruct (JS.eqb (ascii_upper tag) (str "CHANGELOG")) eqn:E; [|reflexivity].
  apply DiffFacts.eqb_eq in E. contradiction.
Qed.

End OnlyBlockFacts.

(** C9, as amended.  The third pass matches bracket tags in either
    case: a closed block whose tag is made of letters and underscores,
    is not CHANGELOG and does not begin with PROTECTED (in whatever
    case), and is closed by the first closing tag of the same name up to
    case, in a text that holds no other protectable markup (no code
    fence, no protected element and no other bracket block), is replaced
    by the placeholder and becomes the one stored block. *)
Theorem bracket_pass_ignores_case (pre tag body tag' post : jsstring) :
  let text := pre ++ bracket_block tag body tag' ++ post in
  tag <> [] ->
  forallb is_tag_char tag = true ->
  ascii_upper tag' = ascii_upper tag ->
  ascii_upper tag <> str "CHANGELOG" ->
  startsWith (ascii_upper tag) (str "PROTECTED") = false ->
  first_index true (closing_tag tag) (body ++ closing_tag tag') = Some (length body) ->
  test false re_fence text = false ->
  test true re_block text = false ->
  only_bracket_block_at (length pre) text = true ->
  stripProtectedBlocks text
  = {| stripped := pre ++ placeholder 0 ++ post;
       blocks := [bracket_block tag body tag'] |}.
Proof.
  intros text Hne Htag Hclose Hlog Hprot Hfirst Hfence Helem Honly.
  pose proof (OnlyBlockFacts.not_own_tag _ Hlog Hprot) as Hown.
  set (block := bracket_block tag body tag') in *.
  assert (Hblock : forall p,
            match_here true re_bracket p (block ++ post) = Some (post, [(1%nat, tag)])).
  { intros p. unfold block. rewrite CaseFacts.bracket_block_app.
    now apply OnlyBlockFacts.bracket_match_lazy. }
  unfold only_bracket_block_at, exec_all in Honly. rewrite forallb_forall in Honly.
  destruct (OnlyBlockFacts.exec_scan_behind true re_bracket pre (block ++ post) [])
    as [Hpre Hscan].
  { intros m Hm. specialize (Honly m Hm). apply Nat.eqb_eq in Honly. simpl. lia. }
  fold text in Hscan. rewrite Hscan in Honly.
  rewrite (OnlyBlockFacts.exec_scan_match true re_bracket block post [(1%nat, tag)]) in Honly.
  2:{ apply CaseFacts.bracket_block_nonempty. }
  2:{ apply Hblock. }
  assert (Hpost : exec_from true re_bracket (rev block ++ rev pre ++ []) post = None).
  { apply OnlyBlockFacts.exec_scan_nothing.
    destruct (exec_scan true re_bracket 0 (rev block ++ rev pre ++ []) post)
      as [|m ms] eqn:E; [reflexivity|exfalso].
    assert (Hin : In m (exec_scan true re_bracket 0 (rev block ++ rev pre ++ []) post)).
    { rewrite E. now left. }
    pose proof (OnlyBlockFacts.exec_scan_index true re_bracket _ _ _ _ Hin) as Hge.
    specialize (Honly m (or_intror (or_introl eq_refl))). apply Nat.eqb_eq in Honly.
    rewrite !length_app, !length_rev in Hge. unfold block, bracket_block in Hge.
    rewrite !length_app in Hge. simpl in Hge. lia. }
  unfold stripProtectedBlocks, strip_fences.
  rewrite (RegexFacts.replace_no_match false _ protect re_fence text [] Hfence).
  unfold strip_markup.
  rewrite (RegexFacts.replace_no_match true _ protect re_block text [] Helem).
  unfold strip_brackets, replace, text.
  rewrite (RegexFacts.replace_scan_pass true _ protect_bracket re_bracket pre
             (block ++ post) [] [] Hpre).
  rewrite (RegexFacts.replace_scan_match true _ protect_bracket re_bracket
             block post [(1%nat, tag)]).
  2:{ apply CaseFacts.bracket_block_nonempty. }
  2:{ apply Hblock. }
  unfold protect_bracket. cbn [group groups capture Nat.eqb]. rewrite Hown.
  cbn [protect matched app length Nat.sub].
  rewrite RegexFacts.replace_scan_no_match by exact Hpost.
  reflexivity.
Qed.

Lemma bracket_pass_ignores_case_witness :
  stripProtectedBlocks
    (str "a < b " ++ bracket_block (str "foo") (str "see [1]") (str "Foo") ++ str " [x].")
  = {| stripped := str "a < b " ++ placeholder 0 ++ str " [x].";
       blocks := [bracket_block (str "foo") (str "see [1]") (str "Foo")] |}.
Proof.
  apply (bracket_pass_ignores_case (str "a < b ") (str "foo") (str "see [1]") (str "Foo")
           (str " [x]."));
    try reflexivity; discriminate.
Defined.

(** C9 fails as stated: a block with a lower-case tag is stripped. *)
Lemma bracket_pass_strips_lower_case :
  test false re_fence (str "[foo]x[/foo]") = false /\
  test true re_block (str "[foo]x[/foo]") = false /\
  stripProtectedBlocks (str "[foo]x[/foo]")
  = {| stripped := str "[PROTECTED_0]"; blocks := [str "[foo]x[/foo]"] |}.
Proof. repeat split; vm_compute; reflexivity. Qed.


(* ------------------------------------------------------------------ *)
(** ** ResponseParser *)

Module TrimFacts.

Lemma trimStart_split s :
  exists w, s = w ++ trimStart s /\ forallb is_space w = true.
Proof.
  induction s as [|c s (w & E & Hw)]; simpl.
  - exists []. auto.
  - destruct (is_space c) eqn:Hc.
    + exists (c :: w). simpl. rewrite Hc, Hw. split; [congruence|reflexivity].
    + exists []. auto.
Qed.

Lemma trimStart_head s :
  match trimStart s with c :: _ => is_space c = false | [] => True end.
Proof.
  induction s as [|c s IH]; simpl; auto.
  destruct (is_space c) eqn:Hc; auto.
Qed.

Lemma trimStart_fixed s :
  match s with c :: _ => is_space c = false | [] => True end -> trimStart s = s.
Proof. destruct s as [|c s]; simpl; auto. now intros ->. Qed.

Lemma trimStart_spaces w s :
  forallb is_space w = true -> trimStart (w ++ s) = trimStart s.
Proof.
  induction w as [|c w IH]; simpl; auto. intros H.
  apply andb_true_iff in H. destruct H as [Hc Hw]. rewrite Hc. auto.
Qed.

Lemma trimStart_all_spaces w : forallb is_space w = true -> trimStart w = [].
Proof.
  intros H. rewrite <- (app_nil_r w). now rewrite trimStart_spaces.
Qed.

Lemma trim_tight b : tight b -> trim b = b.
Proof.
  intros [H1 H2]. unfold trim, trimEnd.
  rewrite (trimStart_fixed b H1), (trimStart_fixed (rev b) H2). apply rev_involutive.
Qed.

Lemma forallb_rev (p : char -> bool) w : forallb p (rev w) = forallb p w.
Proof.
  induction w as [|c w IH]; simpl; auto.
  rewrite forallb_app, IH. simpl. rewrite andb_true_r. apply andb_comm.
Qed.

(** Every string is white space, its trimmed part, white space. *)
Lemma trim_split s :
  exists w1 w2,
    s = w1 ++ trim s ++ w2 /\
    forallb is_space w1 = true /\ forallb is_space w2 = true /\
    tight (trim s) /\ (trim s = [] -> w2 = []).
Proof.
  destruct (trimStart_split s) as (w1 & E1 & H1).
  destruct (trimStart_split (rev (trimStart s))) as (w2 & E2 & H2).
  assert (E3 : trimStart s = trim s ++ rev w2).
  { unfold trim, trimEnd. rewrite <- (rev_involutive (trimStart s)) at 1.
    rewrite E2 at 1. now rewrite rev_app_distr. }
  assert (Hh : match trim s with c :: _ => is_space c = false | [] => rev w2 = [] end).
  { pose proof (trimStart_head s) as Hs. rewrite E3 in Hs.
    destruct (trim s) as [|c t]; [|exact Hs].
    simpl in Hs. destruct (rev w2) as [|c w] eqn:Ew; [reflexivity|].
    assert (Hc : is_space c = true).
    { assert (Hr : forallb is_space (rev w2) = true) by now rewrite forallb_rev.
      rewrite Ew in Hr. simpl in Hr. apply andb_true_iff in Hr. tauto. }
    congruence. }
  exists w1, (rev w2). repeat split.
  - now rewrite E1 at 1; rewrite E3.
  - exact H1.
  - now rewrite forallb_rev.
  - destruct (trim s); auto.
  - unfold trim, trimEnd. rewrite rev_involutive. apply trimStart_head.
  - intros Ht. now rewrite Ht in Hh.
Qed.

Lemma trim_idempotent s : trim (trim s) = trim s.
Proof.
  destruct (trim_split s) as (_ & _ & _ & _ & _ & T & _). now apply trim_tight.
Qed.

Lemma trim_nil_iff s : trim s = [] <-> forallb is_space s = true.
Proof.
  split.
  - intros H. destruct (trim_split s) as (w1 & w2 & E & H1 & H2 & _ & _).
    rewrite E, H, !forallb_app, H1, H2. reflexivity.
  - intros H. unfold trim. now rewrite (trimStart_all_spaces s H).
Qed.

End TrimFacts.

Module ParserFacts.
Import ListFacts RegexFacts TrimFacts.

Lemma first_index_before ci l s n :
  first_index ci l s = Some n ->
  forall i, (i < n)%nat -> lit_prefix ci l (skipn i s) = false.
Proof.
  revert n; induction s as [|c s IH]; intros n H i Hi; cbn [first_index] in H.
  - destruct (lit_prefix ci l []); inversion H; subst; lia.
  - destruct (lit_prefix ci l (c :: s)) eqn:P.
    + inversion H; subst; lia.
    + destruct (first_index ci l s) as [k|] eqn:F; [|discriminate].
      inversion H; subst. destruct i as [|i]; [exact P|].
      cbn [skipn]. apply (IH k eq_refl). lia.
Qed.

Lemma first_index_absent ci l s :
  first_index ci l s = None ->
  forall i, lit_prefix ci l (skipn i s) = false.
Proof.
  induction s as [|c s IH]; intros H i; cbn [first_index] in H.
  - destruct (lit_prefix ci l []) eqn:P; [discriminate|]. now destruct i.
  - destruct (lit_prefix ci l (c :: s)) eqn:P; [discriminate|].
    destruct (first_index ci l s) eqn:F; [discriminate|].
    destruct i as [|i]; [exact P|]. cbn [skipn]. now apply IH.
Qed.

Ltac decide_comparisons :=
  repeat match goal with
         | |- context [(?a <=? ?b)%N] =>
             first [ replace (a <=? b)%N with true by (symmetry; apply N.leb_le; lia)
                   | replace (a <=? b)%N with false by (symmetry; apply N.leb_gt; lia) ]
         | |- context [(?a =? ?b)%N] =>
             replace (a =? b)%N with false by (symmetry; apply N.eqb_neq; lia)
         end.

Lemma letters_not_space x : (65 <= x <= 122)%N -> is_space x = false.
Proof. intros H. unfold is_space, between. decide_comparisons. reflexivity. Qed.

Lemma space_class ci c : cls_match ci space c = is_space c.
Proof.
  unfold cls_match, space. cbn [negated member xorb].
  destruct ci; cbn [andb]; [|now rewrite orb_false_r].
  destruct (is_space c) eqn:E; [reflexivity|]. cbn [orb].
  assert (U : is_space (to_upper c) = false).
  { unfold to_upper. destruct (is_lower c) eqn:L; [|exact E].
    apply letters_not_space. unfold is_lower, between in L.
    apply andb_true_iff in L. destruct L as [L1 L2].
    apply N.leb_le in L1, L2. lia. }
  assert (L : is_space (to_lower c) = false).
  { unfold to_lower. destruct (is_upper c) eqn:L; [|exact E].
    apply letters_not_space. unfold is_upper, between in L.
    apply andb_true_iff in L. destruct L as [L1 L2].
    apply N.leb_le in L1, L2. lia. }
  now rewrite U, L.
Qed.

Lemma forallb_space_class ci w :
  forallb (cls_match ci space) w = forallb is_space w.
Proof. induction w as [|c w IH]; simpl; [|rewrite space_class, IH]; reflexivity. Qed.

Lemma tight_suffix m1 m2 :
  tight (m1 ++ m2) -> m2 <> [] -> forallb is_space m2 = false.
Proof.
  intros [_ H] Hne. rewrite rev_app_distr in H.
  destruct (forallb is_space m2) eqn:F; [|reflexivity].
  rewrite <- forallb_rev in F.
  destruct (rev m2) as [|c r] eqn:E.
  - apply (f_equal (@rev char)) in E. rewrite rev_involutive in E. simpl in E. congruence.
  - simpl in H, F. apply andb_true_iff in F. destruct F. congruence.
Qed.

Lemma re_refined_shape : re_refined = pair_pattern (str "[REFINED]") (str "[/REFINED]").
Proof. reflexivity. Qed.

Lemma re_changelog_shape :
  re_changelog = pair_pattern (str "[CHANGELOG]") (str "[/CHANGELOG]").
Proof. reflexivity. Qed.

Lemma head_not_space (C c : jsstring) :
  ascii_upper c = ascii_upper C ->
  match C with x :: _ => is_space (to_upper x) = false | [] => False end ->
  match c with h :: _ => is_space h = false | [] => False end.
Proof.
  destruct C as [|x C], c as [|h c]; simpl; try discriminate; auto.
  intros E H. injection E as Eh _. rewrite <- Eh in H.
  destruct (is_space h) eqn:S; [|reflexivity].
  unfold to_upper in H. destruct (is_lower h) eqn:L; [|congruence].
  rewrite letters_not_space in S; [discriminate|].
  unfold is_lower, between in L. apply andb_true_iff in L. destruct L as [L1 L2].
  apply N.leb_le in L1, L2. lia.
Qed.

(** An opening tag, an inner content without the closing tag, and the
    closing tag are one match; the capture is the inner content
    without the white space around it. *)
Lemma pair_match_intro O C pre o w1 body w2 c post :
  ascii_upper o = ascii_upper O -> ascii_upper c = ascii_upper C ->
  match C with x :: _ => is_space (to_upper x) = false | [] => False end ->
  forallb is_space w1 = true -> forallb is_space w2 = true ->
  tight body -> (body = [] -> w2 = []) ->
  (forall i, (i < length (w1 ++ body ++ w2))%nat ->
             lit_prefix true C (skipn i ((w1 ++ body ++ w2) ++ c ++ post)) = false) ->
  match_here true (pair_pattern O C) pre (o ++ (w1 ++ body ++ w2) ++ c ++ post)
  = Some (post, [(1%nat, body)]).
Proof.
  intros Ho Hc HC Hw1 Hw2 Hb Hbw Hnone.
  pose proof (head_not_space C c Hc HC) as Hhead.
  unfold match_here, pair_pattern. cbn [sequence run].
  rewrite lit_step by exact Ho.
  rewrite <- !app_assoc.
  erewrite star_greedy_max with (m := w1); [reflexivity| | |].
  - now rewrite forallb_space_class.
  - destruct body as [|b body].
    + rewrite (Hbw eq_refl). cbn [app]. destruct c as [|h c]; [contradiction|].
      cbn [app]. now rewrite space_class.
    + cbn [app]. rewrite space_class. apply Hb.
  - erewrite star_lazy_first with (m := body); [reflexivity| | |].
    + apply CaseFacts.forallb_any.
    + intros m1 m2 -> Hm2.
      apply star_greedy_none. intros m' rest' E Hm'.
      rewrite forallb_space_class in Hm'.
      rewrite lit_eq.
      assert (P : lit_prefix true C rest' = false); [|now rewrite P].
      apply app_eq_app in E. destruct E as (l & [[E1 E2]|[E1 E2]]).
      * destruct l as [|x l].
        -- rewrite app_nil_r in E1. subst m'.
           pose proof (tight_suffix m1 m2 Hb Hm2) as T. congruence.
        -- subst m2 rest'.
           specialize (Hnone (length (w1 ++ m1 ++ m'))).
           replace ((w1 ++ (m1 ++ m' ++ x :: l) ++ w2) ++ c ++ post)
             with ((w1 ++ m1 ++ m') ++ (x :: l) ++ w2 ++ c ++ post) in Hnone
             by (now rewrite <- !app_assoc).
           rewrite skipn_app_exact in Hnone. apply Hnone.
           rewrite !length_app. simpl. lia.
      * (* the run of white space would cover [m2] *)
        pose proof (tight_suffix m1 m2 Hb Hm2) as T.
        rewrite E1, forallb_app in Hm'. apply andb_true_iff in Hm'.
        destruct Hm' as [Hm' _]. congruence.
    + cbn [run].
      erewrite star_greedy_max with (m := w2); [reflexivity| | |].
      * now rewrite forallb_space_class.
      * destruct c as [|h c]; [contradiction|]. cbn [app]. now rewrite space_class.
      * rewrite lit_step by exact Hc. unfold accept.
        now rewrite firstn_length_diff.
Qed.

Lemma lit_prefix_split ci l s :
  lit_prefix ci l s = true ->
  exists m rest, s = m ++ rest /\
                 List.map (canonicalize ci) m = List.map (canonicalize ci) l.
Proof.
  revert s; induction l as [|x l IH]; intros s H; simpl in H.
  - exists [], s. auto.
  - destruct s as [|c s]; [discriminate|].
    apply andb_true_iff in H. destruct H as [H1 H2].
    destruct (IH _ H2) as (m & rest & -> & E).
    exists (c :: m), rest. split; [reflexivity|]. simpl. rewrite E. f_equal.
    unfold char_match in H1. apply N.eqb_eq in H1. congruence.
Qed.

Lemma first_index_at ci l s n :
  first_index ci l s = Some n ->
  lit_prefix ci l (skipn n s) = true /\ (n <= length s)%nat.
Proof.
  revert n; induction s as [|c s IH]; intros n H; cbn [first_index] in H.
  - destruct (lit_prefix ci l []) eqn:P; inversion H; subst. simpl. auto.
  - destruct (lit_prefix ci l (c :: s)) eqn:P.
    + inversion H; subst. simpl. split; [exact P|lia].
    + destruct (first_index ci l s) as [k|] eqn:F; [|discriminate].
      inversion H; subst. destruct (IH k eq_refl). simpl. split; [assumption|lia].
Qed.

(** A match of the pair pattern ends with the closing tag, which
    stands behind the opening one. *)
Lemma pair_match_inv O C pre suf suf' caps :
  match_here true (pair_pattern O C) pre suf = Some (suf', caps) ->
  lit_prefix true O suf = true /\
  exists j, (length O <= j)%nat /\ lit_prefix true C (skipn j suf) = true.
Proof.
  unfold match_here, pair_pattern. cbn [sequence run].
  rewrite lit_eq. destruct (lit_prefix true O suf) eqn:P; [|discriminate].
  intros H. split; [reflexivity|].
  apply star_greedy_inv in H. destruct H as (m1 & r1 & E1 & _ & H).
  apply star_lazy_inv in H. destruct H as (m2 & r2 & -> & _ & H).
  cbn [run] in H.
  apply star_greedy_inv in H. destruct H as (m3 & r3 & -> & _ & H).
  rewrite lit_eq in H. destruct (lit_prefix true C r3) eqn:P3; [|discriminate].
  exists (length (m1 ++ m2 ++ m3) + length O)%nat. split; [lia|].
  rewrite <- skipn_skipn, E1.
  replace (m1 ++ m2 ++ m3 ++ r3) with ((m1 ++ m2 ++ m3) ++ r3)
    by (now rewrite <- !app_assoc).
  now rewrite skipn_app_exact.
Qed.

Lemma canonical_length ci (m l : jsstring) :
  List.map (canonicalize ci) m = List.map (canonicalize ci) l -> length m = length l.
Proof.
  intros H. rewrite <- (length_map (canonicalize ci) m), H. apply length_map.
Qed.

(** The pair pattern finds the first closed pair and captures its inner
    content, trimmed. *)
Lemma pair_capture_some O C raw inner :
  match C with x :: _ => is_space (to_upper x) = false | [] => False end ->
  pair_inner O C raw = Some inner ->
  exists m, String_match true (pair_pattern O C) raw = Some m /\
            group 1 m = trim inner.
Proof.
  intros HC. unfold pair_inner.
  destruct (first_index true O raw) as [i|] eqn:FO; [|discriminate].
  cbv zeta.
  destruct (first_index true C (skipn (i + length O) raw)) as [j|] eqn:FC; [|discriminate].
  intros H. injection H as Hinner.
  destruct (first_index_at _ _ _ _ FO) as [PO Hi].
  destruct (lit_prefix_split _ _ _ PO) as (o & rest0 & Eo & Ho).
  pose proof (canonical_length _ _ _ Ho) as Lo.
  assert (Erest : skipn (i + length O) raw = rest0).
  { rewrite Nat.add_comm, <- skipn_skipn, Eo, <- Lo. apply skipn_app_exact. }
  rewrite Erest in *.
  destruct (first_index_at _ _ _ _ FC) as [PC Hj].
  destruct (lit_prefix_split _ _ _ PC) as (c & post & Ec & Hc).
  set (pre := firstn i raw).
  assert (Lpre : length pre = i) by (unfold pre; rewrite length_firstn; lia).
  assert (Linner : length inner = j) by (subst inner; rewrite length_firstn; lia).
  assert (Eraw : raw = pre ++ o ++ inner ++ c ++ post).
  { rewrite <- (firstn_skipn i raw) at 1. fold pre. f_equal. rewrite Eo. f_equal.
    rewrite <- (firstn_skipn j rest0) at 1. rewrite Hinner. f_equal. exact Ec. }
  assert (Erest0 : rest0 = inner ++ c ++ post).
  { rewrite <- (firstn_skipn j rest0) at 1. rewrite Hinner. f_equal. exact Ec. }
  destruct (trim_split inner) as (w1 & w2 & Ei & Hw1 & Hw2 & T & Tw).
  exists (MatchResult i (o ++ inner ++ c) [(1%nat, trim inner)]).
  split; [|reflexivity].
  unfold String_match. rewrite Eraw at 1.
  rewrite exec_from_pass.
  - replace (o ++ inner ++ c ++ post) with ((o ++ inner ++ c) ++ post)
      by (now rewrite <- !app_assoc).
    rewrite (exec_from_here true _ _ _ _ [(1%nat, trim inner)]).
    + rewrite app_nil_r, length_rev, Lpre. reflexivity.
    + rewrite <- !app_assoc. rewrite Ei at 1.
      apply pair_match_intro; auto.
      rewrite <- Ei. intros k Hk. rewrite <- Erest0.
      apply (first_index_before _ _ _ _ FC). lia.
  - intros p1 p2 Ep Hp2.
    destruct (match_here true (pair_pattern O C) (rev p1 ++ []) (p2 ++ o ++ inner ++ c ++ post))
      as [[suf' caps]|] eqn:M; [|reflexivity].
    apply pair_match_inv in M. destruct M as [M _].
    assert (L : (length p1 < i)%nat).
    { rewrite <- Lpre, Ep, length_app. destruct p2; [congruence|simpl; lia]. }
    pose proof (first_index_before _ _ _ _ FO _ L) as F.
    rewrite Eraw, Ep, <- app_assoc, skipn_app_exact in F. congruence.
Qed.

Lemma pair_capture_none O C raw :
  pair_inner O C raw = None ->
  String_match true (pair_pattern O C) raw = None.
Proof.
  intros H. unfold String_match. apply exec_from_nowhere. intros p1 p2 E.
  destruct (match_here true (pair_pattern O C) (rev p1 ++ []) p2)
    as [[suf' caps]|] eqn:M; [|reflexivity].
  apply pair_match_inv in M. destruct M as (PO & j & Hj & PC).
  assert (E2 : p2 = skipn (length p1) raw) by (now rewrite E, skipn_app_exact).
  unfold pair_inner in H.
  destruct (first_index true O raw) as [i|] eqn:FO.
  - cbv zeta in H.
    destruct (first_index true C (skipn (i + length O) raw)) eqn:FC; [discriminate|].
    assert (Li : (i <= length p1)%nat).
    { destruct (Nat.le_gt_cases i (length p1)) as [L|L]; [exact L|].
      pose proof (first_index_before _ _ _ _ FO _ L) as F. congruence. }
    pose proof (first_index_absent _ _ _ FC (j + length p1 - (i + length O))) as F.
    rewrite skipn_skipn in F.
    replace (j + length p1 - (i + length O) + (i + length O))%nat
      with (j + length p1)%nat in F by lia.
    rewrite <- skipn_skipn, <- E2 in F. congruence.
  - pose proof (first_index_absent _ _ _ FO (length p1)) as F. congruence.
Qed.

Lemma remove_markers_free s : test true re_markers s = false -> remove_markers s = s.
Proof.
  intros H. unfold remove_markers. now rewrite (replace_no_match _ _ _ _ _ _ H).
Qed.

End ParserFacts.

(** C6, as amended.  When the first [REFINED] tag of the reply is
    followed by a [/REFINED] tag and the content between them is not
    blank, [refined] is that content trimmed, with any reserved marker
    left in it removed, hence the trimmed content itself when it holds
    none; [changelog] is the trimmed content of the first closed
    [CHANGELOG] pair, [null] when there is none; nothing else of the
    reply is kept.  The reply of the example parses to "- x" and
    "Hello world.". *)
Theorem parse_refined_pair (raw inner : jsstring) :
  pair_inner (str "[REFINED]") (str "[/REFINED]") raw = Some inner ->
  trim inner <> [] ->
  refined (parseChangelog raw) = trim (remove_markers (trim inner)) /\
  (test true re_markers (trim inner) = false ->
   refined (parseChangelog raw) = trim inner) /\
  changelog (parseChangelog raw)
  = option_map trim (pair_inner (str "[CHANGELOG]") (str "[/CHANGELOG]") raw) /\
  parseChangelog example_reply
  = {| changelog := Some (str "- x"); refined := str "Hello world." |}.
Proof.
  intros Hpair Hne.
  destruct (ParserFacts.pair_capture_some (str "[REFINED]") (str "[/REFINED]")
              raw inner eq_refl Hpair) as (m & Hm & Hg).
  assert (E : parseChangelog raw
              = {| changelog := option_map trim
                                  (pair_inner (str "[CHANGELOG]") (str "[/CHANGELOG]") raw);
                   refined := trim (remove_markers (trim inner)) |}).
  { unfold parseChangelog, extract.
    rewrite ParserFacts.re_refined_shape, Hm, Hg, TrimFacts.trim_idempotent.
    rewrite ParserFacts.re_changelog_shape.
    assert (F : falsy (Some (trim inner)) = false).
    { destruct (trim inner); [congruence|reflexivity]. }
    destruct (pair_inner (str "[CHANGELOG]") (str "[/CHANGELOG]") raw) as [inner2|] eqn:P2.
    - destruct (ParserFacts.pair_capture_some (str "[CHANGELOG]") (str "[/CHANGELOG]")
                  raw inner2 eq_refl P2) as (m2 & Hm2 & Hg2).
      rewrite Hm2, Hg2, TrimFacts.trim_idempotent, F. reflexivity.
    - rewrite (ParserFacts.pair_capture_none _ _ _ P2), F. reflexivity. }
  rewrite E. cbn [refined changelog].
  split; [reflexivity|]. split.
  - intros Hfree.
    now rewrite (ParserFacts.remove_markers_free _ Hfree), TrimFacts.trim_idempotent.
  - split; [reflexivity|]. vm_compute. reflexivity.
Qed.

Lemma parse_refined_pair_witness :
  refined (parseChangelog example_reply)
  = trim (remove_markers (trim (str "Hello world."))) /\
  refined (parseChangelog example_reply) = trim (str "Hello world.") /\
  changelog (parseChangelog example_reply)
  = option_map trim (pair_inner (str "[CHANGELOG]") (str "[/CHANGELOG]") example_reply) /\
  parseChangelog example_reply
  = {| changelog := Some (str "- x"); refined := str "Hello world." |}.
Proof.
  destruct (parse_refined_pair example_reply (str "Hello world."))
    as (A & B & C & D).
  - vm_compute. reflexivity.
  - vm_compute. discriminate.
  - split; [exact A|]. split; [apply B; vm_compute; reflexivity|].
    split; [exact C | exact D].
Defined.

(** C6 fails as stated: with a blank content between the tags the
    surrounding text is not discarded but becomes [refined]. *)
Lemma parse_blank_pair_counterexample :
  pair_inner (str "[REFINED]") (str "[/REFINED]") (str "a[REFINED][/REFINED]") = Some [] /\
  refined (parseChangelog (str "a[REFINED][/REFINED]")) = str "a" /\
  refined (parseChangelog (str "a[REFINED][/REFINED]")) <> trim [].
Proof. repeat split; try (vm_compute; reflexivity). vm_compute. discriminate. Qed.

(** C5, as amended.  When nothing is recovered from the reply,
    [changelog] is [null] and [refined] is the whole reply, trimmed,
    with the reserved markers removed and trimmed again: the trimmed
    reply itself when it holds no marker.  It is empty exactly when
    nothing but white space is left of the reply. *)
Theorem parse_fallback (raw : jsstring) :
  unrecovered raw ->
  changelog (parseChangelog raw) = None /\
  refined (parseChangelog raw) = trim (remove_markers (trim raw)) /\
  (refined (parseChangelog raw) = []
   <-> forallb is_space (remove_markers (trim raw)) = true) /\
  (test true re_markers (trim raw) = false -> refined (parseChangelog raw) = trim raw).
Proof.
  intros (H1 & H2 & H3).
  assert (E : parseChangelog raw
              = {| changelog := None; refined := trim (remove_markers (trim raw)) |}).
  { unfold parseChangelog, extract.
    rewrite ParserFacts.re_refined_shape, (ParserFacts.pair_capture_none _ _ _ H1).
    rewrite ParserFacts.re_changelog_shape, (ParserFacts.pair_capture_none _ _ _ H2).
    destruct (String_match true re_unclosed raw) as [m|]; [|reflexivity].
    now rewrite H3. }
  rewrite E. cbn [refined changelog].
  split; [reflexivity|]. split; [reflexivity|]. split.
  - apply TrimFacts.trim_nil_iff.
  - intros Hfree.
    now rewrite (ParserFacts.remove_markers_free _ Hfree), TrimFacts.trim_idempotent.
Qed.

Lemma parse_fallback_witness :
  changelog (parseChangelog (str " Hello there. ")) = None /\
  refined (parseChangelog (str " Hello there. "))
  = trim (remove_markers (trim (str " Hello there. "))) /\
  (refined (parseChangelog (str " Hello there. ")) = []
   <-> forallb is_space (remove_markers (trim (str " Hello there. "))) = true) /\
  refined (parseChangelog (str " Hello there. ")) = trim (str " Hello there. ").
Proof.
  destruct (parse_fallback (str " Hello there. ")) as (A & B & C & D).
  - repeat split; vm_compute; reflexivity.
  - split; [exact A|]. split; [exact B|]. split; [exact C|].
    apply D. vm_compute. reflexivity.
Defined.

(** C5 fails as stated: a reply that is only a marker, and the empty
    reply, give an empty [refined]; a reply with a stray marker gives a
    [refined] that is not the trimmed reply. *)
Lemma parse_empty_counterexample :
  refined (parseChangelog (str "[REFINED]")) = [] /\
  refined (parseChangelog []) = [] /\
  unrecovered (str "[REFINED] x") /\
  refined (parseChangelog (str "[REFINED] x")) = str "x" /\
  refined (parseChangelog (str "[REFINED] x")) <> trim (str "[REFINED] x").
Proof.
  repeat split; try (vm_compute; reflexivity). vm_compute. discriminate.
Qed.

(* ------------------------------------------------------------------ *)
(** ** PovDetector *)

Module FloatFacts.
Local Open Scope Z_scope.

(** The number of binary digits. *)
Lemma digits_bounds p :
  2 ^ (Zpos (digits2_pos p) - 1) <= Zpos p < 2 ^ Zpos (digits2_pos p).
Proof.
  induction p as [p IH|p IH|]; cbn [digits2_pos].
  - rewrite Pos2Z.inj_succ. replace (Z.succ (Zpos (digits2_pos p)) - 1) with (Zpos (digits2_pos p)) by lia.
    rewrite Z.pow_succ_r by lia.
    replace (2 ^ Zpos (digits2_pos p)) with (2 * 2 ^ (Zpos (digits2_pos p) - 1)) in *
      by (rewrite <- Z.pow_succ_r by lia; f_equal; lia).
    lia.
  - rewrite Pos2Z.inj_succ. replace (Z.succ (Zpos (digits2_pos p)) - 1) with (Zpos (digits2_pos p)) by lia.
    rewrite Z.pow_succ_r by lia.
    replace (2 ^ Zpos (digits2_pos p)) with (2 * 2 ^ (Zpos (digits2_pos p) - 1)) in *
      by (rewrite <- Z.pow_succ_r by lia; f_equal; lia).
    lia.
  - simpl. lia.
Qed.

Lemma digits_unique p d :
  2 ^ (d - 1) <= Zpos p < 2 ^ d -> Zpos (digits2_pos p) = d.
Proof.
  intros [H1 H2]. pose proof (digits_bounds p) as [B1 B2].
  assert (D : 0 < d).
  { destruct (Z.lt_ge_cases 0 d) as [L|L]; [exact L|].
    destruct (Z.eq_dec d 0) as [->|N]; [simpl in H2; lia|].
    rewrite Z.pow_neg_r in H2 by lia. lia. }
  destruct (Z.lt_trichotomy (Zpos (digits2_pos p)) d) as [L|[E|L]]; [|exact E|].
  - assert (2 ^ Zpos (digits2_pos p) <= 2 ^ (d - 1)) by (apply Z.pow_le_mono_r; lia). lia.
  - assert (2 ^ d <= 2 ^ (Zpos (digits2_pos p) - 1)) by (apply Z.pow_le_mono_r; lia). lia.
Qed.

Lemma iter_xO p k : Zpos (Pos.iter xO p k) = Zpos p * 2 ^ Zpos k.
Proof.
  revert p. induction k using Pos.peano_ind; intros p.
  - simpl. lia.
  - rewrite Pos.iter_succ, Pos2Z.inj_succ, Z.pow_succ_r by lia.
    rewrite Pos2Z.inj_xO, IHk. lia.
Qed.

Lemma fexp_eq d : -1021 <= d -> fexp 53 1024 d = d - 53.
Proof. intros H. unfold fexp, emin. lia. Qed.

Lemma shr_m_shr1 mrs : 0 <= shr_m mrs -> shr_m (shr_1 mrs) = shr_m mrs / 2.
Proof.
  destruct mrs as [m r s]. cbn [shr_m]. intros H. unfold shr_1.
  rewrite <- Z.div2_div.
  destruct m as [|[p|p|]|p]; cbn [shr_m]; try reflexivity; lia.
Qed.

Lemma shr_m_iter p : forall mrs,
  0 <= shr_m mrs ->
  shr_m (iter_pos shr_1 p mrs) = shr_m mrs / 2 ^ Zpos p.
Proof.
  assert (Pow : forall q, 0 < 2 ^ Zpos q) by (intros; apply Z.pow_pos_nonneg; lia).
  induction p as [p IH|p IH|]; intros mrs H; cbn [iter_pos].
  - assert (H1 : 0 <= shr_m (shr_1 mrs)).
    { rewrite shr_m_shr1 by exact H. apply Z.div_pos; lia. }
    assert (H2 : 0 <= shr_m (iter_pos shr_1 p (shr_1 mrs))).
    { rewrite IH by exact H1. apply Z.div_pos; [exact H1|apply Pow]. }
    rewrite IH by exact H2. rewrite IH by exact H1. rewrite shr_m_shr1 by exact H.
    rewrite !Z.div_div by (try apply Pow; lia).
    f_equal. replace (Zpos p~1) with (1 + Zpos p + Zpos p) by lia.
    rewrite !Z.pow_add_r by lia. change (2 ^ 1) with 2. ring.
  - assert (H2 : 0 <= shr_m (iter_pos shr_1 p mrs)).
    { rewrite IH by exact H. apply Z.div_pos; [exact H|apply Pow]. }
    rewrite IH by exact H2. rewrite IH by exact H.
    rewrite Z.div_div by (try apply Pow; lia).
    f_equal. replace (Zpos p~0) with (Zpos p + Zpos p) by lia.
    now rewrite Z.pow_add_r by lia.
  - rewrite shr_m_shr1 by exact H. reflexivity.
Qed.

Lemma round_choice m l :
  round_nearest_even m l = m \/ round_nearest_even m l = m + 1.
Proof. destruct l as [|[]]; cbn; auto. destruct (Z.even m); auto. Qed.

(** A mantissa that already has 53 digits is kept. *)
Lemma round_aux_exact m e :
  Zpos (digits2_pos m) = 53 -> -1074 <= e <= 971 ->
  binary_round_aux 53 1024 false (Zpos m) e loc_Exact = S754_finite false m e.
Proof.
  intros Hd He. unfold binary_round_aux, shr_fexp. cbn [Zdigits2].
  rewrite Hd, fexp_eq by lia.
  replace (53 + e - 53 - e) with 0 by lia. cbn [shr shr_record_of_loc].
  cbn [shr_m loc_of_shr_record round_nearest_even Zdigits2].
  rewrite Hd, fexp_eq by lia.
  replace (53 + e - 53 - e) with 0 by lia. cbn [shr shr_record_of_loc shr_m].
  replace (e <=? 1024 - 53) with true by (symmetry; apply Z.leb_le; lia).
  reflexivity.
Qed.

(** Rounding a longer mantissa: the result lies between the truncated
    mantissa and its successor, at the scale of the dropped digits. *)
Lemma round_aux_bounds m e :
  let n := Zpos (digits2_pos m) - 53 in
  0 < n -> -1074 <= e + n -> e + n + 1 <= 971 ->
  exists mr er,
    binary_round_aux 53 1024 false (Zpos m) e loc_Exact = S754_finite false mr er /\
    Zpos (digits2_pos mr) = 53 /\ e + n <= er /\
    (Zpos m / 2 ^ n) * 2 ^ n <= Zpos mr * 2 ^ (er - e)
                             <= (Zpos m / 2 ^ n + 1) * 2 ^ n.
Proof.
  intros n Hn He1 He2. pose proof (digits_bounds m) as [B1 B2].
  set (D := Zpos (digits2_pos m)) in *.
  assert (Pn : 0 < 2 ^ n) by (apply Z.pow_pos_nonneg; lia).
  set (q := Zpos m / 2 ^ n).
  assert (Hq : 2 ^ 52 <= q < 2 ^ 53).
  { unfold q. split.
    - apply Z.div_le_lower_bound; [exact Pn|].
      rewrite <- Z.pow_add_r by lia. replace (n + 52) with (D - 1) by (unfold n; lia).
      exact B1.
    - apply Z.div_lt_upper_bound; [exact Pn|].
      rewrite <- Z.pow_add_r by lia. replace (n + 53) with D by (unfold n; lia).
      exact B2. }
  unfold binary_round_aux, shr_fexp. cbn [Zdigits2]. fold D.
  rewrite fexp_eq by (unfold n in *; lia).
  replace (D + e - 53 - e) with n by (unfold n; lia).
  destruct n as [|pn|pn] eqn:En; try lia.
  cbn [shr shr_record_of_loc].
  set (mrs := iter_pos shr_1 pn {| shr_m := Zpos m; shr_r := false; shr_s := false |}).
  assert (Hm : shr_m mrs = q).
  { unfold mrs. rewrite shr_m_iter by (cbn; lia). reflexivity. }
  rewrite Hm.
  destruct (round_choice q (loc_of_shr_record mrs)) as [R|R]; rewrite R.
  - (* rounded down *)
    destruct q as [|pq|pq] eqn:Eq; try lia.
    assert (Dq : Zpos (digits2_pos pq) = 53) by (apply digits_unique; simpl; lia).
    cbn [Zdigits2]. rewrite Dq, fexp_eq by lia.
    replace (53 + (e + Zpos pn) - 53 - (e + Zpos pn)) with 0 by lia.
    cbn [shr shr_record_of_loc shr_m].
    replace (e + Zpos pn <=? 1024 - 53) with true by (symmetry; apply Z.leb_le; lia).
    exists pq, (e + Zpos pn). repeat split; try lia.
    + replace (e + Zpos pn - e) with (Zpos pn) by lia. lia.
    + replace (e + Zpos pn - e) with (Zpos pn) by lia. lia.
  - destruct (Z.eq_dec (q + 1) (2 ^ 53)) as [C|C].
    + (* rounded up to the next power of two *)
      rewrite C. change (2 ^ 53) with (Zpos 9007199254740992).
      cbn [Zdigits2]. change (Zpos (digits2_pos 9007199254740992)) with 54.
      rewrite fexp_eq by lia.
      replace (54 + (e + Zpos pn) - 53 - (e + Zpos pn)) with 1 by lia.
      cbn [shr shr_record_of_loc iter_pos shr_1 shr_m].
      replace (e + Zpos pn + 1 <=? 1024 - 53) with true by (symmetry; apply Z.leb_le; lia).
      exists 4503599627370496%positive, (e + Zpos pn + 1). repeat split; try lia.
      * replace (e + Zpos pn + 1 - e) with (Zpos pn + 1) by lia.
        rewrite Z.pow_add_r by lia. lia.
      * replace (e + Zpos pn + 1 - e) with (Zpos pn + 1) by lia.
        rewrite Z.pow_add_r by lia. change (2 ^ 1) with 2.
        replace (Zpos 4503599627370496 * (2 ^ Zpos pn * 2)) with (2 ^ 53 * 2 ^ Zpos pn) by lia.
        rewrite <- C. lia.
    + destruct (q + 1) as [|pq|pq] eqn:Eq; try lia.
      assert (Dq : Zpos (digits2_pos pq) = 53) by (apply digits_unique; simpl; lia).
      cbn [Zdigits2]. rewrite Dq, fexp_eq by lia.
      replace (53 + (e + Zpos pn) - 53 - (e + Zpos pn)) with 0 by lia.
      cbn [shr shr_record_of_loc shr_m].
      replace (e + Zpos pn <=? 1024 - 53) with true by (symmetry; apply Z.leb_le; lia).
      exists pq, (e + Zpos pn). repeat split; try lia.
      * replace (e + Zpos pn - e) with (Zpos pn) by lia. nia.
      * replace (e + Zpos pn - e) with (Zpos pn) by lia. nia.
Qed.

(** Conversion of a positive integer below 2^53. *)
Lemma Number_pos p :
  Zpos p < 2 ^ 53 ->
  exists m, Number (Npos p) = S754_finite false m (Zpos (digits2_pos p) - 53) /\
            Zpos m = Zpos p * 2 ^ (53 - Zpos (digits2_pos p)) /\
            Zpos (digits2_pos m) = 53.
Proof.
  intros Hp. pose proof (digits_bounds p) as [B1 B2].
  set (d := Zpos (digits2_pos p)) in *.
  assert (Hd : 1 <= d <= 53).
  { split; [unfold d; lia|].
    destruct (Z.le_gt_cases d 53) as [L|L]; [exact L|].
    assert (2 ^ 53 <= 2 ^ (d - 1)) by (apply Z.pow_le_mono_r; lia). lia. }
  unfold Number, binary_normalize. cbn [Z.of_N].
  unfold binary_round. rewrite Z.add_0_r. fold d. rewrite fexp_eq by lia.
  unfold shl_align.
  destruct (d - 53 - 0) as [|k|k] eqn:Ek; try lia.
  - exists p. assert (d = 53) by lia.
    rewrite round_aux_exact by (fold d; lia).
    split; [f_equal; lia|]. split; [|assumption].
    replace (53 - d) with 0 by lia. simpl. lia.
  - assert (Hk : Zpos k = 53 - d) by lia.
    assert (Em : Zpos (Pos.iter xO p k) = Zpos p * 2 ^ (53 - d)).
    { now rewrite iter_xO, Hk. }
    assert (Dm : Zpos (digits2_pos (Pos.iter xO p k)) = 53).
    { apply digits_unique. rewrite Em. split.
      - replace (53 - 1) with ((d - 1) + (53 - d)) by lia. rewrite Z.pow_add_r by lia.
        apply Z.mul_le_mono_nonneg_r; [apply Z.pow_nonneg; lia|exact B1].
      - replace 53 with (d + (53 - d)) at 2 by lia. rewrite Z.pow_add_r by lia.
        apply Z.mul_lt_mono_pos_r; [apply Z.pow_pos_nonneg; lia|exact B2]. }
    exists (Pos.iter xO p k). rewrite round_aux_exact by (try exact Dm; lia).
    auto.
Qed.

(** Canonical positive doubles compare as their values. *)
Lemma ltb_canonical m1 e1 m2 e2 base :
  base <= e1 -> base <= e2 ->
  Zpos (digits2_pos m1) = 53 -> Zpos (digits2_pos m2) = 53 ->
  SFltb (S754_finite false m1 e1) (S754_finite false m2 e2)
  = (Zpos m1 * 2 ^ (e1 - base) <? Zpos m2 * 2 ^ (e2 - base)).
Proof.
  intros H1 H2 D1 D2.
  pose proof (digits_bounds m1) as [L1 U1]. pose proof (digits_bounds m2) as [L2 U2].
  rewrite D1 in L1, U1. rewrite D2 in L2, U2.
  change (2 ^ (53 - 1)) with 4503599627370496 in *.
  change (2 ^ 53) with 9007199254740992 in *.
  unfold SFltb, SFcompare.
  destruct (Z.compare_spec e1 e2) as [E|E|E].
  - subst e2. rewrite Pos.compare_cont_spec. cbn [Pos.switch_Eq].
    assert (P : 0 < 2 ^ (e1 - base)) by (apply Z.pow_pos_nonneg; lia).
    destruct (Pos.compare_spec m1 m2) as [C|C|C]; symmetry.
    + subst. apply Z.ltb_irrefl.
    + apply Z.ltb_lt. apply Z.mul_lt_mono_pos_r; [exact P|]. lia.
    + apply Z.ltb_ge. apply Z.mul_le_mono_nonneg_r; lia.
  - symmetry. apply Z.ltb_lt.
    replace (e2 - base) with ((e1 - base) + (e2 - e1)) by lia.
    rewrite Z.pow_add_r by lia.
    assert (P : 0 < 2 ^ (e1 - base)) by (apply Z.pow_pos_nonneg; lia).
    assert (K : 2 ^ 1 <= 2 ^ (e2 - e1)) by (apply Z.pow_le_mono_r; lia).
    change (2 ^ 1) with 2 in K.
    set (a := 2 ^ (e1 - base)) in *. set (k := 2 ^ (e2 - e1)) in *.
    assert (S1 : Zpos m1 * a < 2 * Zpos m2 * a)
      by (apply Z.mul_lt_mono_pos_r; [exact P|lia]).
    assert (S2 : 2 * (Zpos m2 * a) <= k * (Zpos m2 * a))
      by (apply Z.mul_le_mono_nonneg_r; lia).
    lia.
  - symmetry. apply Z.ltb_ge.
    replace (e1 - base) with ((e2 - base) + (e1 - e2)) by lia.
    rewrite Z.pow_add_r by lia.
    assert (P : 0 < 2 ^ (e2 - base)) by (apply Z.pow_pos_nonneg; lia).
    assert (K : 2 ^ 1 <= 2 ^ (e1 - e2)) by (apply Z.pow_le_mono_r; lia).
    change (2 ^ 1) with 2 in K.
    set (a := 2 ^ (e2 - base)) in *. set (k := 2 ^ (e1 - e2)) in *.
    assert (S1 : Zpos m2 * a < 2 * Zpos m1 * a)
      by (apply Z.mul_lt_mono_pos_r; [exact P|lia]).
    assert (S2 : 2 * (Zpos m1 * a) <= k * (Zpos m1 * a))
      by (apply Z.mul_le_mono_nonneg_r; lia).
    lia.
Qed.

Lemma digits_le p k : Zpos p < 2 ^ k -> 0 <= k -> Zpos (digits2_pos p) <= k.
Proof.
  intros H Hk. pose proof (digits_bounds p) as [B _].
  destruct (Z.le_gt_cases (Zpos (digits2_pos p)) k) as [L|L]; [exact L|].
  assert (2 ^ k <= 2 ^ (Zpos (digits2_pos p) - 1)) by (apply Z.pow_le_mono_r; lia). lia.
Qed.

(** [x > total * 0.2] on counts is the exact comparison [5 x > total]. *)
Lemma above_fifth_exact (x t : N) :
  (0 < t < 2 ^ 34)%N -> (x < 2 ^ 32)%N ->
  above_fifth x t = (t <? 5 * x)%N.
Proof.
  intros Ht Hx. destruct t as [|pt]; [lia|].
  assert (Hpt : Zpos pt < 2 ^ 34).
  { change (2 ^ 34) with (Z.of_N (2 ^ 34)%N). change (Zpos pt) with (Z.of_N (Npos pt)). lia. }
  destruct (Number_pos pt) as (mt & Et & Vt & Dt); [lia|].
  pose proof (digits_bounds pt) as [Bt1 Bt2].
  pose proof (digits_le pt 34 Hpt ltac:(lia)) as Ldt.
  set (dt := Zpos (digits2_pos pt)) in *.
  assert (Hdt : 1 <= dt) by (unfold dt; lia).
  (* the product *)
  pose proof (digits_bounds mt) as [Lt Ut]. rewrite Dt in Lt, Ut.
  set (mc := 7205759403792794%positive).
  set (e := dt - 53 + -55).
  assert (Emul : SFmul 53 1024 (Number (Npos pt)) point_two
                 = binary_round_aux 53 1024 false (Zpos (mt * mc)) e loc_Exact).
  { rewrite Et. reflexivity. }
  pose proof (digits_bounds (mt * mc)) as [Lm Um].
  set (D := Zpos (digits2_pos (mt * mc))) in *.
  assert (Hm : 2 ^ 104 <= Zpos (mt * mc) < 2 ^ 106).
  { rewrite Pos2Z.inj_mul. unfold mc.
    change (2 ^ (53 - 1)) with 4503599627370496 in Lt.
    change (2 ^ 53) with 9007199254740992 in Ut.
    change (2 ^ 104) with (4503599627370496 * 4503599627370496).
    change (2 ^ 106) with (9007199254740992 * 9007199254740992). nia. }
  assert (HD : 105 <= D <= 106).
  { split.
    - destruct (Z.le_gt_cases 105 D) as [L|L]; [exact L|].
      assert (2 ^ D <= 2 ^ 104) by (apply Z.pow_le_mono_r; lia). lia.
    - destruct (Z.le_gt_cases D 106) as [L|L]; [exact L|].
      assert (2 ^ 106 <= 2 ^ (D - 1)) by (apply Z.pow_le_mono_r; lia). lia. }
  destruct (round_aux_bounds (mt * mc) e) as (mr & er & Er & Dr & Her & Rlo & Rhi);
    try (fold D; unfold e; lia).
  fold D in Her, Rlo, Rhi. set (n := D - 53) in *.
  unfold above_fifth. rewrite Emul, Er.
  destruct x as [|px].
  - (* nothing is above a positive product *)
    change (Number 0) with (S754_zero false). cbn. reflexivity.
  - assert (Hpx : Zpos px < 2 ^ 32).
    { change (2 ^ 32) with (Z.of_N (2 ^ 32)%N). change (Zpos px) with (Z.of_N (Npos px)). lia. }
    destruct (Number_pos px) as (mx & Ex & Vx & Dx); [lia|].
    pose proof (digits_le px 32 Hpx ltac:(lia)) as Ldx.
    set (dx := Zpos (digits2_pos px)) in *.
    assert (Hdx : 1 <= dx) by (unfold dx; lia).
    rewrite Ex.
    rewrite (ltb_canonical mr er mx (dx - 53) e) by (try assumption; unfold e, n in *; lia).
    (* both sides at the scale 2^e *)
    assert (Vxe : Zpos mx * 2 ^ (dx - 53 - e) = Zpos px * 2 ^ 55 * 2 ^ (53 - dt)).
    { rewrite Vx. replace (dx - 53 - e) with ((dx - dt) + 55) by (unfold e; lia).
      rewrite <- !Z.mul_assoc, <- !Z.pow_add_r by lia. do 2 f_equal. lia. }
    rewrite Vxe.
    assert (Vm : Zpos (mt * mc) = Zpos pt * Zpos mc * 2 ^ (53 - dt)).
    { rewrite Pos2Z.inj_mul, Vt. ring. }
    set (A := 2 ^ (53 - dt)) in *.
    assert (HA : 2 <= A).
    { unfold A. change 2 with (2 ^ 1) at 1. apply Z.pow_le_mono_r; lia. }
    assert (Pn : 0 < 2 ^ n) by (apply Z.pow_pos_nonneg; unfold n; lia).
    assert (Hn53 : 2 ^ n <= 2 ^ 53) by (apply Z.pow_le_mono_r; unfold n; lia).
    set (q := Zpos (mt * mc) / 2 ^ n) in *.
    assert (Hq : q * 2 ^ n <= Zpos (mt * mc) < (q + 1) * 2 ^ n).
    { unfold q. pose proof (Z.div_mod (Zpos (mt * mc)) (2 ^ n) ltac:(lia)) as DM.
      pose proof (Z.mod_pos_bound (Zpos (mt * mc)) (2 ^ n) Pn) as MB. nia. }
    assert (Hmc : 5 * Zpos mc = 2 ^ 55 + 2) by reflexivity.
    assert (HptA : Zpos pt * A < 2 ^ 53).
    { unfold A. replace 53 with (dt + (53 - dt)) at 2 by lia. rewrite Z.pow_add_r by lia.
      apply Z.mul_lt_mono_pos_r; [apply Z.pow_pos_nonneg; lia|exact Bt2]. }
    change (2 ^ 53) with 9007199254740992 in *.
    change (2 ^ 55) with 36028797018963968 in *.
    destruct (N.ltb_spec (Npos pt) (5 * Npos px)) as [C|C].
    + (* 5 x > t: even the successor of the truncation stays below x *)
      assert (C' : Zpos pt + 1 <= 5 * Zpos px) by lia.
      apply Z.ltb_lt.
      assert (S1 : 5 * (Zpos pt * Zpos mc * A) = Zpos pt * A * 36028797018963968 + 2 * (Zpos pt * A)) by lia.
      assert (S2 : (Zpos pt + 1) * 36028797018963968 * A <= 5 * Zpos px * 36028797018963968 * A).
      { apply Z.mul_le_mono_nonneg_r; [lia|]. apply Z.mul_le_mono_nonneg_r; lia. }
      nia.
    + (* 5 x <= t: the truncation is already at least x *)
      assert (C' : 5 * Zpos px <= Zpos pt) by lia.
      apply Z.ltb_ge.
      assert (S1 : Zpos px * 36028797018963968 * A <= Zpos (mt * mc)).
      { rewrite Vm.
        assert (5 * (Zpos px * 36028797018963968 * A) <= 5 * (Zpos pt * Zpos mc * A)); [|lia].
        replace (5 * (Zpos pt * Zpos mc * A)) with (Zpos pt * (5 * Zpos mc) * A) by ring.
        rewrite Hmc.
        assert (5 * Zpos px * (36028797018963968 + 2) * A <= Zpos pt * (36028797018963968 + 2) * A).
        { apply Z.mul_le_mono_nonneg_r; [lia|]. apply Z.mul_le_mono_nonneg_r; lia. }
        nia. }
      (* x at the scale 2^e is a multiple of 2^n *)
      assert (S2 : Zpos px * 36028797018963968 * A
                   = (Zpos px * 2 ^ (108 - dt - n)) * 2 ^ n).
      { assert (P2 : 2 ^ (108 - dt - n) * 2 ^ n = 36028797018963968 * A).
        { rewrite <- Z.pow_add_r by (unfold n; lia).
          replace (108 - dt - n + n) with (55 + (53 - dt)) by lia.
          rewrite Z.pow_add_r by lia. reflexivity. }
        rewrite <- (Z.mul_assoc (Zpos px) (2 ^ (108 - dt - n))), P2. ring. }
      assert (S3 : Zpos px * 2 ^ (108 - dt - n) <= q).
      { unfold q. apply Z.div_le_lower_bound; [exact Pn|]. rewrite Z.mul_comm, <- S2. exact S1. }
      rewrite S2.
      assert (Zpos px * 2 ^ (108 - dt - n) * 2 ^ n <= q * 2 ^ n)
        by (apply Z.mul_le_mono_nonneg_r; lia).
      lia.
Qed.

End FloatFacts.

(** C8.  With counts as an array length gives them (below 2^32): when
    the combined count is at least 3 and the first-person and the
    second-person count each exceed a fifth of it, [detectPov] answers
    '1.5', whatever a plurality would say; when the combined count is
    below 3 it answers [null]. *)
Theorem detectPov_first_and_second (toLowerCase : jsstring -> jsstring) (text : jsstring) :
  let lower := toLowerCase text in
  let first := count re_first lower in
  let second := count re_second lower in
  let third := count re_third lower in
  let total := (first + second + third)%N in
  (first < 2 ^ 32)%N -> (second < 2 ^ 32)%N -> (third < 2 ^ 32)%N ->
  ((3 <= total)%N -> (total < 5 * first)%N -> (total < 5 * second)%N ->
   detectPov toLowerCase text = Some FirstAndSecond) /\
  ((total < 3)%N -> detectPov toLowerCase text = None).
Proof.
  intros lower first second third total H1 H2 H3. unfold detectPov.
  fold lower. fold first. fold second. fold third. fold total.
  split.
  - intros Ht Hf Hs.
    assert (B : (0 < total < 2 ^ 34)%N).
    { unfold total. change (2 ^ 34)%N with (4 * 2 ^ 32)%N. lia. }
    rewrite !FloatFacts.above_fifth_exact by assumption.
    apply N.ltb_ge in Ht. rewrite Ht.
    apply N.ltb_lt in Hf, Hs. now rewrite Hf, Hs.
  - intros Ht. apply N.ltb_lt in Ht. now rewrite Ht.
Qed.

Lemma detectPov_first_and_second_witness :
  detectPov ascii_lower (str "I, I and you saw him.") = Some FirstAndSecond /\
  detectPov ascii_lower (str "The cat sat.") = None.
Proof.
  split.
  - apply (proj1 (detectPov_first_and_second ascii_lower (str "I, I and you saw him.")
                    eq_refl eq_refl eq_refl));
      vm_compute; first [reflexivity | discriminate].
  - apply (proj2 (detectPov_first_and_second ascii_lower (str "The cat sat.")
                    eq_refl eq_refl eq_refl)).
    vm_compute. reflexivity.
Defined.

(* ------------------------------------------------------------------ *)
(** ** DiffEngine: tokens, the table and the edit script *)

Module TokenFacts.
Import ListFacts RegexFacts.

Lemma take_drop p s : take_while p s ++ drop_while p s = s.
Proof. induction s as [|c s IH]; simpl; [reflexivity|]. destruct (p c); simpl; congruence. Qed.

Lemma take_while_all p s : forallb p (take_while p s) = true.
Proof. induction s as [|c s IH]; simpl; [reflexivity|]. destruct (p c) eqn:E; simpl; [now rewrite E|reflexivity]. Qed.

Lemma drop_while_head p s :
  match drop_while p s with c :: _ => p c = false | [] => True end.
Proof. induction s as [|c s IH]; simpl; [exact I|]. destruct (p c) eqn:E; [exact IH|exact E]. Qed.

Lemma drop_while_length p s : (length (drop_while p s) <= length s)%nat.
Proof. induction s as [|c s IH]; simpl; [lia|]. destruct (p c); simpl; lia. Qed.

(** A greedy repetition in front of the end of the pattern takes the
    whole run. *)
Lemma star_greedy_accept ci cl pre suf caps :
  star_greedy ci cl accept pre suf caps
  = Some (drop_while (cls_match ci cl) suf, caps).
Proof.
  revert pre; induction suf as [|c suf IH]; intros pre; simpl; [reflexivity|].
  destruct (cls_match ci cl c); [|reflexivity]. now rewrite IH.
Qed.

Lemma cls_nonspace c : cls_match false nonspace c = negb (is_space c).
Proof. unfold cls_match, nonspace. simpl. now rewrite orb_false_r. Qed.

Lemma cls_space c : cls_match false space c = is_space c.
Proof. unfold cls_match, space. simpl. now rewrite orb_false_r. Qed.

Lemma drop_while_ext p q s : (forall c, p c = q c) -> drop_while p s = drop_while q s.
Proof. intros H. induction s as [|c s IH]; simpl; [reflexivity|]. now rewrite H, IH. Qed.

Lemma take_while_ext p q s : (forall c, p c = q c) -> take_while p s = take_while q s.
Proof. intros H. induction s as [|c s IH]; simpl; [reflexivity|]. now rewrite H, IH. Qed.

(** At any code unit [/\S+|\s+/] matches the maximal run that starts
    there. *)
Lemma match_here_token pre c rest :
  match_here false re_token pre (c :: rest)
  = Some (drop_while (same_kind c) rest, []).
Proof.
  unfold match_here, re_token, Plus. cbn [run].
  rewrite cls_nonspace, cls_space.
  destruct (is_space c) eqn:E; cbn [negb].
  - rewrite star_greedy_accept. f_equal. f_equal.
    apply drop_while_ext. intros d. rewrite cls_space. unfold same_kind. rewrite E.
    now destruct (is_space d).
  - rewrite star_greedy_accept. f_equal. f_equal.
    apply drop_while_ext. intros d. rewrite cls_nonspace. unfold same_kind. rewrite E.
    now destruct (is_space d).
Qed.

Lemma match_here_token_nil pre : match_here false re_token pre [] = None.
Proof. reflexivity. Qed.

Lemma exec_scan_skip ci r x s pre :
  exec_scan ci r (length x) pre (x ++ s) = exec_scan ci r 0 (rev x ++ pre) s.
Proof.
  revert pre; induction x as [|c x IH]; intros pre; simpl; [reflexivity|].
  rewrite IH, <- app_assoc. reflexivity.
Qed.

Lemma exec_scan_token pre c rest :
  List.map matched (exec_scan false re_token 0 pre (c :: rest))
  = (c :: take_while (same_kind c) rest)
    :: List.map matched
         (exec_scan false re_token 0 (rev (take_while (same_kind c) rest) ++ c :: pre)
                    (drop_while (same_kind c) rest)).
Proof.
  cbn [exec_scan]. rewrite match_here_token. cbn [List.map].
  pose proof (take_drop (same_kind c) rest) as E.
  remember (take_while (same_kind c) rest) as t eqn:Ht.
  remember (drop_while (same_kind c) rest) as d eqn:Hd.
  clear Ht Hd. subst rest.
  change (c :: t ++ d) with ((c :: t) ++ d).
  rewrite report_exact. cbn [matched length pred]. f_equal.
  now rewrite exec_scan_skip.
Qed.

Lemma runs_cons c s :
  runs (c :: s)
  = match runs s with
    | (d :: t) :: ts => if same_kind c d then (c :: d :: t) :: ts else [c] :: (d :: t) :: ts
    | _ => [[c]]
    end.
Proof. reflexivity. Qed.

Lemma runs_head d rest : exists t ts, runs (d :: rest) = (d :: t) :: ts.
Proof.
  rewrite runs_cons. destruct (runs rest) as [|[|e t] ts]; eauto.
  destruct (same_kind d e); eauto.
Qed.

Lemma same_kind_trans c x y :
  same_kind c x = true -> same_kind c y = same_kind x y.
Proof. unfold same_kind. destruct (is_space c), (is_space x), (is_space y); simpl; congruence. Qed.

Lemma forallb_same_kind c x m :
  same_kind c x = true -> forallb (same_kind c) m = forallb (same_kind x) m.
Proof.
  intros H. induction m as [|y m IH]; [reflexivity|].
  cbn [forallb]. now rewrite IH, (same_kind_trans c x y H).
Qed.

Lemma runs_run c m rest :
  forallb (same_kind c) m = true ->
  match rest with d :: _ => same_kind c d = false | [] => True end ->
  runs (c :: m ++ rest) = (c :: m) :: runs rest.
Proof.
  revert c; induction m as [|x m IH]; intros c Hm Hrest.
  - cbn [app]. rewrite runs_cons. destruct rest as [|d rest]; [reflexivity|].
    destruct (runs_head d rest) as (t & ts & E). rewrite E. now rewrite Hrest.
  - cbn [forallb] in Hm. apply andb_true_iff in Hm. destruct Hm as [Hx Hm].
    cbn [app]. rewrite runs_cons, (IH x).
    + now rewrite Hx.
    + now rewrite <- (forallb_same_kind c x m Hx).
    + destruct rest as [|d rest]; [exact I|].
      now rewrite <- (same_kind_trans c x d Hx).
Qed.

(** The tokens are the maximal runs. *)
Lemma tokenize_runs_eq text : tokenize text = runs text.
Proof.
  unfold tokenize, match_all, exec_all.
  generalize (@nil char) as pre.
  remember (length text) as n eqn:Hn.
  assert (Hle : (length text <= n)%nat) by lia. clear Hn.
  revert text Hle. induction n as [|n IH]; intros [|c rest] Hle pre;
    try reflexivity; simpl in Hle; [lia|].
  rewrite exec_scan_token, IH.
  - rewrite <- (take_drop (same_kind c) rest) at 3.
    rewrite runs_run; [reflexivity|apply take_while_all|apply drop_while_head].
  - pose proof (drop_while_length (same_kind c) rest). lia.
Qed.

Lemma runs_concat s : concat (runs s) = s.
Proof.
  induction s as [|c s IH]; [reflexivity|].
  rewrite runs_cons. destruct s as [|d rest]; [reflexivity|].
  destruct (runs_head d rest) as (t & ts & E). rewrite E in *.
  destruct (same_kind c d); simpl in *; congruence.
Qed.

Lemma runs_are_runs s : Forall (fun t => is_run t = true) (runs s).
Proof.
  induction s as [|c s IH]; [constructor|].
  rewrite runs_cons. destruct (runs s) as [|[|d t] ts].
  - repeat constructor.
  - repeat constructor.
  - inversion IH as [|? ? H1 H2]; subst.
    destruct (same_kind c d) eqn:E.
    + constructor; [|assumption]. cbn [is_run forallb] in *. rewrite E. cbn [andb].
      now rewrite (forallb_same_kind c d t E).
    + constructor; [reflexivity|]. constructor; assumption.
Qed.

Lemma runs_alternating s : alternating (runs s).
Proof.
  induction s as [|c s IH]; [exact I|].
  rewrite runs_cons. destruct (runs s) as [|[|d t] ts] eqn:E.
  - exact I.
  - exact I.
  - destruct (same_kind c d) eqn:K.
    + destruct ts as [|t2 ts]; [exact I|].
      cbn [alternating] in *. destruct IH as [H1 H2]. split; [|exact H2].
      cbn [blank_token] in *. unfold same_kind in K.
      apply eqb_prop in K. now rewrite K.
    + cbn [alternating]. split; [|exact IH].
      cbn [blank_token]. unfold same_kind in K.
      destruct (is_space c), (is_space d); simpl in K; congruence.
Qed.

End TokenFacts.

(** X1.  [tokenize] loses nothing: the tokens of a text, concatenated in
    order, are the text. *)
Theorem tokenize_lossless (text : jsstring) : concat (tokenize text) = text.
Proof. rewrite TokenFacts.tokenize_runs_eq. apply TokenFacts.runs_concat. Qed.

(** X2.  Every token of [tokenize text] is a non-empty run of code units that
    are all white space or all not, and two neighbouring tokens are of
    different kinds: the tokens are the maximal runs of the text. *)
Theorem tokenize_maximal_runs (text : jsstring) :
  Forall (fun t => is_run t = true) (tokenize text) /\ alternating (tokenize text).
Proof.
  rewrite TokenFacts.tokenize_runs_eq. split.
  - apply TokenFacts.runs_are_runs.
  - apply TokenFacts.runs_alternating.
Qed.

Module ScriptFacts.
Import DiffFacts.

Lemma eqb_refl s : JS.eqb s s = true.
Proof. now apply eqb_eq. Qed.

Lemma firstn_succ_token (a : list jsstring) i :
  (i < length a)%nat -> firstn (S i) a = firstn i a ++ [token a i].
Proof.
  revert i; induction a as [|x a IH]; intros i H; simpl in *; [lia|].
  destruct i; [reflexivity|]. unfold token in *. simpl. f_equal. apply IH. lia.
Qed.

(** Identical token lists: the backtrace runs down the diagonal. *)
Lemma backtrace_diagonal a dp i :
  (i <= length a)%nat ->
  rev (backtrace a a dp i i) = List.map (Segment equal) (firstn i a).
Proof.
  induction i as [|i IH]; intros H; rewrite backtrace_unfold.
  - reflexivity.
  - cbn [Nat.ltb Nat.leb orb]. unfold backtrace_step.
    cbn [Nat.ltb Nat.leb andb]. replace (S i - 1)%nat with i by lia.
    rewrite eqb_refl. cbn [fst snd rev].
    rewrite IH by lia. rewrite firstn_succ_token by lia.
    now rewrite map_app.
Qed.

(** An empty original: everything is inserted. *)
Lemma backtrace_inserts a b dp j :
  (j <= length b)%nat ->
  rev (backtrace a b dp 0 j) = List.map (Segment insert) (firstn j b).
Proof.
  induction j as [|j IH]; intros H; rewrite backtrace_unfold.
  - reflexivity.
  - cbn [Nat.ltb Nat.leb orb]. unfold backtrace_step.
    cbn [Nat.ltb Nat.leb Nat.eqb andb orb]. replace (S j - 1)%nat with j by lia.
    cbn [fst snd rev].
    rewrite IH by lia. rewrite firstn_succ_token by lia.
    now rewrite map_app.
Qed.

(** An empty rewritten text: everything is deleted. *)
Lemma backtrace_deletes a b dp i :
  (i <= length a)%nat ->
  rev (backtrace a b dp i 0) = List.map (Segment delete) (firstn i a).
Proof.
  induction i as [|i IH]; intros H; rewrite backtrace_unfold.
  - reflexivity.
  - cbn [Nat.ltb Nat.leb orb]. unfold backtrace_step.
    cbn [Nat.ltb Nat.leb Nat.eqb andb orb]. replace (S i - 1)%nat with i by lia.
    cbn [fst snd rev].
    rewrite IH by lia. rewrite firstn_succ_token by lia.
    now rewrite map_app.
Qed.

Lemma Kind_eqb_refl k : Kind_eqb k k = true.
Proof. now destruct k. Qed.

(** Segments of one type merge into one. *)
Lemma merge_same k l t :
  fold_left merge_step (List.map (Segment k) l) [Segment k t]
  = [Segment k (t ++ concat l)].
Proof.
  revert t; induction l as [|x l IH]; intros t; simpl.
  - now rewrite app_nil_r.
  - unfold merge_step at 2. simpl. rewrite Kind_eqb_refl. simpl.
    now rewrite IH, app_assoc.
Qed.

Lemma merge_all_same k l :
  fold_left merge_step (List.map (Segment k) l) []
  = match l with
    | [] => []
    | _ :: _ => [Segment k (concat l)]
    end.
Proof.
  destruct l as [|x l]; [reflexivity|].
  cbn [List.map fold_left]. unfold merge_step at 2. cbn [rev app].
  now rewrite merge_same.
Qed.

Lemma tokenize_concat text : concat (tokenize text) = text.
Proof. rewrite TokenFacts.tokenize_runs_eq. apply TokenFacts.runs_concat. Qed.

Lemma tokenize_nonempty text : text <> [] -> tokenize text <> [].
Proof. intros H E. apply H. now rewrite <- (tokenize_concat text), E. Qed.

End ScriptFacts.

(** X3.  The diff of a text with itself is one [equal] segment that holds the
    whole text; for the empty text it has no segment. *)
Theorem diff_identical (t : jsstring) :
  computeWordDiff t t = match t with [] => [] | _ :: _ => [Segment equal t] end.
Proof.
  unfold computeWordDiff.
  rewrite ScriptFacts.backtrace_diagonal by lia.
  rewrite firstn_all, ScriptFacts.merge_all_same, ScriptFacts.tokenize_concat.
  destruct t as [|c t]; [reflexivity|].
  pose proof (ScriptFacts.tokenize_nonempty (c :: t)) as H.
  destruct (tokenize (c :: t)); [now exfalso; apply H|reflexivity].
Qed.

(** X4.  Against the empty text: the diff from the empty text to [t] is one
    [insert] segment that holds [t], the diff from [t] to the empty text
    one [delete] segment that holds [t], and both are empty when [t] is. *)
Theorem diff_against_empty (t : jsstring) :
  computeWordDiff [] t = match t with [] => [] | _ :: _ => [Segment insert t] end /\
  computeWordDiff t [] = match t with [] => [] | _ :: _ => [Segment delete t] end.
Proof.
  unfold computeWordDiff. change (tokenize []) with (@nil jsstring).
  cbn [length].
  rewrite ScriptFacts.backtrace_inserts, ScriptFacts.backtrace_deletes by lia.
  rewrite firstn_all, !ScriptFacts.merge_all_same, ScriptFacts.tokenize_concat.
  destruct t as [|c t]; [split; reflexivity|].
  pose proof (ScriptFacts.tokenize_nonempty (c :: t)) as H.
  destruct (tokenize (c :: t)); [now exfalso; apply H|split; reflexivity].
Qed.

Module MergeFacts.
Import DiffFacts.

Lemma types_alternate_snoc l s :
  types_alternate (l ++ [s]) <->
  types_alternate l /\ match rev l with last :: _ => type last <> type s | [] => True end.
Proof.
  induction l as [|x l IH]; [simpl; tauto|].
  destruct l as [|y l].
  - simpl. tauto.
  - change (types_alternate ((x :: y :: l) ++ [s]))
      with (type x <> type y /\ types_alternate ((y :: l) ++ [s])).
    change (types_alternate (x :: y :: l))
      with (type x <> type y /\ types_alternate (y :: l)).
    rewrite IH.
    assert (R : forall A (z : A) (u : list A), u <> [] ->
                match u ++ [z] with h :: _ => Some h | [] => None end
                = match u with h :: _ => Some h | [] => None end).
    { intros A z [|h u] Hu; [congruence|reflexivity]. }
    assert (N : rev (y :: l) <> []).
    { simpl. destruct (rev l); discriminate. }
    change (rev (x :: y :: l)) with (rev (y :: l) ++ [x]).
    specialize (R _ x (rev (y :: l)) N).
    destruct (rev (y :: l)) as [|h u]; [congruence|].
    simpl. tauto.
Qed.

Definition merged_ok (l : list DiffSegment) : Prop :=
  types_alternate l /\ Forall (fun s => text s <> []) l.

Lemma merge_step_ok merged seg :
  merged_ok merged -> text seg <> [] -> merged_ok (merge_step merged seg).
Proof.
  intros [Ha Hn] Hs. unfold merge_step.
  destruct (rev merged) as [|last front] eqn:E.
  - assert (merged = []) as ->.
    { rewrite <- (rev_involutive merged), E. reflexivity. }
    split; [exact I|]. repeat constructor. exact Hs.
  - assert (M : merged = rev front ++ [last]).
    { rewrite <- (rev_involutive merged), E. reflexivity. }
    subst merged.
    apply types_alternate_snoc in Ha. destruct Ha as [Ha1 Ha2].
    apply Forall_app in Hn. destruct Hn as [Hn1 Hn2].
    destruct (Kind_eqb (type last) (type seg)) eqn:K.
    + split.
      * apply types_alternate_snoc. split; [exact Ha1|exact Ha2].
      * apply Forall_app. split; [exact Hn1|]. repeat constructor. simpl.
        inversion Hn2; subst. destruct (text last); [congruence|discriminate].
    + split.
      * apply types_alternate_snoc. split.
        -- apply types_alternate_snoc. split; assumption.
        -- rewrite rev_app_distr. simpl.
           intros T. rewrite T in K. destruct (type seg); discriminate.
      * apply Forall_app. split; [|repeat constructor; exact Hs].
        apply Forall_app. split; assumption.
Qed.

Lemma merge_ok diff :
  forall acc, merged_ok acc -> Forall (fun s => text s <> []) diff ->
              merged_ok (fold_left merge_step diff acc).
Proof.
  induction diff as [|s diff IH]; intros acc Hacc Hd; simpl; [exact Hacc|].
  inversion Hd; subst. apply IH; [|assumption]. now apply merge_step_ok.
Qed.

Lemma token_In (a : list jsstring) i :
  (0 < i <= length a)%nat -> In (token a (i - 1)) a.
Proof. intros H. unfold token. apply nth_In. lia. Qed.

(** Every segment of the script carries a token of one of the texts. *)
Lemma backtrace_tokens a b dp i j :
  (i <= length a)%nat -> (j <= length b)%nat ->
  Forall (fun s => In (text s) a \/ In (text s) b) (backtrace a b dp i j).
Proof.
  funelim (backtrace a b dp i j); intros Hi Hj; [|constructor].
  clear H0 Heqcall. revert H. unfold backtrace_step.
  destruct ((0 <? i)%nat && (0 <? j)%nat && JS.eqb (token a (i - 1)) (token b (j - 1))) eqn:E1;
    [|destruct ((0 <? j)%nat && ((i =? 0)%nat || (tableAt dp (i - 1) j <=? tableAt dp i (j - 1))%N)) eqn:E2];
    simpl; intros IH.
  - apply andb_true_iff in E1. destruct E1 as [E1 E3].
    apply andb_true_iff in E1. destruct E1 as [E1 E2].
    apply Nat.ltb_lt in E1, E2.
    constructor; [left; apply token_In; lia|apply IH; lia].
  - apply andb_true_iff in E2. destruct E2 as [E2 _]. apply Nat.ltb_lt in E2.
    constructor; [right; apply token_In; lia|apply IH; lia].
  - assert (0 < i)%nat.
    { destruct i; [|lia]. destruct j; simpl in *; try discriminate. }
    constructor; [left; apply token_In; lia|apply IH; lia].
Qed.

Lemma tokens_nonempty text t : In t (tokenize text) -> t <> [].
Proof.
  intros H. rewrite TokenFacts.tokenize_runs_eq in H.
  pose proof (TokenFacts.runs_are_runs text) as F.
  rewrite Forall_forall in F. specialize (F t H).
  intros ->. discriminate.
Qed.

End MergeFacts.

(** X5.  The diff reproduces both texts: the [equal] and [delete] segments of
    [computeWordDiff original refined], concatenated in order, are
    [original], and its [equal] and [insert] segments are [refined]. *)
Theorem diff_reconstructs (original refined : jsstring) :
  original_side (computeWordDiff original refined) = original /\
  refined_side (computeWordDiff original refined) = refined.
Proof.
  unfold computeWordDiff, original_side, refined_side.
  set (a := tokenize original). set (b := tokenize refined).
  destruct (DiffFacts.backtrace_sides a b (lcsTable a b) (length a) (length b)
              (Nat.le_refl _) (Nat.le_refl _)) as [H1 H2].
  split.
  - rewrite DiffFacts.side_merge, H1, firstn_all.
    + apply ScriptFacts.tokenize_concat.
    + intros s t E. unfold on_original. now rewrite E.
  - rewrite DiffFacts.side_merge, H2, firstn_all.
    + apply ScriptFacts.tokenize_concat.
    + intros s t E. unfold on_refined. now rewrite E.
Qed.

(** X6.  The segments of [computeWordDiff] are merged as far as they can be:
    no two neighbouring segments have the same type, and no segment has
    an empty text. *)
Theorem diff_segments_merged (original refined : jsstring) :
  types_alternate (computeWordDiff original refined) /\
  Forall (fun s => text s <> []) (computeWordDiff original refined).
Proof.
  unfold computeWordDiff. apply MergeFacts.merge_ok.
  - split; [exact I|constructor].
  - apply Forall_rev.
    pose proof (MergeFacts.backtrace_tokens (tokenize original) (tokenize refined)
                  (lcsTable (tokenize original) (tokenize refined))
                  (length (tokenize original)) (length (tokenize refined))
                  (Nat.le_refl _) (Nat.le_refl _)) as F.
    eapply Forall_impl; [|exact F].
    intros s [H|H]; eapply MergeFacts.tokens_nonempty; exact H.
Qed.

Module LcsFacts.
Import DiffFacts ScriptFacts.

(** *** Subsequences *)

Lemma Subseq_nil_l (A : Type) (l : list A) : Subseq [] l.
Proof. induction l; constructor; assumption. Qed.

Lemma Subseq_refl (A : Type) (l : list A) : Subseq l l.
Proof. induction l; constructor; assumption. Qed.

Lemma Subseq_length (A : Type) (c l : list A) : Subseq c l -> (length c <= length l)%nat.
Proof. induction 1; simpl; lia. Qed.

Lemma Subseq_app (A : Type) (c1 l1 c2 l2 : list A) :
  Subseq c1 l1 -> Subseq c2 l2 -> Subseq (c1 ++ c2) (l1 ++ l2).
Proof.
  induction 1; intros H2; simpl;
    [assumption|apply Subseq_skip; auto|apply Subseq_take; auto].
Qed.

Lemma Subseq_app_r (A : Type) (c l l' : list A) : Subseq c l -> Subseq c (l ++ l').
Proof.
  intros H. rewrite <- (app_nil_r c). apply Subseq_app; [exact H|apply Subseq_nil_l].
Qed.

Lemma Subseq_snoc_inv (A : Type) (c l : list A) (x : A) :
  Subseq c (l ++ [x]) ->
  Subseq c l \/ exists c', c = c' ++ [x] /\ Subseq c' l.
Proof.
  revert c; induction l as [|y l IH]; intros c H; simpl in H.
  - inversion H as [|? ? ? H1|? ? ? H1]; subst.
    + inversion H1; subst. left. constructor.
    + inversion H1; subst. right. exists []. split; [reflexivity|constructor].
  - inversion H as [|? ? ? H1|? ? ? H1]; subst.
    + destruct (IH _ H1) as [H2|(c' & -> & H2)].
      * left. now constructor.
      * right. exists c'. split; [reflexivity|now constructor].
    + destruct (IH _ H1) as [H2|(c' & -> & H2)].
      * left. now constructor.
      * right. exists (y :: c'). split; [reflexivity|now constructor].
Qed.

Lemma Subseq_removelast (A : Type) (c l : list A) (x : A) :
  Subseq c (l ++ [x]) -> Subseq (removelast c) l.
Proof.
  intros H. destruct (Subseq_snoc_inv _ _ _ _ H) as [H1|(c' & -> & H1)].
  - clear H. induction H1.
    + constructor.
    + now constructor.
    + destruct c as [|y c]; [apply Subseq_nil_l|].
      change (removelast (x0 :: y :: c)) with (x0 :: removelast (y :: c)).
      now constructor.
  - now rewrite removelast_last.
Qed.

Lemma length_removelast_le (A : Type) (c : list A) :
  (length c <= S (length (removelast c)))%nat.
Proof.
  induction c as [|x c IH]; simpl; [lia|]. destruct c; simpl in *; lia.
Qed.

(** *** The recurrence *)

Lemma lcs_length_0_r a b i : lcs_length a b i 0 = 0%nat.
Proof. destruct i; reflexivity. Qed.

Lemma lcs_length_S a b i j :
  lcs_length a b (S i) (S j)
  = if JS.eqb (token a i) (token b j) then S (lcs_length a b i j)
    else Nat.max (lcs_length a b i (S j)) (lcs_length a b (S i) j).
Proof. reflexivity. Qed.

Lemma lcs_length_le a b i j : (lcs_length a b i j <= Nat.min i j)%nat.
Proof.
  revert j; induction i as [|i IHi]; intros j; [simpl; lia|].
  induction j as [|j IHj]; [rewrite lcs_length_0_r; lia|].
  rewrite lcs_length_S. destruct (JS.eqb _ _).
  - specialize (IHi j). lia.
  - specialize (IHi (S j)). lia.
Qed.

(** No common subsequence is longer. *)
Lemma lcs_length_upper a b i :
  forall j c,
  (i <= length a)%nat -> (j <= length b)%nat ->
  Subseq c (firstn i a) -> Subseq c (firstn j b) ->
  (length c <= lcs_length a b i j)%nat.
Proof.
  induction i as [|i IHi]; intros j c Hi Hj Ha Hb.
  - simpl in Ha. inversion Ha; subst. simpl. lia.
  - induction j as [|j IHj].
    + simpl in Hb. inversion Hb; subst. simpl. lia.
    + rewrite lcs_length_S.
      rewrite firstn_succ_token in Ha by lia.
      rewrite firstn_succ_token in Hb by lia.
      destruct (JS.eqb (token a i) (token b j)) eqn:E.
      * pose proof (Subseq_removelast _ _ _ _ Ha) as Ha'.
        pose proof (Subseq_removelast _ _ _ _ Hb) as Hb'.
        pose proof (IHi j (removelast c) ltac:(lia) ltac:(lia) Ha' Hb').
        pose proof (length_removelast_le _ c). lia.
      * destruct (Subseq_snoc_inv _ _ _ _ Ha) as [Ha'|(c' & -> & Ha')].
        -- rewrite <- firstn_succ_token in Hb by lia.
           pose proof (IHi (S j) c ltac:(lia) ltac:(lia) Ha' Hb). lia.
        -- destruct (Subseq_snoc_inv _ _ _ _ Hb) as [Hb'|(c'' & Ec & Hb')].
           ++ pose proof (IHj ltac:(lia) Hb'). lia.
           ++ apply app_inj_tail in Ec. destruct Ec as [_ Ec].
              apply eqb_eq in Ec. congruence.
Qed.

(** Some common subsequence is that long. *)
Lemma lcs_length_reached a b i :
  forall j,
  (i <= length a)%nat -> (j <= length b)%nat ->
  exists c, Subseq c (firstn i a) /\ Subseq c (firstn j b)
            /\ length c = lcs_length a b i j.
Proof.
  induction i as [|i IHi]; intros j Hi Hj.
  - exists []. repeat split; apply Subseq_nil_l.
  - induction j as [|j IHj].
    + exists []. rewrite lcs_length_0_r. repeat split; apply Subseq_nil_l.
    + rewrite lcs_length_S.
      destruct (JS.eqb (token a i) (token b j)) eqn:E.
      * destruct (IHi j ltac:(lia) ltac:(lia)) as (c & H1 & H2 & H3).
        exists (c ++ [token a i]).
        rewrite !firstn_succ_token by lia.
        split; [|split].
        -- apply Subseq_app; [exact H1|apply Subseq_refl].
        -- apply eqb_eq in E. rewrite E.
           apply Subseq_app; [exact H2|apply Subseq_refl].
        -- rewrite length_app. simpl. lia.
      * destruct (Nat.max_spec (lcs_length a b i (S j)) (lcs_length a b (S i) j))
          as [[_ M]|[_ M]]; rewrite M.
        -- destruct (IHj ltac:(lia)) as (c & H1 & H2 & H3).
           exists c. split; [exact H1|split; [|exact H3]].
           rewrite firstn_succ_token by lia. now apply Subseq_app_r.
        -- destruct (IHi (S j) ltac:(lia) ltac:(lia)) as (c & H1 & H2 & H3).
           exists c. split; [|split; [exact H2|exact H3]].
           rewrite firstn_succ_token by lia. now apply Subseq_app_r.
Qed.

(** *** The table *)

Lemma length_list_set (A : Type) (l : list A) k v : length (list_set l k v) = length l.
Proof. revert k; induction l as [|x l IH]; intros [|k]; simpl; auto. Qed.

Lemma nth_list_set (A : Type) (l : list A) k k' v d :
  nth k' (list_set l k v) d
  = if (k' =? k)%nat && (k <? length l)%nat then v else nth k' l d.
Proof.
  revert k k'; induction l as [|x l IH]; intros k k'.
  - simpl. destruct k; rewrite andb_false_r; reflexivity.
  - destruct k as [|k], k' as [|k']; simpl; try reflexivity.
    rewrite IH. reflexivity.
Qed.

Lemma tableAt_tableSet dp i j v r c :
  tableAt (tableSet dp i j v) r c
  = if (r =? i)%nat && (c =? j)%nat && (i <? length dp)%nat
       && (j <? length (nth i dp []))%nat
    then (v mod 65536)%N else tableAt dp r c.
Proof.
  unfold tableAt, tableSet. rewrite nth_list_set.
  destruct (r =? i)%nat eqn:Er; cbn [andb]; [|reflexivity].
  apply Nat.eqb_eq in Er. subst r.
  destruct (i <? length dp)%nat eqn:Ei; cbn [andb].
  - rewrite nth_list_set. rewrite andb_true_r.
    destruct (c =? j)%nat; cbn [andb]; reflexivity.
  - rewrite andb_false_r. reflexivity.
Qed.

Section Table.
Variables a b : list jsstring.
Hypothesis small : (N.of_nat (Nat.min (length a) (length b)) < 65536)%N.

Local Abbreviation m := (length a).
Local Abbreviation n := (length b).
Local Abbreviation L := (lcs_length a b).

(** Rows below [i] are complete, row [i] is complete up to column [j],
    and every other cell still holds zero. *)
Definition filled (dp : table) (i j : nat) : Prop :=
  length dp = S m /\
  (forall r, (r <= m)%nat -> length (nth r dp []) = S n) /\
  (forall r c, (r <= m)%nat -> (c <= n)%nat ->
     tableAt dp r c
     = if (r <? i)%nat || ((r =? i)%nat && (c <=? j)%nat)
       then N.of_nat (L r c) else 0%N).

Lemma filled_init : filled (repeat (repeat 0%N (n + 1)) (m + 1)) 1 0.
Proof.
  split; [|split].
  - rewrite repeat_length. lia.
  - intros r Hr. rewrite nth_repeat_lt by lia.
    rewrite repeat_length. lia.
  - intros r c Hr Hc. unfold tableAt.
    rewrite nth_repeat_lt by lia. rewrite nth_repeat_lt by lia.
    destruct r as [|[|r]]; simpl.
    + reflexivity.
    + destruct c; reflexivity.
    + reflexivity.
Qed.

Lemma filled_cell dp i j :
  (1 <= i <= m)%nat -> (j < n)%nat ->
  filled dp i j -> filled (lcsCell a b dp i (S j)) i (S j).
Proof.
  intros Hi Hj (D1 & D2 & F).
  destruct i as [|i]; [lia|].
  unfold lcsCell. replace (S i - 1)%nat with i by lia.
  replace (S j - 1)%nat with j by lia.
  rewrite (F i j), (F i (S j)), (F (S i) j) by lia.
  replace (i <? S i)%nat with true by (symmetry; apply Nat.ltb_lt; lia).
  replace (S i <? S i)%nat with false by (symmetry; apply Nat.ltb_ge; lia).
  rewrite Nat.eqb_refl, Nat.leb_refl. cbn [orb andb].
  set (v := if JS.eqb (token a i) (token b j)
            then (N.of_nat (L i j) + 1)%N
            else N.max (N.of_nat (L i (S j))) (N.of_nat (L (S i) j))).
  assert (V : v = N.of_nat (L (S i) (S j))).
  { unfold v. rewrite lcs_length_S. destruct (JS.eqb _ _); lia. }
  assert (W : (v mod 65536 = v)%N).
  { apply N.mod_small. rewrite V.
    pose proof (lcs_length_le a b (S i) (S j)). lia. }
  split; [|split].
  - unfold tableSet. now rewrite length_list_set.
  - intros r Hr. unfold tableSet. rewrite nth_list_set.
    destruct ((r =? S i)%nat && (S i <? length dp)%nat) eqn:E.
    + rewrite length_list_set. apply D2. lia.
    + now apply D2.
  - intros r c Hr Hc. rewrite tableAt_tableSet, W, (F r c Hr Hc).
    rewrite D1, (D2 (S i)) by lia.
    replace (S i <? S m)%nat with true by (symmetry; apply Nat.ltb_lt; lia).
    replace (S j <? S n)%nat with true by (symmetry; apply Nat.ltb_lt; lia).
    rewrite !andb_true_r.
    destruct (r =? S i)%nat eqn:Er; cbn [andb].
    + apply Nat.eqb_eq in Er. subst r.
      replace (S i <? S i)%nat with false by (symmetry; apply Nat.ltb_ge; lia).
      cbn [orb].
      destruct (c =? S j)%nat eqn:Ec.
      * apply Nat.eqb_eq in Ec. subst c. now rewrite Nat.leb_refl.
      * apply Nat.eqb_neq in Ec.
        destruct (c <=? j)%nat eqn:C1.
        -- apply Nat.leb_le in C1.
           replace (c <=? S j)%nat with true by (symmetry; apply Nat.leb_le; lia).
           reflexivity.
        -- apply Nat.leb_gt in C1.
           replace (c <=? S j)%nat with false by (symmetry; apply Nat.leb_gt; lia).
           reflexivity.
    + reflexivity.
Qed.

Lemma filled_row dp i : forall k j,
  (1 <= i <= m)%nat -> (j + k <= n)%nat ->
  filled dp i j ->
  filled (fold_left (fun dp j => lcsCell a b dp i j) (seq (S j) k) dp) i (j + k).
Proof.
  intros k; revert dp. induction k as [|k IH]; intros dp j Hi Hj F.
  - simpl. now rewrite Nat.add_0_r.
  - cbn [seq fold_left]. replace (j + S k)%nat with (S j + k)%nat by lia.
    apply IH; [lia|lia|]. apply filled_cell; [lia|lia|exact F].
Qed.

Lemma filled_next dp i : filled dp i n -> filled dp (S i) 0.
Proof.
  intros (D1 & D2 & F). split; [exact D1|split; [exact D2|]].
  intros r c Hr Hc. rewrite (F r c Hr Hc).
  destruct (Nat.lt_trichotomy r i) as [H|[H|H]].
  - replace (r <? i)%nat with true by (symmetry; apply Nat.ltb_lt; lia).
    replace (r <? S i)%nat with true by (symmetry; apply Nat.ltb_lt; lia).
    reflexivity.
  - subst r. rewrite Nat.eqb_refl.
    replace (i <? i)%nat with false by (symmetry; apply Nat.ltb_ge; lia).
    replace (i <? S i)%nat with true by (symmetry; apply Nat.ltb_lt; lia).
    replace (c <=? n)%nat with true by (symmetry; apply Nat.leb_le; lia).
    reflexivity.
  - replace (r <? i)%nat with false by (symmetry; apply Nat.ltb_ge; lia).
    replace (r =? i)%nat with false by (symmetry; apply Nat.eqb_neq; lia).
    replace (r <? S i)%nat with false by (symmetry; apply Nat.ltb_ge; lia).
    cbn [orb andb].
    destruct (r =? S i)%nat eqn:Er; [|reflexivity].
    destruct c; cbn [Nat.leb andb]; [|reflexivity].
    now rewrite lcs_length_0_r.
Qed.

Lemma filled_rows : forall k i dp,
  (i + k <= m)%nat ->
  filled dp (S i) 0 ->
  filled (fold_left (fun dp i => fold_left (fun dp j => lcsCell a b dp i j) (seq 1 n) dp)
                    (seq (S i) k) dp)
         (S (i + k)) 0.
Proof.
  induction k as [|k IH]; intros i dp Hk F.
  - simpl. now rewrite Nat.add_0_r.
  - cbn [seq fold_left]. replace (i + S k)%nat with (S i + k)%nat by lia.
    apply IH; [lia|]. apply filled_next.
    apply (filled_row dp (S i) n 0); [lia|lia|exact F].
Qed.

(** Every cell of the finished table holds the length of a longest
    common subsequence of the two prefixes. *)
Lemma lcsTable_cells r c :
  (r <= m)%nat -> (c <= n)%nat ->
  tableAt (lcsTable a b) r c = N.of_nat (L r c).
Proof.
  intros Hr Hc. unfold lcsTable.
  destruct (filled_rows m 0 _ (Nat.le_refl _) filled_init) as (_ & _ & F).
  rewrite (F r c Hr Hc).
  replace (r <? S (0 + m))%nat with true by (symmetry; apply Nat.ltb_lt; lia).
  reflexivity.
Qed.

End Table.

(** *** The backtrace over a correct table *)

Lemma kept_tokens_app s1 s2 : kept_tokens (s1 ++ s2) = kept_tokens s1 ++ kept_tokens s2.
Proof. unfold kept_tokens. now rewrite filter_app, map_app. Qed.

Lemma backtrace_keeps a b dp i j :
  (forall r c, (r <= length a)%nat -> (c <= length b)%nat ->
               tableAt dp r c = N.of_nat (lcs_length a b r c)) ->
  (i <= length a)%nat -> (j <= length b)%nat ->
  Subseq (kept_tokens (rev (backtrace a b dp i j))) (firstn i a) /\
  Subseq (kept_tokens (rev (backtrace a b dp i j))) (firstn j b) /\
  length (kept_tokens (rev (backtrace a b dp i j))) = lcs_length a b i j.
Proof.
  intros T. funelim (backtrace a b dp i j); intros Hi Hj.
  - clear H0 Heqcall. revert H. unfold backtrace_step.
    destruct ((0 <? i)%nat && (0 <? j)%nat && JS.eqb (token a (i - 1)) (token b (j - 1))) eqn:E1;
      [|destruct ((0 <? j)%nat && ((i =? 0)%nat || (tableAt dp (i - 1) j <=? tableAt dp i (j - 1))%N)) eqn:E2];
      simpl; intros IH.
    + apply andb_true_iff in E1. destruct E1 as [E1 E3].
      apply andb_true_iff in E1. destruct E1 as [E1 E2].
      apply Nat.ltb_lt in E1, E2.
      destruct (IH T) as (H1 & H2 & H3); [lia|lia|].
      destruct i as [|i]; [lia|]. destruct j as [|j]; [lia|].
      replace (S i - 1)%nat with i in * by lia.
      replace (S j - 1)%nat with j in * by lia.
      rewrite kept_tokens_app. unfold kept_tokens at 2 4 6. cbn [filter type Kind_eqb List.map text].
      rewrite !firstn_succ_token by lia. rewrite lcs_length_S, E3.
      split; [|split].
      * apply Subseq_app; [exact H1|apply Subseq_refl].
      * apply eqb_eq in E3. rewrite E3.
        apply Subseq_app; [exact H2|apply Subseq_refl].
      * rewrite length_app. simpl. lia.
    + apply andb_true_iff in E2. destruct E2 as [E2 E3]. apply Nat.ltb_lt in E2.
      destruct (IH T) as (H1 & H2 & H3); [lia|lia|].
      destruct j as [|j]; [lia|].
      replace (S j - 1)%nat with j in * by lia.
      rewrite kept_tokens_app. unfold kept_tokens at 2 4 6. cbn [filter type Kind_eqb List.map text].
      rewrite !app_nil_r.
      split; [exact H1|split].
      * rewrite firstn_succ_token by lia. now apply Subseq_app_r.
      * rewrite H3. destruct i as [|i]; [reflexivity|].
        rewrite lcs_length_S.
        replace (S i - 1)%nat with i in * by lia.
        cbn [Nat.ltb Nat.leb andb Nat.eqb orb] in E1, E3.
        rewrite E1.
        rewrite (T i (S j)), (T (S i) j) in E3 by lia.
        apply N.leb_le in E3. lia.
    + assert (0 < i)%nat.
      { destruct i; [|lia]. destruct j; simpl in *; try discriminate. }
      destruct (IH T) as (H1 & H2 & H3); [lia|lia|].
      destruct i as [|i]; [lia|].
      replace (S i - 1)%nat with i in * by lia.
      rewrite kept_tokens_app. unfold kept_tokens at 2 4 6. cbn [filter type Kind_eqb List.map text].
      rewrite !app_nil_r.
      split; [|split; [exact H2|]].
      * rewrite firstn_succ_token by lia. now apply Subseq_app_r.
      * rewrite H3. destruct j as [|j]; [now rewrite !lcs_length_0_r|].
        rewrite lcs_length_S.
        replace (S j - 1)%nat with j in * by lia.
        cbn [Nat.ltb Nat.leb andb Nat.eqb orb] in E1, E2.
        rewrite E1.
        rewrite (T i (S j)), (T (S i) j) in E2 by lia.
        apply N.leb_gt in E2. lia.
  - destruct (orb_false_elim _ _ e) as [e1 e2].
    apply Nat.ltb_ge in e1, e2.
    replace i with 0%nat by lia. replace j with 0%nat by lia. simpl.
    repeat split; constructor.
Qed.

End LcsFacts.

(** X7.  When the shorter of the two token lists has fewer than 65536 tokens
    (so that no entry of the Uint16Array wraps around), entry [(i, j)]
    of [lcsTable a b] is the length of a longest common subsequence of
    the first [i] tokens of [a] and the first [j] tokens of [b]: a
    common subsequence of that length exists and none is longer. *)
Theorem lcsTable_longest_common (a b : list jsstring) (i j : nat) :
  (N.of_nat (Nat.min (length a) (length b)) < 65536)%N ->
  (i <= length a)%nat -> (j <= length b)%nat ->
  (exists c, Subseq c (firstn i a) /\ Subseq c (firstn j b)
             /\ tableAt (lcsTable a b) i j = N.of_nat (length c)) /\
  (forall c, Subseq c (firstn i a) -> Subseq c (firstn j b) ->
             (N.of_nat (length c) <= tableAt (lcsTable a b) i j)%N).
Proof.
  intros Hs Hi Hj. rewrite (LcsFacts.lcsTable_cells a b Hs i j Hi Hj). split.
  - destruct (LcsFacts.lcs_length_reached a b i j Hi Hj) as (c & H1 & H2 & H3).
    exists c. rewrite H3. auto.
  - intros c H1 H2.
    pose proof (LcsFacts.lcs_length_upper a b i j c Hi Hj H1 H2). lia.
Qed.

Lemma lcsTable_longest_common_witness :
  (exists c, Subseq c (firstn 3 (tokenize (str "a b")))
             /\ Subseq c (firstn 5 (tokenize (str "a c b")))
             /\ tableAt (lcsTable (tokenize (str "a b")) (tokenize (str "a c b"))) 3 5
                = N.of_nat (length c)) /\
  (forall c, Subseq c (firstn 3 (tokenize (str "a b")))
             -> Subseq c (firstn 5 (tokenize (str "a c b")))
             -> (N.of_nat (length c)
                 <= tableAt (lcsTable (tokenize (str "a b")) (tokenize (str "a c b"))) 3 5)%N).
Proof.
  apply (lcsTable_longest_common (tokenize (str "a b")) (tokenize (str "a c b")) 3 5).
  - vm_compute. reflexivity.
  - vm_compute. lia.
  - vm_compute. lia.
Defined.

(** X8.  Under the same bound, the tokens that the backtrace of
    [computeWordDiff] keeps as [equal] are a common subsequence of the
    two token lists, and no common subsequence is longer: the diff
    deletes and inserts as few tokens as possible. *)
Theorem diff_keeps_longest_common (original refined : jsstring) :
  let a := tokenize original in
  let b := tokenize refined in
  let script := rev (backtrace a b (lcsTable a b) (length a) (length b)) in
  (N.of_nat (Nat.min (length a) (length b)) < 65536)%N ->
  Subseq (kept_tokens script) a /\
  Subseq (kept_tokens script) b /\
  (forall c, Subseq c a -> Subseq c b -> (length c <= length (kept_tokens script))%nat).
Proof.
  intros a b script Hs.
  destruct (LcsFacts.backtrace_keeps a b (lcsTable a b) (length a) (length b)
              (LcsFacts.lcsTable_cells a b Hs) (Nat.le_refl _) (Nat.le_refl _))
    as (H1 & H2 & H3).
  rewrite !firstn_all in *.
  split; [exact H1|split; [exact H2|]].
  intros c Ha Hb. fold script in H3. rewrite H3.
  apply LcsFacts.lcs_length_upper; rewrite ?firstn_all; auto.
Qed.

Lemma diff_keeps_longest_common_witness :
  let a := tokenize (str "a b") in
  let b := tokenize (str "a c b") in
  let script := rev (backtrace a b (lcsTable a b) (length a) (length b)) in
  Subseq (kept_tokens script) a /\
  Subseq (kept_tokens script) b /\
  (forall c, Subseq c a -> Subseq c b -> (length c <= length (kept_tokens script))%nat).
Proof.
  apply (diff_keeps_longest_common (str "a b") (str "a c b")).
  vm_compute. reflexivity.
Defined.


(* ------------------------------------------------------------------ *)
(** ** ResponseParser: the lower priorities *)

Module PriorityFacts.
Import ListFacts RegexFacts TrimFacts ParserFacts.

(** The pair pattern finds the first closed pair: its capture is the
    inner content, trimmed, and the match ends where the closing tag
    ends. *)
Lemma pair_capture_span O C raw inner :
  match C with x :: _ => is_space (to_upper x) = false | [] => False end ->
  pair_inner O C raw = Some inner ->
  exists m tail,
    String_match true (pair_pattern O C) raw = Some m /\
    group 1 m = trim inner /\
    pair_tail O C raw = Some tail /\
    substring_from raw (index m + length (matched m)) = tail.
Proof.
  intros HC. unfold pair_inner, pair_tail.
  destruct (first_index true O raw) as [i|] eqn:FO; [|discriminate].
  cbv zeta.
  destruct (first_index true C (skipn (i + length O) raw)) as [j|] eqn:FC; [|discriminate].
  intros H. injection H as Hinner.
  destruct (first_index_at _ _ _ _ FO) as [PO Hi].
  destruct (lit_prefix_split _ _ _ PO) as (o & rest0 & Eo & Ho).
  pose proof (canonical_length _ _ _ Ho) as Lo.
  assert (Erest : skipn (i + length O) raw = rest0).
  { rewrite Nat.add_comm, <- skipn_skipn, Eo, <- Lo. apply skipn_app_exact. }
  rewrite Erest in *.
  destruct (first_index_at _ _ _ _ FC) as [PC Hj].
  destruct (lit_prefix_split _ _ _ PC) as (c & post & Ec & Hc).
  pose proof (canonical_length _ _ _ Hc) as Lc.
  set (pre := firstn i raw).
  assert (Lpre : length pre = i) by (unfold pre; rewrite length_firstn; lia).
  assert (Linner : length inner = j) by (subst inner; rewrite length_firstn; lia).
  assert (Erest0 : rest0 = inner ++ c ++ post).
  { rewrite <- (firstn_skipn j rest0) at 1. rewrite Hinner. f_equal. exact Ec. }
  assert (Eraw : raw = pre ++ o ++ inner ++ c ++ post).
  { rewrite <- (firstn_skipn i raw) at 1. fold pre. f_equal. rewrite Eo. f_equal.
    exact Erest0. }
  destruct (trim_split inner) as (w1 & w2 & Ei & Hw1 & Hw2 & T & Tw).
  exists (MatchResult i (o ++ inner ++ c) [(1%nat, trim inner)]), post.
  split; [|split; [reflexivity|split]].
  - unfold String_match. rewrite Eraw at 1.
    rewrite exec_from_pass.
    + replace (o ++ inner ++ c ++ post) with ((o ++ inner ++ c) ++ post)
        by (now rewrite <- !app_assoc).
      rewrite (exec_from_here true _ _ _ _ [(1%nat, trim inner)]).
      * rewrite app_nil_r, length_rev, Lpre. reflexivity.
      * rewrite <- !app_assoc. rewrite Ei at 1.
        apply pair_match_intro; auto.
        rewrite <- Ei. intros k Hk. rewrite <- Erest0.
        apply (first_index_before _ _ _ _ FC). lia.
    + intros p1 p2 Ep Hp2.
      destruct (match_here true (pair_pattern O C) (rev p1 ++ []) (p2 ++ o ++ inner ++ c ++ post))
        as [[suf' caps]|] eqn:M; [|reflexivity].
      apply pair_match_inv in M. destruct M as [M _].
      assert (L : (length p1 < i)%nat).
      { rewrite <- Lpre, Ep, length_app. destruct p2; [congruence|simpl; lia]. }
      pose proof (first_index_before _ _ _ _ FO _ L) as F.
      rewrite Eraw, Ep, <- app_assoc, skipn_app_exact in F. congruence.
  - f_equal. rewrite Erest0, <- Linner, <- Lc.
    replace (inner ++ c ++ post) with ((inner ++ c) ++ post) by (now rewrite <- app_assoc).
    rewrite <- length_app. apply skipn_app_exact.
  - cbn [index matched]. unfold substring_from. rewrite Eraw at 1.
    replace (pre ++ o ++ inner ++ c ++ post) with ((pre ++ o ++ inner ++ c) ++ post)
      by (now rewrite <- !app_assoc).
    rewrite <- Lpre, <- length_app. apply skipn_app_exact.
Qed.

Lemma first_index_no_head ci x l s :
  forallb (fun c => negb (char_match ci x c)) s = true ->
  first_index ci (x :: l) s = None.
Proof.
  induction s as [|c s IH]; intros H; cbn [first_index lit_prefix].
  - reflexivity.
  - cbn [forallb] in H. apply andb_true_iff in H. destruct H as [H1 H2].
    apply negb_true_iff in H1. rewrite H1. cbn [andb]. now rewrite IH.
Qed.

Lemma no_bracket_no_head ci s :
  forallb (fun c => negb (c =? LBRACKET)%N) s = true ->
  forallb (fun c => negb (char_match ci LBRACKET c)) s = true.
Proof.
  intros H. rewrite forallb_forall in *. intros c Hc. specialize (H c Hc).
  apply negb_true_iff in H. apply negb_true_iff. apply N.eqb_neq in H.
  unfold char_match, canonicalize. apply N.eqb_neq.
  destruct ci; [|now intros E; apply H].
  unfold to_upper, LBRACKET in *. cbn.
  destruct (is_lower c) eqn:L; [|now intros E; apply H].
  unfold is_lower, between in L. apply andb_true_iff in L. destruct L as [L1 L2].
  apply N.leb_le in L1, L2. lia.
Qed.

Lemma trim_is_tight s : tight (trim s).
Proof. destruct (trim_split s) as (w1 & w2 & _ & _ & _ & T & _). exact T. Qed.

Lemma trim_no_bracket s :
  forallb (fun c => negb (c =? LBRACKET)%N) s = true ->
  forallb (fun c => negb (c =? LBRACKET)%N) (trim s) = true.
Proof.
  intros H. destruct (trim_split s) as (w1 & w2 & E & _).
  rewrite E, !forallb_app in H.
  apply andb_true_iff in H. destruct H as [_ H].
  apply andb_true_iff in H. now destruct H.
Qed.

End PriorityFacts.

(** X9.  The second priority of [parseChangelog].  When the reply has no
    closed [REFINED] pair but a closed [CHANGELOG] pair, the changelog is
    the trimmed text between the first opening tag and the first closing
    tag behind it; the refined text is what follows that closing tag,
    trimmed and with the stray markers removed, or, when nothing but
    white space follows, the whole reply treated so. *)
Theorem parse_changelog_pair (raw inner tail : jsstring) :
  pair_inner (str "[REFINED]") (str "[/REFINED]") raw = None ->
  pair_inner (str "[CHANGELOG]") (str "[/CHANGELOG]") raw = Some inner ->
  pair_tail (str "[CHANGELOG]") (str "[/CHANGELOG]") raw = Some tail ->
  changelog (parseChangelog raw) = Some (trim inner) /\
  (trim tail <> [] ->
   refined (parseChangelog raw) = trim (remove_markers (trim tail))) /\
  (trim tail = [] ->
   refined (parseChangelog raw) = trim (remove_markers (trim raw))).
Proof.
  intros H1 H2 H3.
  destruct (PriorityFacts.pair_capture_span (str "[CHANGELOG]") (str "[/CHANGELOG]")
              raw inner eq_refl H2) as (m & tail' & M & G & T & S).
  rewrite H3 in T. injection T as <-.
  unfold parseChangelog, extract.
  rewrite ParserFacts.re_refined_shape, (ParserFacts.pair_capture_none _ _ _ H1).
  rewrite ParserFacts.re_changelog_shape, M, G, S, TrimFacts.trim_idempotent.
  cbn [changelog refined].
  split; [reflexivity|]. split; intros Ht.
  - unfold falsy, or_empty. destruct (trim tail); [congruence|reflexivity].
  - now rewrite Ht.
Qed.

Lemma parse_changelog_pair_witness :
  changelog (parseChangelog (str "note [changelog] - x [/changelog] Hello. "))
  = Some (trim (str " - x ")) /\
  (trim (str " Hello. ") <> [] ->
   refined (parseChangelog (str "note [changelog] - x [/changelog] Hello. "))
   = trim (remove_markers (trim (str " Hello. ")))) /\
  (trim (str " Hello. ") = [] ->
   refined (parseChangelog (str "note [changelog] - x [/changelog] Hello. "))
   = trim (remove_markers (trim (str "note [changelog] - x [/changelog] Hello. ")))).
Proof.
  apply (parse_changelog_pair (str "note [changelog] - x [/changelog] Hello. ")
                              (str " - x ") (str " Hello. ")).
  - vm_compute. reflexivity.
  - vm_compute. reflexivity.
  - vm_compute. reflexivity.
Defined.

(** X10.  A reply in which no opening bracket occurs has no changelog, and its
    refined text is the reply, trimmed. *)
Theorem parse_plain_reply (raw : jsstring) :
  forallb (fun c => negb (c =? LBRACKET)%N) raw = true ->
  parseChangelog raw = {| changelog := None; refined := trim raw |}.
Proof.
  intros H.
  pose proof (PriorityFacts.no_bracket_no_head true raw H) as Hh.
  unfold parseChangelog, extract.
  rewrite ParserFacts.re_refined_shape, ParserFacts.re_changelog_shape.
  rewrite !ParserFacts.pair_capture_none.
  - assert (U : String_match true re_unclosed raw = None).
    { unfold String_match, re_unclosed. cbn [sequence].
      apply RegexFacts.exec_from_absent. exact Hh. }
    rewrite U. cbn [falsy]. f_equal.
    rewrite ParserFacts.remove_markers_free.
    + apply TrimFacts.trim_idempotent.
    + unfold re_markers. cbn [sequence]. apply RegexFacts.test_absent.
      apply PriorityFacts.no_bracket_no_head. now apply PriorityFacts.trim_no_bracket.
  - unfold pair_inner. change (str "[CHANGELOG]") with (LBRACKET :: str "CHANGELOG]").
    now rewrite (PriorityFacts.first_index_no_head true _ _ raw Hh).
  - unfold pair_inner. change (str "[REFINED]") with (LBRACKET :: str "REFINED]").
    now rewrite (PriorityFacts.first_index_no_head true _ _ raw Hh).
Qed.

Lemma parse_plain_reply_witness :
  parseChangelog (str "  Hello there.  ")
  = {| changelog := None; refined := trim (str "  Hello there.  ") |}.
Proof.
  apply (parse_plain_reply (str "  Hello there.  ")). vm_compute. reflexivity.
Defined.

(** X11.  Whatever the reply, the refined text that [parseChangelog] returns
    has no white space at either end, and neither has the changelog
    when there is one. *)
Theorem parse_fields_trimmed (raw : jsstring) :
  tight (refined (parseChangelog raw)) /\
  match changelog (parseChangelog raw) with
  | Some log => tight log
  | None => True
  end.
Proof.
  unfold parseChangelog, extract.
  destruct (String_match true re_refined raw) as [m1|].
  - destruct (String_match true re_changelog raw) as [m2|]; cbn [changelog refined];
      split; auto using PriorityFacts.trim_is_tight.
  - destruct (String_match true re_changelog raw) as [m2|].
    + cbn [changelog refined]. split; apply PriorityFacts.trim_is_tight.
    + destruct (String_match true re_unclosed raw) as [m3|].
      * destruct (search false re_blank (group 1 m3)) as [k|]; cbn [changelog refined];
          split; auto using PriorityFacts.trim_is_tight.
      * cbn [changelog refined]. split; auto using PriorityFacts.trim_is_tight.
Qed.

Module UnclosedFacts.
Import ListFacts RegexFacts TrimFacts ParserFacts.

(** A greedy repetition backtracks to any split its continuation
    accepts. *)
Lemma star_greedy_some ci cl k pre m rest caps r :
  forallb (cls_match ci cl) m = true ->
  k (rev m ++ pre) rest caps = Some r ->
  exists r', star_greedy ci cl k pre (m ++ rest) caps = Some r'.
Proof.
  revert pre; induction m as [|c m IH]; intros pre Hm Hk; simpl in *.
  - destruct rest as [|c rest]; simpl; [eauto|].
    destruct (cls_match ci cl c); [|eauto].
    destruct (star_greedy ci cl k (c :: pre) rest caps); eauto.
  - apply andb_true_iff in Hm. destruct Hm as [Hc Hm]. rewrite Hc.
    rewrite <- app_assoc in Hk. destruct (IH (c :: pre) Hm Hk) as (r' & E).
    rewrite E. eauto.
Qed.

Lemma take_while_app p m r :
  forallb p m = true -> take_while p (m ++ r) = m ++ take_while p r.
Proof.
  induction m as [|c m IH]; intros H; simpl in *; [reflexivity|].
  apply andb_true_iff in H. destruct H as [H1 H2]. now rewrite H1, IH.
Qed.

Lemma take_while_split p s x :
  In x (take_while p s) ->
  exists m rest, s = m ++ x :: rest /\ forallb p m = true.
Proof.
  induction s as [|c s IH]; simpl; [contradiction|].
  destruct (p c) eqn:E; [|contradiction].
  intros [->|H].
  - exists [], s. auto.
  - destruct (IH H) as (m & rest & -> & Hm). exists (c :: m), rest.
    simpl. now rewrite E, Hm.
Qed.

Lemma LF_is_space : is_space LF = true.
Proof. reflexivity. Qed.

(** Where [/\n\s*\n/] matches. *)
Lemma blank_here pre c s :
  (exists res, match_here false re_blank pre (c :: s) = Some res) <->
  (c =? LF)%N && existsb (N.eqb LF) (take_while is_space s) = true.
Proof.
  unfold match_here, re_blank. cbn [sequence run].
  rewrite lit_eq. cbn [lit_prefix length firstn skipn rev app].
  rewrite andb_true_r. unfold char_match at 1. unfold canonicalize. rewrite N.eqb_sym.
  destruct (c =? LF)%N eqn:Ec; cbn [andb].
  - split.
    + intros (res & H).
      apply star_greedy_inv in H. destruct H as (m & rest & -> & Hm & H).
      rewrite forallb_space_class in Hm.
      rewrite lit_eq in H.
      destruct (lit_prefix false [LF] rest) eqn:P; [|discriminate].
      destruct rest as [|d rest]; [discriminate|].
      cbn [lit_prefix] in P. rewrite andb_true_r in P.
      unfold char_match, canonicalize in P. apply N.eqb_eq in P. subst d.
      rewrite take_while_app by exact Hm. rewrite existsb_app.
      cbn [take_while]. rewrite LF_is_space. cbn [existsb].
      rewrite N.eqb_refl. cbn [orb]. apply orb_true_r.
    + intros H. apply existsb_exists in H. destruct H as (x & Hin & Hx).
      apply N.eqb_eq in Hx. subst x.
      destruct (take_while_split _ _ _ Hin) as (m & rest & -> & Hm).
      apply (star_greedy_some false space _ (c :: pre) m (LF :: rest) [] (rest, [])).
      * now rewrite forallb_space_class.
      * cbn [lit]. unfold char_match, canonicalize. now rewrite N.eqb_refl.
  - split; [intros (res & H); discriminate H|intros H; discriminate H].
Qed.

Lemma search_blank_from s : forall pre,
  option_map index (exec_from false re_blank pre s)
  = option_map (Nat.add (length pre)) (blank_line s).
Proof.
  induction s as [|c s IH]; intros pre.
  - reflexivity.
  - cbn [exec_from blank_line].
    destruct ((c =? LF)%N && existsb (N.eqb LF) (take_while is_space s)) eqn:B.
    + apply blank_here with (pre := pre) in B. destruct B as (res & B).
      rewrite B. destruct res. cbn. f_equal. lia.
    + destruct (match_here false re_blank pre (c :: s)) as [res|] eqn:M.
      * assert (X : exists res, match_here false re_blank pre (c :: s) = Some res) by eauto.
        apply blank_here in X. congruence.
      * rewrite IH. destruct (blank_line s); cbn; [f_equal; lia|reflexivity].
Qed.

Lemma search_blank s : search false re_blank s = blank_line s.
Proof.
  unfold search, String_match. rewrite search_blank_from.
  destruct (blank_line s); reflexivity.
Qed.

(** The lazy repetition of [[\s\S]] in front of [$] runs to the end. *)
Lemma star_lazy_to_end ci k pre suf caps r :
  (forall p, k p [] caps = Some r) ->
  (forall p x s, k p (x :: s) caps = None) ->
  star_lazy ci space_or_not k pre suf caps = Some r.
Proof.
  intros K1 K2. revert pre; induction suf as [|x suf IH]; intros pre; simpl.
  - now rewrite K1.
  - rewrite K2, CaseFacts.any_class. apply IH.
Qed.


(** [/\[CHANGELOG\]\s*([\s\S]*?)$/i] at an opening tag: the match runs
    to the end of the reply and captures what follows the tag, without
    the white space in front. *)
Lemma unclosed_here pre o rest :
  List.map (canonicalize true) o = List.map (canonicalize true) (str "[CHANGELOG]") ->
  match_here true re_unclosed pre (o ++ rest) = Some ([], [(1%nat, trimStart rest)]).
Proof.
  intros Ho. unfold match_here, re_unclosed. cbn [sequence run].
  rewrite lit_step by exact Ho.
  destruct (trimStart_split rest) as (w & E & Hw).
  rewrite E at 1.
  erewrite star_greedy_max with (m := w); [reflexivity| | |].
  - now rewrite forallb_space_class.
  - pose proof (trimStart_head rest) as Hh.
    destruct (trimStart rest); [exact I|]. now rewrite space_class.
  - cbn [run].
    apply star_lazy_to_end.
    + intros p. unfold accept. now rewrite Nat.sub_0_r, firstn_all.
    + reflexivity.
Qed.

Lemma unclosed_inv pre suf res :
  match_here true re_unclosed pre suf = Some res ->
  lit_prefix true (str "[CHANGELOG]") suf = true.
Proof.
  unfold match_here, re_unclosed. cbn [sequence run]. rewrite lit_eq.
  destruct (lit_prefix true (str "[CHANGELOG]") suf); [reflexivity|discriminate].
Qed.

(** The pattern finds the first opening tag. *)
Lemma unclosed_capture raw i :
  first_index true (str "[CHANGELOG]") raw = Some i ->
  exists m, String_match true re_unclosed raw = Some m /\
            group 1 m = trimStart (skipn (i + 11) raw).
Proof.
  intros FO.
  destruct (first_index_at _ _ _ _ FO) as [PO Hi].
  destruct (lit_prefix_split _ _ _ PO) as (o & rest & Eo & Ho).
  pose proof (canonical_length _ _ _ Ho) as Lo.
  assert (Erest : skipn (i + 11) raw = rest).
  { rewrite Nat.add_comm, <- skipn_skipn, Eo.
    change 11%nat with (length (str "[CHANGELOG]")). rewrite <- Lo.
    apply skipn_app_exact. }
  rewrite Erest.
  set (pre := firstn i raw).
  assert (Lpre : length pre = i) by (unfold pre; rewrite length_firstn; lia).
  assert (Eraw : raw = pre ++ o ++ rest).
  { rewrite <- (firstn_skipn i raw) at 1. fold pre. now rewrite Eo. }
  exists (MatchResult i (o ++ rest) [(1%nat, trimStart rest)]).
  split; [|reflexivity].
  unfold String_match. rewrite Eraw at 1.
  rewrite exec_from_pass.
  - pose proof (exec_from_here true re_unclosed (rev pre ++ []) (o ++ rest) []
                  [(1%nat, trimStart rest)]) as X.
    rewrite (app_nil_r (o ++ rest)) in X. rewrite X.
    + rewrite app_nil_r, length_rev, Lpre. reflexivity.
    + now apply unclosed_here.
  - intros p1 p2 Ep Hp2.
    destruct (match_here true re_unclosed (rev p1 ++ []) (p2 ++ o ++ rest))
      as [res|] eqn:M; [|reflexivity].
    apply unclosed_inv in M.
    assert (L : (length p1 < i)%nat).
    { rewrite <- Lpre, Ep, length_app. destruct p2; [congruence|simpl; lia]. }
    pose proof (first_index_before _ _ _ _ FO _ L) as F.
    rewrite Eraw, Ep, <- app_assoc, skipn_app_exact in F. congruence.
Qed.

End UnclosedFacts.

(** X12.  The third priority of [parseChangelog].  When the reply has no
    closed pair of either kind but a [CHANGELOG] tag, the text behind the
    first such tag, without its leading white space, is split at its
    first blank line: what stands before is the changelog, trimmed; what
    stands behind is the refined text, trimmed and with the stray
    markers removed, or, when that is blank, the whole reply treated so.
    Without a blank line there is no changelog and the refined text is
    the whole reply, trimmed and with the markers removed. *)
Theorem parse_changelog_unclosed (raw : jsstring) (i : nat) :
  pair_inner (str "[REFINED]") (str "[/REFINED]") raw = None ->
  pair_inner (str "[CHANGELOG]") (str "[/CHANGELOG]") raw = None ->
  first_index true (str "[CHANGELOG]") raw = Some i ->
  let remainder := trimStart (skipn (i + 11) raw) in
  match blank_line remainder with
  | Some k =>
      changelog (parseChangelog raw) = Some (trim (firstn k remainder)) /\
      (trim (skipn k remainder) <> [] ->
       refined (parseChangelog raw) = trim (remove_markers (trim (skipn k remainder)))) /\
      (trim (skipn k remainder) = [] ->
       refined (parseChangelog raw) = trim (remove_markers (trim raw)))
  | None =>
      parseChangelog raw
      = {| changelog := None; refined := trim (remove_markers (trim raw)) |}
  end.
Proof.
  intros H1 H2 H3 remainder.
  destruct (UnclosedFacts.unclosed_capture raw i H3) as (m & M & G).
  fold remainder in G.
  unfold parseChangelog, extract.
  rewrite ParserFacts.re_refined_shape, (ParserFacts.pair_capture_none _ _ _ H1).
  rewrite ParserFacts.re_changelog_shape, (ParserFacts.pair_capture_none _ _ _ H2).
  rewrite M, G, UnclosedFacts.search_blank.
  destruct (blank_line remainder) as [k|]; [|reflexivity].
  unfold substring, substring_from. rewrite Nat.sub_0_r. cbn [skipn changelog refined].
  split; [reflexivity|]. split; intros Ht.
  - unfold falsy, or_empty. destruct (trim (skipn k remainder)); [congruence|reflexivity].
  - now rewrite Ht.
Qed.

Lemma parse_changelog_unclosed_witness :
  let raw := str "ok [Changelog]  - fixed typo" ++ [LF; 32%N; LF] ++ str "Hello there." in
  let remainder := trimStart (skipn (3 + 11) raw) in
  match blank_line remainder with
  | Some k =>
      changelog (parseChangelog raw) = Some (trim (firstn k remainder)) /\
      (trim (skipn k remainder) <> [] ->
       refined (parseChangelog raw) = trim (remove_markers (trim (skipn k remainder)))) /\
      (trim (skipn k remainder) = [] ->
       refined (parseChangelog raw) = trim (remove_markers (trim raw)))
  | None =>
      parseChangelog raw
      = {| changelog := None; refined := trim (remove_markers (trim raw)) |}
  end.
Proof.
  apply (parse_changelog_unclosed
           (str "ok [Changelog]  - fixed typo" ++ [LF; 32%N; LF] ++ str "Hello there.") 3).
  - vm_compute. reflexivity.
  - vm_compute. reflexivity.
  - vm_compute. reflexivity.
Defined.


(* ------------------------------------------------------------------ *)
(** ** PovDetector: the verdicts *)

Module PovFacts.

Ltac comparisons :=
  repeat match goal with
         | H : (_ <? _)%N = true |- _ => apply N.ltb_lt in H
         | H : (_ <? _)%N = false |- _ => apply N.ltb_ge in H
         end.

End PovFacts.

(** X13.  Every verdict of [detectPov] is borne out by the counts (each below
    2^32, as an array length is).  A verdict is given only from three
    pronouns on.  [1st+2nd] means that the first and the second person
    each hold more than a fifth of them; a single person is returned
    only when it is strictly the most frequent and [1st+2nd] does not
    apply; and [null] means fewer than three pronouns, or that no person
    is strictly the most frequent while [1st+2nd] does not apply. *)
Theorem detectPov_verdicts (toLowerCase : jsstring -> jsstring) (text : jsstring) :
  let lower := toLowerCase text in
  let first := count re_first lower in
  let second := count re_second lower in
  let third := count re_third lower in
  let total := (first + second + third)%N in
  (first < 2 ^ 32)%N -> (second < 2 ^ 32)%N -> (third < 2 ^ 32)%N ->
  match detectPov toLowerCase text with
  | Some FirstAndSecond => (3 <= total /\ total < 5 * first /\ total < 5 * second)%N
  | Some First =>
      (3 <= total /\ second < first /\ third < first /\ 5 * second <= total)%N
  | Some Second =>
      (3 <= total /\ first < second /\ third < second /\ 5 * first <= total)%N
  | Some Third =>
      (3 <= total /\ first < third /\ second < third
       /\ (5 * first <= total \/ 5 * second <= total))%N
  | None =>
      (total < 3)%N \/
      ((5 * first <= total \/ 5 * second <= total)%N /\
       (first <= second \/ first <= third)%N /\
       (second <= first \/ second <= third)%N /\
       (third <= first \/ third <= second)%N)
  end.
Proof.
  intros lower first second third total H1 H2 H3. unfold detectPov.
  fold lower. fold first. fold second. fold third. fold total.
  destruct (total <? 3)%N eqn:T; PovFacts.comparisons; [now left|].
  assert (B : (0 < total < 2 ^ 34)%N).
  { unfold total in *. change (2 ^ 34)%N with (4 * 2 ^ 32)%N. lia. }
  rewrite !FloatFacts.above_fifth_exact by assumption.
  destruct (total <? 5 * first)%N eqn:A1, (total <? 5 * second)%N eqn:A2,
           (second <? first)%N eqn:C1, (third <? first)%N eqn:C2,
           (first <? second)%N eqn:D1, (third <? second)%N eqn:D2,
           (first <? third)%N eqn:F1, (second <? third)%N eqn:F2;
    cbn [andb]; PovFacts.comparisons;
    try (exfalso; lia);
    first [ right; repeat split; lia | repeat split; lia ].
Qed.

Lemma detectPov_verdicts_witness :
  let lower := ascii_lower (str "She saw him and they left.") in
  let first := count re_first lower in
  let second := count re_second lower in
  let third := count re_third lower in
  let total := (first + second + third)%N in
  match detectPov ascii_lower (str "She saw him and they left.") with
  | Some FirstAndSecond => (3 <= total /\ total < 5 * first /\ total < 5 * second)%N
  | Some First =>
      (3 <= total /\ second < first /\ third < first /\ 5 * second <= total)%N
  | Some Second =>
      (3 <= total /\ first < second /\ third < second /\ 5 * first <= total)%N
  | Some Third =>
      (3 <= total /\ first < third /\ second < third
       /\ (5 * first <= total \/ 5 * second <= total))%N
  | None =>
      (total < 3)%N \/
      ((5 * first <= total \/ 5 * second <= total)%N /\
       (first <= second \/ first <= third)%N /\
       (second <= first \/ second <= third)%N /\
       (third <= first \/ third <= second)%N)
  end.
Proof.
  apply (detectPov_verdicts ascii_lower (str "She saw him and they left."));
    vm_compute; reflexivity.
Defined.


(* ------------------------------------------------------------------ *)
(** ** RulesCompiler, the chat and the custom-rules panel *)

Module RulesFacts.
Import Rules.

Lemma filter_none (A : Type) (p : A -> bool) (l : list A) :
  (forall x, In x l -> p x = false) -> filter p l = [].
Proof.
  induction l as [|x l IH]; intros H; simpl; [reflexivity|].
  rewrite (H x (or_introl eq_refl)). apply IH. intros y Hy. apply H. now right.
Qed.

End RulesFacts.

(** X14.  When no built-in rule is switched on and no custom rule is active,
    [compileRules] returns the fallback rule alone, numbered 1. *)
Theorem compileRules_fallback (settings : Rules.Settings) :
  (forall key, Rules.builtInRules settings key = false) ->
  (forall rule, In rule (Rules.customRules settings) -> Rules.active rule = false) ->
  Rules.compileRules settings = str "1. Improve the overall quality of the message".
Proof.
  intros Hb Hc. unfold Rules.compileRules.
  rewrite (RulesFacts.filter_none _ _ Rules.BUILTIN_RULES) by (intros x _; apply Hb).
  rewrite (RulesFacts.filter_none _ _ (Rules.customRules settings)) by exact Hc.
  reflexivity.
Qed.

Lemma compileRules_fallback_witness :
  Rules.compileRules
    {| Rules.builtInRules := fun _ => false;
       Rules.customRules := [ {| Rules.rule_label := VUndefined; Rules.text := str "be brief"; Rules.enabled := false |};
                              {| Rules.rule_label := VUndefined; Rules.text := str "  "; Rules.enabled := true |} ] |}
  = str "1. Improve the overall quality of the message".
Proof.
  apply compileRules_fallback.
  - reflexivity.
  - intros rule [<-|[<-|[]]]; reflexivity.
Defined.

(** X15.  A custom rule that is switched off, or whose text is blank, leaves
    no trace in the compiled rules: they are those of the settings
    without that rule, numbering included. *)
Theorem compileRules_skips_inactive
  (builtIn : Rules.RuleKey -> bool) (before after : list Rules.CustomRule)
  (rule : Rules.CustomRule) :
  Rules.enabled rule = false \/ forallb is_space (Rules.text rule) = true ->
  Rules.compileRules {| Rules.builtInRules := builtIn;
                        Rules.customRules := before ++ rule :: after |}
  = Rules.compileRules {| Rules.builtInRules := builtIn;
                          Rules.customRules := before ++ after |}.
Proof.
  intros H. unfold Rules.compileRules. cbn [Rules.builtInRules Rules.customRules].
  rewrite !filter_app. cbn [filter].
  assert (A : Rules.active rule = false).
  { unfold Rules.active. destruct H as [H|H].
    - now rewrite H.
    - apply TrimFacts.trim_nil_iff in H. rewrite H. apply andb_false_r. }
  now rewrite A.
Qed.

Lemma compileRules_skips_inactive_witness :
  Rules.compileRules
    {| Rules.builtInRules := fun _ => false;
       Rules.customRules := [ {| Rules.rule_label := VUndefined; Rules.text := str "be brief"; Rules.enabled := true |} ]
                            ++ {| Rules.rule_label := VUndefined; Rules.text := str " "; Rules.enabled := true |}
                            :: [ {| Rules.rule_label := VUndefined; Rules.text := str "no cliches"; Rules.enabled := true |} ] |}
  = Rules.compileRules
      {| Rules.builtInRules := fun _ => false;
         Rules.customRules := [ {| Rules.rule_label := VUndefined; Rules.text := str "be brief"; Rules.enabled := true |} ]
                              ++ [ {| Rules.rule_label := VUndefined; Rules.text := str "no cliches"; Rules.enabled := true |} ] |}.
Proof.
  apply compileRules_skips_inactive. right. reflexivity.
Defined.

Module ChatFacts.
Import Chat.

Lemma last_ai_below_spec chat : forall n,
  (n <= length chat)%nat ->
  (last_ai_below chat n = (-1)%Z /\
   forallb (fun m => negb (is_ai m)) (firstn n chat) = true) \/
  (exists i m, last_ai_below chat n = Z.of_nat i /\ (i < n)%nat /\
               nth_error chat i = Some m /\ is_ai m = true /\
               forallb (fun m => negb (is_ai m)) (skipn (S i) (firstn n chat)) = true).
Proof.
  induction n as [|n IH]; intros Hn.
  - left. split; reflexivity.
  - cbn [last_ai_below].
    destruct (nth_error chat n) as [m|] eqn:E.
    2:{ apply nth_error_None in E. lia. }
    assert (F : firstn (S n) chat = firstn n chat ++ [m]).
    { clear -E. revert n E. induction chat as [|x chat IHc]; intros [|n] E;
        simpl in *; try discriminate.
      - now inversion E.
      - f_equal. now apply IHc. }
    destruct (is_ai m) eqn:A.
    + right. exists n, m. split; [reflexivity|]. split; [lia|]. split; [exact E|].
      split; [exact A|].
      rewrite F. rewrite skipn_app, skipn_all2 by (rewrite length_firstn; lia).
      rewrite length_firstn.
      replace (S n - Nat.min n (length chat))%nat with 1%nat by lia. reflexivity.
    + destruct (IH ltac:(lia)) as [[H1 H2]|(i & m' & H1 & H2 & H3 & H4 & H5)].
      * left. split; [exact H1|]. rewrite F, forallb_app, H2. cbn [forallb andb].
        now rewrite A.
      * right. exists i, m'. split; [exact H1|]. split; [lia|]. split; [exact H3|].
        split; [exact H4|].
        rewrite F, skipn_app, forallb_app, H5. cbn [andb].
        destruct (S i - length (firstn n chat))%nat eqn:D; cbn [skipn forallb andb].
        -- now rewrite A.
        -- now destruct n0.
Qed.

End ChatFacts.

(** X16.  [findLastAiMessageIndex] returns -1 exactly when no message of the
    chat is an AI message (neither of the user nor of the system);
    otherwise it returns the index of an AI message behind which there
    is no other. *)
Theorem findLastAiMessageIndex_spec (chat : list Chat.Message) :
  (Chat.findLastAiMessageIndex (Some chat) = (-1)%Z /\
   forallb (fun m => negb (Chat.is_ai m)) chat = true) \/
  (exists i m, Chat.findLastAiMessageIndex (Some chat) = Z.of_nat i /\
               nth_error chat i = Some m /\ Chat.is_ai m = true /\
               forallb (fun m => negb (Chat.is_ai m)) (skipn (S i) chat) = true).
Proof.
  unfold Chat.findLastAiMessageIndex.
  destruct (ChatFacts.last_ai_below_spec chat (length chat) (Nat.le_refl _))
    as [[H1 H2]|(i & m & H1 & H2 & H3 & H4 & H5)]; rewrite firstn_all in *.
  - left. auto.
  - right. exists i, m. auto.
Qed.

Module PanelFacts.
Import Rules Panel.

Lemma filter_length_le (A : Type) (p : A -> bool) l : (length (filter p l) <= length l)%nat.
Proof. induction l as [|x l IH]; simpl; [lia|]. destruct (p x); simpl; lia. Qed.

Lemma filter_all (A : Type) (p : A -> bool) l :
  length (filter p l) = length l <-> forallb p l = true.
Proof.
  induction l as [|x l IH]; simpl; [tauto|].
  pose proof (filter_length_le A p l).
  destruct (p x); simpl.
  - rewrite <- IH. lia.
  - split; [lia|discriminate].
Qed.

Lemma filter_some (A : Type) (p : A -> bool) l :
  (0 < length (filter p l))%nat <-> existsb p l = true.
Proof.
  induction l as [|x l IH]; simpl; [split; [lia|discriminate]|].
  destruct (p x); simpl; [split; [reflexivity|lia]|exact IH].
Qed.

Lemma existsb_negb_forallb (A : Type) (p : A -> bool) l :
  existsb (fun x => negb (p x)) l = negb (forallb p l).
Proof. induction l as [|x l IH]; simpl; [reflexivity|]. rewrite IH. now destruct (p x). Qed.

Lemma filter_set_all enable rules :
  filter enabled (set_all enable rules) = if enable then set_all enable rules else [].
Proof.
  induction rules as [|r rules IH]; simpl; [now destruct enable|].
  rewrite IH. now destruct enable.
Qed.

Lemma length_set_all enable rules : length (set_all enable rules) = length rules.
Proof. apply length_map. Qed.

End PanelFacts.

(** X17.  The master toggle of the custom rules.  It is checked exactly when
    there are rules and all are enabled, indeterminate exactly when some
    rule is enabled and some is not, and never both; and after the
    master toggle has set every rule of a non-empty list to [enable],
    the toggle shows [enable] and is not indeterminate. *)
Theorem updateCustomRulesToggle_states (rules : list Rules.CustomRule) :
  let t := Panel.updateCustomRulesToggle rules in
  (Panel.checked t = true <-> rules <> [] /\ forallb Rules.enabled rules = true) /\
  (Panel.indeterminate t = true <->
   existsb Rules.enabled rules = true /\
   existsb (fun r => negb (Rules.enabled r)) rules = true) /\
  (Panel.checked t && Panel.indeterminate t = false) /\
  (forall enable, rules <> [] ->
     Panel.updateCustomRulesToggle (Panel.set_all enable rules)
     = {| Panel.checked := enable; Panel.indeterminate := false |}).
Proof.
  intros t. subst t. unfold Panel.updateCustomRulesToggle.
  destruct rules as [|r rules].
  - cbn. repeat split; try discriminate; try tauto.
  - set (l := r :: rules).
    pose proof (PanelFacts.filter_length_le _ Rules.enabled l) as Hle.
    pose proof (PanelFacts.filter_all _ Rules.enabled l) as Hall.
    pose proof (PanelFacts.filter_some _ Rules.enabled l) as Hsome.
    cbn [Panel.checked Panel.indeterminate].
    split; [|split; [|split]].
    + rewrite Nat.eqb_eq, Hall. split; [intros H; split; [discriminate|exact H]|tauto].
    + rewrite andb_true_iff, Nat.ltb_lt, Nat.ltb_lt, Hsome.
      rewrite PanelFacts.existsb_negb_forallb, negb_true_iff.
      split; intros [H1 H2]; (split; [exact H1|]).
      * destruct (forallb Rules.enabled l) eqn:F; [|reflexivity].
        apply (PanelFacts.filter_all _ Rules.enabled l) in F. lia.
      * destruct (Nat.eq_dec (length (filter Rules.enabled l)) (length l)) as [E|E]; [|lia].
        apply (PanelFacts.filter_all _ Rules.enabled l) in E. congruence.
    + destruct (length (filter Rules.enabled l) =? length l)%nat eqn:E; [|reflexivity].
      apply Nat.eqb_eq in E. rewrite E, Nat.ltb_irrefl. now rewrite andb_false_r.
    + intros enable _. unfold l.
      rewrite PanelFacts.filter_set_all, PanelFacts.length_set_all.
      destruct enable.
      * rewrite PanelFacts.length_set_all.
        rewrite Nat.eqb_refl, Nat.ltb_irrefl, andb_false_r. reflexivity.
      * reflexivity.
Qed.

Lemma updateCustomRulesToggle_states_witness :
  Panel.updateCustomRulesToggle
    (Panel.set_all true
       [ {| Rules.rule_label := VString (str "a"); Rules.text := str "Be brief.";
            Rules.enabled := true |};
         {| Rules.rule_label := VUndefined; Rules.text := str "No adverbs.";
            Rules.enabled := false |} ])
  = {| Panel.checked := true; Panel.indeterminate := false |}.
Proof.
  apply (proj2 (proj2 (proj2 (updateCustomRulesToggle_states
           [ {| Rules.rule_label := VString (str "a"); Rules.text := str "Be brief.";
                Rules.enabled := true |};
             {| Rules.rule_label := VUndefined; Rules.text := str "No adverbs.";
                Rules.enabled := false |} ])))).
  discriminate.
Defined.

Module ReorderFacts.
Import Rules Panel.

Lemma skipn_nth (A : Type) (i : nat) (l : list A) (x : A) :
  nth_error l i = Some x -> skipn i l = x :: skipn (S i) l.
Proof.
  revert i; induction l as [|y l IH]; intros [|i] H; simpl in *; try discriminate.
  - now inversion H.
  - now apply IH.
Qed.

Lemma splice_out_at (A : Type) (i : nat) (l : list A) (x : A) :
  nth_error l i = Some x ->
  splice_out i l = ([x], firstn i l ++ skipn (S i) l) /\
  l = firstn i l ++ x :: skipn (S i) l.
Proof.
  intros H. pose proof (skipn_nth _ _ _ _ H) as E. unfold splice_out. split.
  - now rewrite E.
  - rewrite <- E. symmetry. apply firstn_skipn.
Qed.

Lemma splice_in_at (A : Type) (i : nat) (x : A) (l : list A) :
  (i <= length l)%nat ->
  nth_error (splice_in i x l) i = Some x /\
  snd (splice_out i (splice_in i x l)) = l.
Proof.
  intros H. unfold splice_in, splice_out. cbn [snd].
  assert (L : length (firstn i l) = i) by (rewrite length_firstn; lia).
  split.
  - rewrite nth_error_app2 by lia. rewrite L, Nat.sub_diag. reflexivity.
  - rewrite firstn_app, L, Nat.sub_diag, firstn_firstn, Nat.min_id. cbn [firstn].
    rewrite app_nil_r.
    replace (S i) with (length (firstn i l ++ [x]))%nat by (rewrite length_app, L; simpl; lia).
    rewrite (ListFacts.app_cons_snoc _ (firstn i l) x (skipn i l)).
    rewrite ListFacts.skipn_app_exact. apply firstn_skipn.
Qed.

End ReorderFacts.

(** X18.  Dropping the rule at [fromIndex] onto the rule at [toIndex], both
    inside the list, moves it and nothing else: the rule ends up at
    [toIndex], the other rules keep their order, and the new list is a
    permutation of the old one. *)
Theorem drop_moves_one_rule (fromIndex toIndex : nat) (rules : list Rules.CustomRule) :
  (fromIndex < length rules)%nat -> (toIndex < length rules)%nat ->
  exists result moved,
    Panel.drop fromIndex toIndex rules = Some result /\
    nth_error rules fromIndex = Some moved /\
    nth_error result toIndex = Some moved /\
    snd (Panel.splice_out toIndex result) = snd (Panel.splice_out fromIndex rules) /\
    Permutation rules result.
Proof.
  intros Hf Ht.
  destruct (nth_error rules fromIndex) as [moved|] eqn:E.
  2:{ apply nth_error_None in E. lia. }
  unfold Panel.drop.
  destruct (fromIndex =? toIndex)%nat eqn:D.
  - apply Nat.eqb_eq in D. subst toIndex.
    exists rules, moved. repeat split; auto.
  - destruct (ReorderFacts.splice_out_at _ _ _ _ E) as [S1 S2].
    rewrite S1.
    set (rest := firstn fromIndex rules ++ skipn (S fromIndex) rules) in *.
    assert (L : length rules = S (length rest)).
    { rewrite S2 at 1. unfold rest. rewrite !length_app. simpl. lia. }
    destruct (ReorderFacts.splice_in_at _ toIndex moved rest ltac:(lia)) as [I1 I2].
    exists (Panel.splice_in toIndex moved rest), moved.
    split; [reflexivity|]. split; [reflexivity|]. split; [exact I1|].
    split; [exact I2|].
    assert (R : Permutation rules (moved :: rest)).
    { rewrite S2 at 1. symmetry. apply Permutation_middle. }
    rewrite R. unfold Panel.splice_in.
    pose proof (Permutation_middle (firstn toIndex rest) (skipn toIndex rest) moved) as P.
    now rewrite firstn_skipn in P.
Qed.

Lemma drop_moves_one_rule_witness :
  exists result moved,
    Panel.drop 0 2 [ {| Rules.rule_label := VUndefined; Rules.text := str "a"; Rules.enabled := true |};
                     {| Rules.rule_label := VUndefined; Rules.text := str "b"; Rules.enabled := false |};
                     {| Rules.rule_label := VUndefined; Rules.text := str "c"; Rules.enabled := true |} ] = Some result /\
    nth_error [ {| Rules.rule_label := VUndefined; Rules.text := str "a"; Rules.enabled := true |};
                {| Rules.rule_label := VUndefined; Rules.text := str "b"; Rules.enabled := false |};
                {| Rules.rule_label := VUndefined; Rules.text := str "c"; Rules.enabled := true |} ] 0 = Some moved /\
    nth_error result 2 = Some moved /\
    snd (Panel.splice_out 2 result)
    = snd (Panel.splice_out 0 [ {| Rules.rule_label := VUndefined; Rules.text := str "a"; Rules.enabled := true |};
                                  {| Rules.rule_label := VUndefined; Rules.text := str "b"; Rules.enabled := false |};
                                  {| Rules.rule_label := VUndefined; Rules.text := str "c"; Rules.enabled := true |} ]) /\
    Permutation [ {| Rules.rule_label := VUndefined; Rules.text := str "a"; Rules.enabled := true |};
                  {| Rules.rule_label := VUndefined; Rules.text := str "b"; Rules.enabled := false |};
                  {| Rules.rule_label := VUndefined; Rules.text := str "c"; Rules.enabled := true |} ] result.
Proof.
  apply (drop_moves_one_rule 0 2); simpl; lia.
Defined.


(* ------------------------------------------------------------------ *)
(** ** Moving custom rules *)

Module TransferFacts.
Import Rules Transfer.

Definition nonblank (s : jsstring) : bool :=
  match trim s with [] => false | _ :: _ => true end.

Lemma valid_exported r : valid_entry (exported_rule r) = nonblank (text r).
Proof.
  unfold valid_entry, exported_rule, field, get. cbn [truthy andb lookup String.eqb].
  cbn. unfold or_else, nonblank.
  destruct (text r) as [|c t] eqn:E; cbn [truthy].
  - reflexivity.
  - destruct (trim (c :: t)); reflexivity.
Qed.

Lemma imported_exported r :
  text (imported_rule (exported_rule r)) = trim (text r) /\
  enabled (imported_rule (exported_rule r)) = enabled r.
Proof.
  unfold imported_rule, exported_rule, field, get. cbn.
  unfold or_else. split.
  - destruct (text r); reflexivity.
  - now destruct (enabled r).
Qed.

Lemma active_nonblank r : active r = enabled r && nonblank (text r).
Proof.
  unfold active, nonblank. destruct (enabled r); cbn [andb]; [|reflexivity].
  destruct (text r) as [|c t]; reflexivity.
Qed.

Lemma nonblank_trim s : nonblank (trim s) = nonblank s.
Proof. unfold nonblank. now rewrite TrimFacts.trim_idempotent. Qed.

(** What [compileRules] takes from the custom rules. *)
Definition contribution (rules : list CustomRule) : list jsstring :=
  List.map (fun rule => trim (text rule)) (filter active rules).

Lemma contribution_round_trip rules :
  contribution (List.map imported_rule (filter valid_entry (List.map exported_rule rules)))
  = contribution rules.
Proof.
  unfold contribution.
  induction rules as [|r rules IH]; [reflexivity|].
  cbn [List.map filter]. rewrite valid_exported.
  destruct (imported_exported r) as [E1 E2].
  rewrite (active_nonblank r).
  destruct (nonblank (text r)) eqn:N.
  - cbn [List.map filter]. rewrite active_nonblank, E1, E2, nonblank_trim, N.
    rewrite andb_true_r.
    destruct (enabled r); cbn [List.map]; [|exact IH].
    now rewrite E1, TrimFacts.trim_idempotent, IH.
  - rewrite andb_false_r. exact IH.
Qed.

Lemma compileRules_contribution builtIn rules1 rules2 :
  contribution rules1 = contribution rules2 ->
  compileRules {| builtInRules := builtIn; customRules := rules1 |}
  = compileRules {| builtInRules := builtIn; customRules := rules2 |}.
Proof.
  intros H. unfold compileRules. cbn [builtInRules customRules].
  unfold contribution in H. now rewrite H.
Qed.

End TransferFacts.

(** X19.  Exporting a non-empty list of custom rules and importing the result
    with Replace (the file being read back to the object that was
    written) leaves the compiled rules as they were. *)
Theorem export_import_keeps_rules
  (builtIn : Rules.RuleKey -> bool) (rules : list Rules.CustomRule) :
  rules <> [] ->
  Rules.compileRules
    {| Rules.builtInRules := builtIn;
       Rules.customRules :=
         Transfer.importCustomRules (Transfer.exportCustomRules rules) true rules |}
  = Rules.compileRules {| Rules.builtInRules := builtIn; Rules.customRules := rules |}.
Proof.
  intros Hne. apply TransferFacts.compileRules_contribution.
  destruct rules as [|r rules]; [congruence|].
  unfold Transfer.exportCustomRules, Transfer.importCustomRules.
  cbn [get lookup String.eqb Ascii.eqb Bool.eqb].
  change (List.map Transfer.exported_rule (r :: rules))
    with (Transfer.exported_rule r :: List.map Transfer.exported_rule rules).
  change (Transfer.exported_rule r :: List.map Transfer.exported_rule rules)
    with (List.map Transfer.exported_rule (r :: rules)).
  pose proof (TransferFacts.contribution_round_trip (r :: rules)) as C.
  set (l := r :: rules) in *.
  assert (S : exists x xs, List.map Transfer.exported_rule l = x :: xs).
  { unfold l. cbn [List.map]. eauto. }
  destruct S as (x & xs & S). rewrite S in *. 
  destruct (List.map Transfer.imported_rule (filter Transfer.valid_entry (x :: xs)));
    [reflexivity|exact C].
Qed.

Lemma export_import_keeps_rules_witness :
  Rules.compileRules
    {| Rules.builtInRules := fun _ => false;
       Rules.customRules :=
         Transfer.importCustomRules
           (Transfer.exportCustomRules
              [ {| Rules.rule_label := VUndefined; Rules.text := str " be brief ";
                   Rules.enabled := true |};
                {| Rules.rule_label := VUndefined; Rules.text := str "  ";
                   Rules.enabled := true |} ])
           true
           [ {| Rules.rule_label := VUndefined; Rules.text := str " be brief ";
                Rules.enabled := true |};
             {| Rules.rule_label := VUndefined; Rules.text := str "  ";
                Rules.enabled := true |} ] |}
  = Rules.compileRules
      {| Rules.builtInRules := fun _ => false;
         Rules.customRules :=
           [ {| Rules.rule_label := VUndefined; Rules.text := str " be brief ";
                Rules.enabled := true |};
             {| Rules.rule_label := VUndefined; Rules.text := str "  ";
                Rules.enabled := true |} ] |}.
Proof.
  apply export_import_keeps_rules. discriminate.
Defined.

(** X20.  Whatever the file holds, every custom rule after [importCustomRules]
    is either one that was there before or has a non-empty text without
    white space at either end, so that it is active exactly when it is
    enabled. *)
Theorem import_adds_clean_rules
  (data : option value) (replace : bool) (customRules : list Rules.CustomRule)
  (rule : Rules.CustomRule) :
  In rule (Transfer.importCustomRules data replace customRules) ->
  In rule customRules \/
  (Rules.text rule <> [] /\ tight (Rules.text rule) /\
   Rules.active rule = Rules.enabled rule).
Proof.
  unfold Transfer.importCustomRules.
  destruct data as [data|]; [|now left].
  destruct (get data "rules") as [[| | | | |[|e es]|]|]; try (now left).
  set (imported := List.map Transfer.imported_rule (filter Transfer.valid_entry (e :: es))).
  assert (Clean : forall r, In r imported ->
            Rules.text r <> [] /\ tight (Rules.text r) /\ Rules.active r = Rules.enabled r).
  { intros r Hr. unfold imported in Hr. apply in_map_iff in Hr.
    destruct Hr as (v & <- & Hv). apply filter_In in Hv. destruct Hv as [_ Hv].
    unfold Transfer.valid_entry in Hv. apply andb_true_iff in Hv. destruct Hv as [_ Hv].
    unfold Transfer.imported_rule. cbn [Rules.text Rules.enabled].
    destruct (Transfer.field v "text") as [| | | |t| |]; try discriminate.
    cbn [truthy] in Hv.
    assert (N : trim t <> []) by (destruct (trim t); [discriminate|discriminate]).
    split; [exact N|]. split; [apply PriorityFacts.trim_is_tight|].
    unfold Rules.active. cbn [Rules.text Rules.enabled].
    rewrite TrimFacts.trim_idempotent.
    destruct (trim t); [congruence|]. now rewrite !andb_true_r. }
  intros H.
  destruct imported as [|i is_] eqn:E; [now left|].
  destruct customRules as [|c cs].
  - right. now apply Clean.
  - destruct replace.
    + right. now apply Clean.
    + apply in_app_or in H. destruct H as [H|H]; [now left|right; now apply Clean].
Qed.

Lemma import_adds_clean_rules_witness :
  In {| Rules.rule_label := VString []; Rules.text := str "be brief"; Rules.enabled := true |}
     [] \/
  (Rules.text {| Rules.rule_label := VString []; Rules.text := str "be brief";
                 Rules.enabled := true |} <> [] /\
   tight (Rules.text {| Rules.rule_label := VString []; Rules.text := str "be brief";
                        Rules.enabled := true |}) /\
   Rules.active {| Rules.rule_label := VString []; Rules.text := str "be brief";
                   Rules.enabled := true |}
   = Rules.enabled {| Rules.rule_label := VString []; Rules.text := str "be brief";
                      Rules.enabled := true |}).
Proof.
  apply (import_adds_clean_rules
           (Some (VObject [("rules"%string,
                            VArray [VObject [("text"%string, VString (str " be brief "))];
                                    VNull; VObject [("text"%string, VNumber (Number 3))]])]))
           false []).
  vm_compute. left. reflexivity.
Defined.


(* ------------------------------------------------------------------ *)
(** ** Refinement and undo *)

Module RefinerFacts.
Import Chat Refiner.
Local Open Scope Z_scope.

Lemma nth_error_list_set (A : Type) (l : list A) k v k' :
  nth_error (list_set l k v) k'
  = if (k' =? k)%nat && (k <? length l)%nat then Some v else nth_error l k'.
Proof.
  revert k k'; induction l as [|x l IH]; intros k k'.
  - simpl. destruct k; rewrite andb_false_r; reflexivity.
  - destruct k as [|k], k' as [|k']; simpl; try reflexivity. now rewrite IH.
Qed.

Lemma list_set_twice (A : Type) (l : list A) k v w :
  list_set (list_set l k v) k w = list_set l k w.
Proof.
  revert k; induction l as [|x l IH]; intros [|k]; simpl; try reflexivity.
  now rewrite IH.
Qed.

Lemma list_set_same (A : Type) (l : list A) k x :
  nth_error l k = Some x -> list_set l k x = l.
Proof.
  revert k; induction l as [|y l IH]; intros [|k] H; simpl in *; try discriminate.
  - now inversion H.
  - now rewrite IH.
Qed.

Lemma message_at_range chat i m :
  message_at chat i = Some m ->
  0 <= i < Z.of_nat (length chat) /\ nth_error chat (Z.to_nat i) = Some m.
Proof.
  unfold message_at. destruct (i <? 0) eqn:E; [discriminate|].
  apply Z.ltb_ge in E. intros H. split; [|exact H].
  assert (Z.to_nat i < length chat)%nat by (apply nth_error_Some; congruence). lia.
Qed.

Lemma message_at_set_mes chat i m text k :
  message_at chat i = Some m ->
  message_at (set_mes chat i text) k
  = if k =? i
    then Some {| mes := text; is_user := is_user m; is_system := is_system m |}
    else message_at chat k.
Proof.
  intros H. unfold set_mes. rewrite H.
  destruct (message_at_range _ _ _ H) as [R N].
  unfold message_at. destruct (k <? 0) eqn:K.
  - apply Z.ltb_lt in K. replace (k =? i) with false by (symmetry; apply Z.eqb_neq; lia).
    reflexivity.
  - apply Z.ltb_ge in K. rewrite nth_error_list_set.
    replace (Z.to_nat i <? length chat)%nat with true
      by (symmetry; apply Nat.ltb_lt; lia).
    rewrite andb_true_r.
    destruct (k =? i) eqn:E.
    + apply Z.eqb_eq in E. subst k. now rewrite Nat.eqb_refl.
    + apply Z.eqb_neq in E.
      replace (Z.to_nat k =? Z.to_nat i)%nat with false
        by (symmetry; apply Nat.eqb_neq; lia).
      reflexivity.
Qed.

Lemma set_mes_twice chat i m text1 text2 :
  message_at chat i = Some m ->
  set_mes (set_mes chat i text1) i text2 = set_mes chat i text2.
Proof.
  intros H. unfold set_mes at 1.
  rewrite (message_at_set_mes chat i m text1 i H), Z.eqb_refl.
  unfold set_mes. rewrite H. cbn [is_user is_system]. apply list_set_twice.
Qed.

Lemma set_mes_same chat i m :
  message_at chat i = Some m -> set_mes chat i (mes m) = chat.
Proof.
  intros H. unfold set_mes. rewrite H.
  destruct (message_at_range _ _ _ H) as [_ N].
  apply list_set_same. rewrite N. now destruct m.
Qed.

Lemma length_set_mes chat i text : length (set_mes chat i text) = length chat.
Proof.
  unfold set_mes. destruct (message_at chat i); [|reflexivity].
  apply LcsFacts.length_list_set.
Qed.

(** Past its guards [redraftMessage] is one of three updates. *)
Lemma redraftMessage_runs pluginMode run i st m :
  isRefining st = false ->
  message_at (chat st) i = Some m ->
  mes m <> [] ->
  (pluginMode = true -> pluginAvailable st = true) ->
  redraftMessage pluginMode run i st
  = {| chat := match run with
               | FailsEarly => chat st
               | FailsLate t | Completes t => set_mes (chat st) i (rewritten (mes m) t)
               end;
       redraft_originals := store (redraft_originals st) i (mes m);
       redraft_diffs :=
         match run with
         | Completes t =>
             store (redraft_diffs st) i
                   {| original := mes m;
                      saved_changelog := or_null (changelog (parseChangelog t)) |}
         | _ => redraft_diffs st
         end;
       isRefining := false;
       pluginAvailable := pluginAvailable st |}.
Proof.
  intros H1 H2 H3 H4. unfold redraftMessage. rewrite H1, H2.
  destruct (message_at_range _ _ _ H2) as [R _].
  replace (i <? 0) with false by (symmetry; apply Z.ltb_ge; lia).
  replace (Z.of_nat (length (chat st)) <=? i) with false by (symmetry; apply Z.leb_gt; lia).
  cbn [orb].
  destruct (mes m) as [|c t] eqn:E; [congruence|]. cbn [truthy negb].
  assert (G : pluginMode && negb (pluginAvailable st) = false).
  { destruct pluginMode; [|reflexivity]. now rewrite H4. }
  rewrite G. destruct run; reflexivity.
Qed.

Lemma undoRedraft_runs i st originalText m :
  redraft_originals st i = Some originalText ->
  originalText <> [] ->
  message_at (chat st) i = Some m ->
  undoRedraft i st
  = {| chat := set_mes (chat st) i originalText;
       redraft_originals := remove (redraft_originals st) i;
       redraft_diffs := remove (redraft_diffs st) i;
       isRefining := isRefining st;
       pluginAvailable := pluginAvailable st |}.
Proof.
  intros H1 H2 H3. unfold undoRedraft. rewrite H1, H3.
  destruct originalText; [congruence|reflexivity].
Qed.

(** Every stored block occurs in the restored text. *)
Lemma restore_includes text blocks block :
  In block blocks ->
  exists l r, restoreProtectedBlocks text blocks = l ++ block ++ r.
Proof.
  intros Hin. destruct (In_nth _ _ [] Hin) as (i & Hi & <-).
  rewrite ProtectorFacts.restoreProtectedBlocks_eq.
  destruct (includes text (placeholder i)) eqn:Hinc.
  - destruct (ProtectorFacts.includes_split _ _ Hinc) as (pre & post & E).
    assert (R : restore_placeholders text blocks
                = restore_placeholders pre blocks ++ nth i blocks []
                  ++ restore_placeholders post blocks).
    { rewrite E, ProtectorFacts.placeholder_shape.
      rewrite <- (app_assoc (str "[PROTECTED_")), <- app_assoc. cbn [app].
      change (93%N :: post) with (RBRACKET :: post).
      rewrite ProtectorFacts.restore_placeholders_token
        by auto using ProtectorFacts.number_toString_nonempty,
                      ProtectorFacts.number_toString_digits.
      unfold replacement_of.
      rewrite ProtectorFacts.parseInt_number_toString,
              ProtectorFacts.array_get_nth by assumption.
      reflexivity. }
    rewrite R.
    exists (restore_placeholders pre blocks),
           (restore_placeholders post blocks
            ++ appended text blocks (seq 0 (length blocks))).
    now rewrite <- !app_assoc.
  - assert (Sq : seq 0 (length blocks) = seq 0 i ++ seq (0 + i) (S (length blocks - S i))).
    { rewrite <- seq_app. f_equal. unfold jsstring in *. lia. }
    assert (A : appended text blocks (seq 0 (length blocks))
                = appended text blocks (seq 0 i) ++ [LF] ++ nth i blocks []
                  ++ appended text blocks (seq (S i) (length blocks - S i))).
    { rewrite Sq. unfold appended. rewrite filter_app, map_app, concat_app.
      cbn [seq Nat.add filter]. unfold missing at 2. rewrite Hinc.
      cbn [negb List.map concat]. reflexivity. }
    unfold jsstring in *. rewrite A.
    exists (restore_placeholders text blocks ++ appended text blocks (seq 0 i) ++ [LF]),
           (appended text blocks (seq (S i) (length blocks - S i))).
    now rewrite <- !app_assoc.
Qed.

End RefinerFacts.

(** X21.  Undo brings the message back.  For a refinement that starts (no other
    one running, a message with text at the index, the plugin there when
    it is asked for), [undoRedraft] after [redraftMessage] leaves the chat
    as it was before, whether the refinement succeeded or failed on the
    way, leaves no saved original and no saved diff for the message, and
    leaves the entries of all other messages alone. *)
Theorem undo_restores_message
  (pluginMode : bool) (run : Refiner.Run) (messageIndex : Z) (st : Refiner.State)
  (message : Chat.Message) :
  Refiner.isRefining st = false ->
  Refiner.message_at (Refiner.chat st) messageIndex = Some message ->
  Chat.mes message <> [] ->
  (pluginMode = true -> Refiner.pluginAvailable st = true) ->
  let st' := Refiner.undoRedraft messageIndex
               (Refiner.redraftMessage pluginMode run messageIndex st) in
  Refiner.chat st' = Refiner.chat st /\
  Refiner.redraft_originals st' messageIndex = None /\
  Refiner.redraft_diffs st' messageIndex = None /\
  (forall k, k <> messageIndex ->
     Refiner.redraft_originals st' k = Refiner.redraft_originals st k /\
     Refiner.redraft_diffs st' k = Refiner.redraft_diffs st k).
Proof.
  intros H1 H2 H3 H4 st'. subst st'.
  rewrite (RefinerFacts.redraftMessage_runs pluginMode run messageIndex st message H1 H2 H3 H4).
  assert (M : exists m', Refiner.message_at
                (match run with
                 | Refiner.FailsEarly => Refiner.chat st
                 | Refiner.FailsLate t0 | Refiner.Completes t0 =>
                     Refiner.set_mes (Refiner.chat st) messageIndex
                                     (Refiner.rewritten (Chat.mes message) t0)
                 end) messageIndex = Some m').
  { destruct run.
    - exists message. exact H2.
    - eexists. rewrite (RefinerFacts.message_at_set_mes _ _ _ _ messageIndex H2).
      rewrite Z.eqb_refl. reflexivity.
    - eexists. rewrite (RefinerFacts.message_at_set_mes _ _ _ _ messageIndex H2).
      rewrite Z.eqb_refl. reflexivity. }
  destruct M as (m' & M).
  rewrite (RefinerFacts.undoRedraft_runs messageIndex _ (Chat.mes message) m').
  - cbn [Refiner.redraft_originals Refiner.chat Refiner.redraft_diffs].
    split; [|split; [|split]].
    + destruct run.
      * now apply RefinerFacts.set_mes_same.
      * rewrite (RefinerFacts.set_mes_twice _ _ _ _ _ H2).
        now apply RefinerFacts.set_mes_same.
      * rewrite (RefinerFacts.set_mes_twice _ _ _ _ _ H2).
        now apply RefinerFacts.set_mes_same.
    + unfold Refiner.remove. now rewrite Z.eqb_refl.
    + unfold Refiner.remove. now rewrite Z.eqb_refl.
    + intros k Hk. apply Z.eqb_neq in Hk.
      unfold Refiner.remove, Refiner.store. rewrite Hk.
      split; [reflexivity|]. destruct run; try reflexivity. now rewrite Hk.
  - cbn [Refiner.redraft_originals]. unfold Refiner.store. now rewrite Z.eqb_refl.
  - exact H3.
  - exact M.
Qed.

Lemma undo_restores_message_witness :
  let st := {| Refiner.chat := [ {| Chat.mes := str "Hi"; Chat.is_user := true;
                                    Chat.is_system := false |};
                                 {| Chat.mes := str "Helo <div>x</div>"; Chat.is_user := false;
                                    Chat.is_system := false |} ];
               Refiner.redraft_originals := fun _ => None;
               Refiner.redraft_diffs := fun _ => None;
               Refiner.isRefining := false;
               Refiner.pluginAvailable := false |} in
  let st' := Refiner.undoRedraft 1
               (Refiner.redraftMessage false
                  (Refiner.Completes (str "[REFINED]Hello [PROTECTED_0][/REFINED]")) 1 st) in
  Refiner.chat st' = Refiner.chat st /\
  Refiner.redraft_originals st' 1%Z = None /\
  Refiner.redraft_diffs st' 1%Z = None /\
  (forall k, k <> 1%Z ->
     Refiner.redraft_originals st' k = Refiner.redraft_originals st k /\
     Refiner.redraft_diffs st' k = Refiner.redraft_diffs st k).
Proof.
  intros st.
  apply (undo_restores_message false
           (Refiner.Completes (str "[REFINED]Hello [PROTECTED_0][/REFINED]")) 1%Z st
           {| Chat.mes := str "Helo <div>x</div>"; Chat.is_user := false;
              Chat.is_system := false |}).
  - reflexivity.
  - reflexivity.
  - discriminate.
  - discriminate.
Defined.

(** X22.  A refinement touches one message.  Whatever happens, [redraftMessage]
    keeps the length of the chat, every other message and the saved
    entries of every other index; the message at the index keeps its
    [is_user] and [is_system] flags; the re-entrancy flag and the plugin
    flag are afterwards as they were before; and while another
    refinement is running nothing changes at all. *)
Theorem redraft_touches_one_message
  (pluginMode : bool) (run : Refiner.Run) (messageIndex : Z) (st : Refiner.State) :
  let st' := Refiner.redraftMessage pluginMode run messageIndex st in
  length (Refiner.chat st') = length (Refiner.chat st) /\
  (forall k, k <> messageIndex ->
     Refiner.message_at (Refiner.chat st') k = Refiner.message_at (Refiner.chat st) k /\
     Refiner.redraft_originals st' k = Refiner.redraft_originals st k /\
     Refiner.redraft_diffs st' k = Refiner.redraft_diffs st k) /\
  (forall m', Refiner.message_at (Refiner.chat st') messageIndex = Some m' ->
     exists m, Refiner.message_at (Refiner.chat st) messageIndex = Some m /\
               Chat.is_user m' = Chat.is_user m /\ Chat.is_system m' = Chat.is_system m) /\
  Refiner.isRefining st' = Refiner.isRefining st /\
  Refiner.pluginAvailable st' = Refiner.pluginAvailable st /\
  (Refiner.isRefining st = true -> st' = st).
Proof.
  intros st'. subst st'.
  assert (Same : forall s, s = st ->
            length (Refiner.chat s) = length (Refiner.chat st) /\
            (forall k, k <> messageIndex ->
               Refiner.message_at (Refiner.chat s) k = Refiner.message_at (Refiner.chat st) k /\
               Refiner.redraft_originals s k = Refiner.redraft_originals st k /\
               Refiner.redraft_diffs s k = Refiner.redraft_diffs st k) /\
            (forall m', Refiner.message_at (Refiner.chat s) messageIndex = Some m' ->
               exists m, Refiner.message_at (Refiner.chat st) messageIndex = Some m /\
                         Chat.is_user m' = Chat.is_user m /\
                         Chat.is_system m' = Chat.is_system m) /\
            Refiner.isRefining s = Refiner.isRefining st /\
            Refiner.pluginAvailable s = Refiner.pluginAvailable st /\
            (Refiner.isRefining st = true -> s = st)).
  { intros s ->. repeat split; auto. intros m' H. exists m'. auto. }
  destruct (Refiner.isRefining st) eqn:R.
  { apply Same. unfold Refiner.redraftMessage. now rewrite R. }
  destruct (Refiner.message_at (Refiner.chat st) messageIndex) as [m|] eqn:M.
  2:{ apply Same. unfold Refiner.redraftMessage. rewrite R, M.
      now destruct (_ || _). }
  destruct (Chat.mes m) as [|c t] eqn:E.
  { apply Same. unfold Refiner.redraftMessage. rewrite R, M, E.
    now destruct (_ || _). }
  destruct (pluginMode && negb (Refiner.pluginAvailable st)) eqn:P.
  { apply Same. unfold Refiner.redraftMessage. rewrite R, M, E, P.
    now destruct (_ || _). }
  rewrite (RefinerFacts.redraftMessage_runs pluginMode run messageIndex st m R M).
  - cbn [Refiner.chat Refiner.redraft_originals Refiner.redraft_diffs Refiner.isRefining
         Refiner.pluginAvailable].
    split; [|split; [|split; [|split; [|split]]]].
    + destruct run; rewrite ?RefinerFacts.length_set_mes; reflexivity.
    + intros k Hk. apply Z.eqb_neq in Hk. unfold Refiner.store. rewrite Hk.
      split; [|split; [reflexivity|]].
      * destruct run; [reflexivity| |];
          now rewrite (RefinerFacts.message_at_set_mes _ _ _ _ _ M), Hk.
      * destruct run; try reflexivity. now rewrite Hk.
    + intros m' H. exists m. split; [reflexivity|].
      destruct run.
      * rewrite M in H. inversion H; subst. auto.
      * rewrite (RefinerFacts.message_at_set_mes _ _ _ _ _ M), Z.eqb_refl in H.
        inversion H; subst. auto.
      * rewrite (RefinerFacts.message_at_set_mes _ _ _ _ _ M), Z.eqb_refl in H.
        inversion H; subst. auto.
    + reflexivity.
    + reflexivity.
    + discriminate.
  - rewrite E. discriminate.
  - intros ->. cbn [andb] in P. apply negb_false_iff in P. exact P.
Qed.

Lemma redraft_touches_one_message_witness :
  let st := {| Refiner.chat := [ {| Chat.mes := str "Helo"; Chat.is_user := false;
                                    Chat.is_system := false |} ];
               Refiner.redraft_originals := fun _ => None;
               Refiner.redraft_diffs := fun _ => None;
               Refiner.isRefining := true;
               Refiner.pluginAvailable := false |} in
  Refiner.redraftMessage false (Refiner.Completes (str "Hello")) 0 st = st.
Proof.
  intros st.
  apply (proj2 (proj2 (proj2 (proj2 (proj2
           (redraft_touches_one_message false (Refiner.Completes (str "Hello")) 0%Z st)))))).
  reflexivity.
Defined.

(** X23.  No protected block is lost on the way.  When a refinement goes
    through, every block that [stripProtectedBlocks] took out of the
    message occurs in the text written back, whatever the model replied. *)
Theorem redraft_keeps_protected_blocks
  (pluginMode : bool) (refinedText : jsstring) (messageIndex : Z) (st : Refiner.State)
  (message : Chat.Message) (block : jsstring) :
  Refiner.isRefining st = false ->
  Refiner.message_at (Refiner.chat st) messageIndex = Some message ->
  Chat.mes message <> [] ->
  (pluginMode = true -> Refiner.pluginAvailable st = true) ->
  In block (blocks (stripProtectedBlocks (Chat.mes message))) ->
  exists message' l r,
    Refiner.message_at
      (Refiner.chat (Refiner.redraftMessage pluginMode (Refiner.Completes refinedText)
                                            messageIndex st))
      messageIndex = Some message' /\
    Chat.mes message' = l ++ block ++ r.
Proof.
  intros H1 H2 H3 H4 Hb.
  rewrite (RefinerFacts.redraftMessage_runs pluginMode _ messageIndex st message H1 H2 H3 H4).
  cbn [Refiner.chat].
  rewrite (RefinerFacts.message_at_set_mes _ _ _ _ _ H2), Z.eqb_refl.
  destruct (RefinerFacts.restore_includes
              (refined (parseChangelog refinedText))
              (blocks (stripProtectedBlocks (Chat.mes message))) block Hb) as (l & r & E).
  eexists _, l, r. split; [reflexivity|]. exact E.
Qed.

Lemma redraft_keeps_protected_blocks_witness :
  let st := {| Refiner.chat := [ {| Chat.mes := str "Helo <div>x</div>"; Chat.is_user := false;
                                    Chat.is_system := false |} ];
               Refiner.redraft_originals := fun _ => None;
               Refiner.redraft_diffs := fun _ => None;
               Refiner.isRefining := false;
               Refiner.pluginAvailable := false |} in
  exists message' l r,
    Refiner.message_at
      (Refiner.chat (Refiner.redraftMessage false (Refiner.Completes (str "Hello"))
                                            0 st))
      0 = Some message' /\
    Chat.mes message' = l ++ str "<div>x</div>" ++ r.
Proof.
  intros st.
  apply (redraft_keeps_protected_blocks false (str "Hello") 0%Z st
           {| Chat.mes := str "Helo <div>x</div>"; Chat.is_user := false;
              Chat.is_system := false |} (str "<div>x</div>")).
  - reflexivity.
  - reflexivity.
  - discriminate.
  - discriminate.
  - vm_compute. left. reflexivity.
Defined.

(** X24.  [refineViaST] returns [s] exactly when [generateRaw] is there and
    resolved to a string whose trimmed form is [s], not empty;
    [refineViaPlugin] returns [s] exactly when the [text] of the reply
    is such a string.  In every other case they throw, and what they
    return has no white space at either end. *)
Theorem refine_returns_trimmed (available : bool) (result : value) (s : jsstring) :
  (Refiner.refineViaST available result = Refiner.Returned s <->
   available = true /\ exists raw, result = VString raw /\ trim raw = s /\ s <> []) /\
  (Refiner.refineViaPlugin result = Refiner.Returned s <->
   exists raw, get result "text"%string = Some (VString raw) /\ trim raw = s /\ s <> []) /\
  (Refiner.refineViaST available result = Refiner.Returned s \/
   Refiner.refineViaPlugin result = Refiner.Returned s -> tight s).
Proof.
  assert (A : Refiner.refineViaST available result = Refiner.Returned s <->
              available = true /\ exists raw, result = VString raw /\ trim raw = s /\ s <> []).
  { unfold Refiner.refineViaST. destruct available; cbn [negb].
    - destruct result as [| | | |raw| |]; try (split; [discriminate|intros (_ & r & E & _); discriminate]).
      destruct raw as [|c raw]; cbn [truthy andb].
      + split; [discriminate|]. intros (_ & r & E & T & N). inversion E; subst. now elim N.
      + destruct (trim (c :: raw)) as [|d t] eqn:T; cbn [truthy].
        * split; [discriminate|]. intros (_ & r & E & T' & N). inversion E; subst.
          rewrite T in N. now elim N.
        * split.
          -- intros H. inversion H; subst. split; [reflexivity|].
             exists (c :: raw). rewrite T. repeat split. discriminate.
          -- intros (_ & r & E & T' & N). inversion E; subst. now rewrite T.
    - split; [discriminate|]. intros (H & _). discriminate. }
  assert (B : Refiner.refineViaPlugin result = Refiner.Returned s <->
              exists raw, get result "text"%string = Some (VString raw)
                          /\ trim raw = s /\ s <> []).
  { unfold Refiner.refineViaPlugin.
    destruct (get result "text"%string) as [text|];
      [|split; [discriminate|intros (r & E & _); discriminate]].
    destruct text as [| |b|x|raw|items|fields]; cbn [truthy negb];
      try (split; [discriminate|intros (r & E & _); discriminate]).
    - destruct b; cbn [negb]; split; try discriminate; intros (r & E & _); discriminate.
    - destruct x; cbn [negb]; split; try discriminate; intros (r & E & _); discriminate.
    - destruct raw as [|c raw]; cbn [negb].
      + split; [discriminate|]. intros (r & E & T & N). inversion E; subst. now elim N.
      + destruct (trim (c :: raw)) as [|d t] eqn:T; cbn [truthy].
        * split; [discriminate|]. intros (r & E & T' & N). inversion E; subst.
          rewrite T in N. now elim N.
        * split.
          -- intros H. inversion H; subst. exists (c :: raw). rewrite T.
             repeat split. discriminate.
          -- intros (r & E & T' & N). inversion E; subst. now rewrite T. }
  split; [exact A|]. split; [exact B|].
  intros [H|H].
  - apply A in H. destruct H as (_ & raw & _ & <- & _). apply PriorityFacts.trim_is_tight.
  - apply B in H. destruct H as (raw & _ & <- & _). apply PriorityFacts.trim_is_tight.
Qed.

Lemma refine_returns_trimmed_witness :
  Refiner.refineViaST true (VString (str " Hello. ")) = Refiner.Returned (str "Hello.").
Proof.
  apply (proj2 (proj1 (refine_returns_trimmed true (VString (str " Hello. ")) (str "Hello.")))).
  split; [reflexivity|]. exists (str " Hello. ").
  split; [reflexivity|]. split; [vm_compute; reflexivity|discriminate].
Defined.


(* ------------------------------------------------------------------ *)
(** ** The server plugin *)

Module PluginFacts.
Import Plugin ListFacts RegexFacts.

Lemma slice_prefix s n :
  slice s 0 (Some (Z.of_nat n)) = firstn n s.
Proof.
  unfold slice, relative_index. cbn [Z.ltb Z.compare Z.to_nat Nat.min skipn].
  replace (Z.of_nat n <? 0)%Z with false by (symmetry; apply Z.ltb_ge; lia).
  rewrite Nat2Z.id, Nat.sub_0_r.
  destruct (Nat.le_ge_cases n (length s)) as [H|H].
  - now rewrite Nat.min_l.
  - rewrite Nat.min_r by exact H. now rewrite !firstn_all2.
Qed.

Lemma slice_suffix s n :
  (0 < n)%nat -> slice s (- Z.of_nat n) None = skipn (length s - n) s.
Proof.
  intros Hn. unfold slice, relative_index.
  replace (- Z.of_nat n <? 0)%Z with true by (symmetry; apply Z.ltb_lt; lia).
  replace (Z.to_nat (Z.max (Z.of_nat (length s) + - Z.of_nat n) 0))
    with (length s - n)%nat by lia.
  apply firstn_all2. rewrite length_skipn. lia.
Qed.

Lemma cls_slash c : cls_match false (one_of (str "/")) c = (c =? SLASH)%N.
Proof.
  unfold cls_match, one_of. cbn. now rewrite !orb_false_r.
Qed.

Lemma forallb_slash_class s :
  forallb (cls_match false (one_of (str "/"))) s = forallb (N.eqb SLASH) s.
Proof.
  induction s as [|c s IH]; [reflexivity|]. cbn [forallb].
  now rewrite IH, cls_slash, N.eqb_sym.
Qed.

(** [/\/+$/] matches at a position exactly when only slashes follow,
    and then to the end. *)
Lemma trailing_here pre c s :
  match_here false re_trailing_slashes pre (c :: s)
  = if forallb (N.eqb SLASH) (c :: s) then Some ([], []) else None.
Proof.
  unfold match_here, re_trailing_slashes, Plus. cbn [run].
  rewrite cls_slash. cbn [forallb]. rewrite (N.eqb_sym SLASH c).
  destruct (c =? SLASH)%N; cbn [andb]; [|reflexivity].
  destruct (forallb (N.eqb SLASH) s) eqn:F.
  - rewrite <- (app_nil_r s) at 1.
    apply star_greedy_max; [now rewrite forallb_slash_class|exact I|reflexivity].
  - apply star_greedy_none. intros m rest E Hm.
    destruct rest as [|x rest]; [|reflexivity].
    rewrite app_nil_r in E. subst m. rewrite forallb_slash_class in Hm. congruence.
Qed.

Lemma exec_trailing s : forall pre,
  exec_from false re_trailing_slashes pre s
  = match trailing_slashes s with
    | Some k => Some (MatchResult (length pre + k) (skipn k s) [])
    | None => None
    end.
Proof.
  induction s as [|c s IH]; intros pre; [reflexivity|].
  cbn [exec_from trailing_slashes]. rewrite trailing_here.
  destruct (forallb (N.eqb SLASH) (c :: s)) eqn:F.
  - unfold report. change (length (@nil char)) with 0%nat.
    rewrite Nat.sub_0_r, firstn_all, Nat.add_0_r. reflexivity.
  - rewrite IH. destruct (trailing_slashes s) as [k|]; cbn [option_map]; [|reflexivity].
    cbn [length skipn]. f_equal. f_equal. lia.
Qed.

Lemma remove_trailing s :
  remove_first false re_trailing_slashes s
  = match trailing_slashes s with Some k => firstn k s | None => s end.
Proof.
  unfold remove_first, String_match. rewrite exec_trailing.
  destruct (trailing_slashes s) as [k|] eqn:T; [|reflexivity].
  cbn [index matched length Nat.add].
  rewrite length_skipn.
  assert (K : (k <= length s)%nat).
  { clear -T. revert k T. induction s as [|c s IH]; intros k T; [discriminate|].
    cbn [trailing_slashes] in T. destruct (forallb (N.eqb SLASH) (c :: s)).
    - inversion T. lia.
    - destruct (trailing_slashes s) as [j|]; [|discriminate].
      inversion T. specialize (IH j eq_refl). simpl. lia. }
  replace (k + (length s - k))%nat with (length s) by lia.
  now rewrite skipn_all, app_nil_r.
Qed.

Lemma trailing_split s :
  exists w, s = remove_first false re_trailing_slashes s ++ w /\
            forallb (N.eqb SLASH) w = true /\
            no_final_slash (remove_first false re_trailing_slashes s).
Proof.
  rewrite remove_trailing.
  induction s as [|c s IH].
  - exists []. repeat split.
  - cbn [trailing_slashes].
    destruct (forallb (N.eqb SLASH) (c :: s)) eqn:F.
    + exists (c :: s). repeat split; auto.
    + destruct IH as (w & E & Hw & Hn).
      destruct (trailing_slashes s) as [k|] eqn:T; cbn [option_map firstn].
      * exists w. split; [cbn [app]; now rewrite <- E|]. split; [exact Hw|].
        unfold no_final_slash in *. cbn [rev].
        destruct (rev (firstn k s)) as [|x xs] eqn:R; cbn [app]; [|exact Hn].
        assert (K : firstn k s = []).
        { rewrite <- (rev_involutive (firstn k s)), R. reflexivity. }
        rewrite K in E. cbn [app] in E. subst w.
        cbn [forallb] in F. rewrite Hw, andb_true_r in F.
        apply N.eqb_neq in F. congruence.
      * exists []. rewrite app_nil_r. split; [reflexivity|]. split; [reflexivity|].
        unfold no_final_slash in *. cbn [rev].
        destruct (rev s) as [|x xs] eqn:R; cbn [app]; [|exact Hn].
        assert (K : s = []) by (rewrite <- (rev_involutive s), R; reflexivity).
        subst s. cbn [forallb] in F. rewrite andb_true_r in F.
        apply N.eqb_neq in F. congruence.
Qed.

End PluginFacts.

(** X25.  [maskKey] returns four asterisks for a key of fewer than 8 code
    units; for a longer key it returns the first 3 code units, three
    dots and the last 4 code units, 10 code units whatever the length
    of the key. *)
Theorem maskKey_shows_ends_only (key : jsstring) :
  ((length key < 8)%nat -> Plugin.maskKey key = str "****") /\
  ((8 <= length key)%nat ->
   Plugin.maskKey key = firstn 3 key ++ str "..." ++ skipn (length key - 4) key /\
   length (Plugin.maskKey key) = 10%nat).
Proof.
  unfold Plugin.maskKey. split; intros H.
  - apply Nat.ltb_lt in H. rewrite H. now rewrite orb_true_r.
  - replace (length key <? 8)%nat with false by (symmetry; apply Nat.ltb_ge; lia).
    destruct key as [|c key]; [simpl in H; lia|]. cbn [truthy negb orb].
    change 3%Z with (Z.of_nat 3). rewrite PluginFacts.slice_prefix.
    change (-4)%Z with (- Z.of_nat 4)%Z. rewrite PluginFacts.slice_suffix by lia.
    split; [reflexivity|].
    rewrite !length_app, length_firstn, length_skipn.
    change (length (str "...")) with 3%nat. unfold jsstring, char in *. lia.
Qed.

Lemma maskKey_shows_ends_only_witness :
  Plugin.maskKey (str "sk-abcdefghijklmnop")
  = firstn 3 (str "sk-abcdefghijklmnop") ++ str "..."
    ++ skipn (length (str "sk-abcdefghijklmnop") - 4) (str "sk-abcdefghijklmnop") /\
  length (Plugin.maskKey (str "sk-abcdefghijklmnop")) = 10%nat.
Proof.
  apply (proj2 (maskKey_shows_ends_only (str "sk-abcdefghijklmnop"))).
  vm_compute. lia.
Defined.

(** X26.  What the handler of [POST /config] stores.  When it answers with
    success, the three required fields of the body were strings; the
    stored URL is the trimmed one without the slashes at its end, and
    does not end with a slash; the stored key and model are the trimmed
    ones, and are not empty. *)
Theorem post_config_stores_clean_fields
  (ToNumber : value -> spec_float) (body : option Plugin.Body) (writable : bool)
  (cachedConfig : option Plugin.Config) (config : Plugin.Config) :
  Plugin.post_config ToNumber body writable cachedConfig = (Plugin.Ok, Some config) ->
  exists b url key name slashes,
    body = Some b /\
    Plugin.body_apiUrl b = VString url /\
    Plugin.body_apiKey b = VString key /\
    Plugin.body_model b = VString name /\
    trim url = Plugin.apiUrl config ++ slashes /\
    forallb (N.eqb SLASH) slashes = true /\
    no_final_slash (Plugin.apiUrl config) /\
    Plugin.apiKey config = trim key /\ Plugin.apiKey config <> [] /\
    Plugin.model config = trim name /\ Plugin.model config <> [].
Proof.
  unfold Plugin.post_config.
  destruct body as [b|]; [|discriminate].
  destruct (Plugin.required (Plugin.body_apiUrl b)) as [url|] eqn:R1; [|discriminate].
  destruct (Plugin.required (Plugin.body_apiKey b)) as [key|] eqn:R2; [|discriminate].
  destruct (Plugin.required (Plugin.body_model b)) as [name|] eqn:R3; [|discriminate].
  destruct writable; [|discriminate].
  intros H. inversion H; subst. clear H. cbn [Plugin.apiUrl Plugin.apiKey Plugin.model].
  assert (Req : forall v s, Plugin.required v = Some s -> v = VString s /\ trim s <> []).
  { intros v s. unfold Plugin.required. destruct v as [| | | |x| |]; try discriminate.
    destruct x as [|c x]; cbn [truthy andb]; [discriminate|].
    destruct (trim (c :: x)) eqn:T; cbn [truthy]; [discriminate|].
    intros E. inversion E; subst. split; [reflexivity|]. rewrite T. discriminate. }
  destruct (Req _ _ R1) as [E1 _]. destruct (Req _ _ R2) as [E2 N2].
  destruct (Req _ _ R3) as [E3 N3].
  destruct (PluginFacts.trailing_split (trim url)) as (w & Ew & Hw & Hn).
  exists b, url, key, name, w. repeat split; auto.
Qed.

Lemma post_config_stores_clean_fields_witness :
  exists b url key name slashes,
    Some {| Plugin.body_apiUrl := VString (str " https://api.example.com/v1// ");
            Plugin.body_apiKey := VString (str "sk-1 ");
            Plugin.body_model := VString (str "m");
            Plugin.body_maxTokens := VUndefined |} = Some b /\
    Plugin.body_apiUrl b = VString url /\
    Plugin.body_apiKey b = VString key /\
    Plugin.body_model b = VString name /\
    trim url = str "https://api.example.com/v1" ++ slashes /\
    forallb (N.eqb SLASH) slashes = true /\
    no_final_slash (str "https://api.example.com/v1") /\
    str "sk-1" = trim key /\ str "sk-1" <> [] /\
    str "m" = trim name /\ str "m" <> [].
Proof.
  apply (post_config_stores_clean_fields
           (fun _ => S754_nan)
           (Some {| Plugin.body_apiUrl := VString (str " https://api.example.com/v1// ");
                    Plugin.body_apiKey := VString (str "sk-1 ");
                    Plugin.body_model := VString (str "m");
                    Plugin.body_maxTokens := VUndefined |})
           true None
           {| Plugin.apiUrl := str "https://api.example.com/v1";
              Plugin.apiKey := str "sk-1";
              Plugin.model := str "m";
              Plugin.maxTokens := Number 4096 |}).
  vm_compute. reflexivity.
Defined.

Module SanitizeFacts.
Import Plugin ListFacts RegexFacts.

Lemma cls_syntax c :
  cls_match false (one_of syntax_characters) c = is_syntax_character c.
Proof. unfold cls_match, one_of, is_syntax_character. cbn [negated member xorb andb]. now rewrite orb_false_r. Qed.

(** The escaping scan, one code unit at a time. *)
Lemma escape_scan s : forall pre,
  snd (replace_scan false (fun (_ : unit) m => (tt, BACKSLASH :: matched m))
                    (Chr (one_of syntax_characters)) 0 pre s tt)
  = flat_map (fun c => if is_syntax_character c then [BACKSLASH; c] else [c]) s.
Proof.
  induction s as [|c s IH]; intros pre; [reflexivity|].
  cbn [replace_scan flat_map]. unfold match_here. cbn [run]. rewrite cls_syntax.
  destruct (is_syntax_character c).
  - unfold accept, report. cbn [matched].
    assert (E : (length (c :: s) - length s = 1)%nat) by (cbn [length]; lia).
    rewrite E. cbn [firstn length].
    specialize (IH (c :: pre)).
    destruct (replace_scan false _ _ 0 (c :: pre) s tt) as [u out].
    cbn [snd] in *. now rewrite IH.
  - specialize (IH (c :: pre)).
    destruct (replace_scan false _ _ 0 (c :: pre) s tt) as [u out].
    cbn [snd] in *. now rewrite IH.
Qed.

Lemma escape_eq key :
  escape key = flat_map (fun c => if is_syntax_character c then [BACKSLASH; c] else [c]) key.
Proof. apply escape_scan. Qed.

Lemma backslash_is_syntax : is_syntax_character BACKSLASH = true.
Proof. reflexivity. Qed.

Lemma literal_of_escaped key : literal_pattern (escape key) = Some key.
Proof.
  rewrite escape_eq. induction key as [|c key IH]; [reflexivity|].
  cbn [flat_map]. destruct (is_syntax_character c) eqn:S.
  - cbn [app literal_pattern]. rewrite N.eqb_refl, S, IH. reflexivity.
  - cbn [app literal_pattern].
    destruct (c =? BACKSLASH)%N eqn:B.
    + apply N.eqb_eq in B. subst c. rewrite backslash_is_syntax in S. discriminate.
    + rewrite S, IH. reflexivity.
Qed.

(** *** The redaction scan *)

Section Redact.
Variable key : jsstring.
Hypothesis key_nonempty : key <> [].

Local Abbreviation out := (fun s => redact key 0 [] s).

Lemma lit_prefix_startsWith p s : lit_prefix false p s = startsWith s p.
Proof.
  revert s; induction p as [|x p IH]; intros [|c s]; simpl; try reflexivity.
  unfold char_match, canonicalize. now rewrite IH.
Qed.

Lemma redact_pair skip pre suf :
  replace_scan false (fun (_ : unit) _ => (tt, str "[REDACTED]")) (Lit key) skip pre suf tt
  = (tt, redact key skip pre suf).
Proof.
  unfold redact.
  destruct (replace_scan false _ (Lit key) skip pre suf tt) as [[] o]. reflexivity.
Qed.

Lemma redact_blind skip pre1 pre2 suf : redact key skip pre1 suf = redact key skip pre2 suf.
Proof. unfold redact. f_equal. apply replace_scan_blind; reflexivity. Qed.

Lemma match_here_key pre suf :
  match_here false (Lit key) pre suf
  = if startsWith suf key then Some (skipn (length key) suf, []) else None.
Proof.
  unfold match_here. cbn [run]. rewrite lit_eq, lit_prefix_startsWith. reflexivity.
Qed.

Lemma redact_nil : out [] = [].
Proof.
  unfold redact. cbn [replace_scan]. rewrite match_here_key.
  destruct key; [congruence|reflexivity].
Qed.

Lemma startsWith_app p rest : startsWith (p ++ rest) p = true.
Proof. induction p as [|x p IH]; simpl; [now destruct rest|]. now rewrite N.eqb_refl, IH. Qed.

Lemma startsWith_split s p : startsWith s p = true -> exists rest, s = p ++ rest.
Proof.
  revert s; induction p as [|x p IH]; intros s H; simpl in *; [eauto|].
  destruct s as [|y s]; [discriminate|].
  apply andb_true_iff in H. destruct H as [H1 H2]. apply N.eqb_eq in H1.
  destruct (IH _ H2) as [rest ->]. subst. eauto.
Qed.

Lemma redact_hit rest : out (key ++ rest) = str "[REDACTED]" ++ out rest.
Proof.
  unfold redact at 1.
  rewrite (replace_scan_match false unit _ (Lit key) key rest [] [] tt key_nonempty).
  - rewrite redact_pair. cbn [snd]. f_equal. apply redact_blind.
  - rewrite match_here_key, startsWith_app. now rewrite skipn_app_exact.
Qed.

Lemma redact_miss c s :
  startsWith (c :: s) key = false -> out (c :: s) = c :: out s.
Proof.
  intros H. unfold redact at 1. cbn [replace_scan]. rewrite match_here_key, H.
  rewrite redact_pair. cbn [snd]. f_equal. apply redact_blind.
Qed.

(** Up to the first redaction the output is the input. *)
Lemma redact_gap s :
  exists g tail s', out s = g ++ tail /\ s = g ++ s' /\
                    match tail with [] => s' = [] | c :: _ => c = LBRACKET end.
Proof.
  induction s as [|c s IH].
  - exists [], [], []. rewrite redact_nil. auto.
  - destruct (startsWith (c :: s) key) eqn:S.
    + destruct (startsWith_split _ _ S) as [rest E]. rewrite E, redact_hit.
      exists [], (str "[REDACTED]" ++ out rest), (key ++ rest). repeat split.
    + rewrite (redact_miss _ _ S). destruct IH as (g & tail & s' & E1 & E2 & T).
      exists (c :: g), tail, s'. cbn [app]. rewrite E1. rewrite E2 at 1. auto.
Qed.

Hypothesis key_bracket_free : bracket_free key = true.

Lemma key_no_bracket x : In x key -> x <> LBRACKET /\ x <> RBRACKET.
Proof.
  intros H. unfold bracket_free in key_bracket_free.
  rewrite forallb_forall in key_bracket_free. specialize (key_bracket_free x H).
  apply negb_true_iff, orb_false_iff in key_bracket_free.
  destruct key_bracket_free as [A B]. apply N.eqb_neq in A, B. auto.
Qed.

(** A prefix without brackets stops before a bracket. *)
Lemma startsWith_before_bracket p g tail :
  (forall x, In x p -> x <> LBRACKET) ->
  match tail with [] => True | c :: _ => c = LBRACKET end ->
  startsWith (g ++ tail) p = true ->
  startsWith g p = true \/ (tail = [] /\ startsWith g p = false).
Proof.
  revert g; induction p as [|x p IH]; intros g Hp Ht H; [left; now destruct g|].
  destruct g as [|y g].
  - cbn [app] in H. destruct tail as [|c tail]; [now right|].
    subst c. cbn [startsWith] in H. apply andb_true_iff in H. destruct H as [H _].
    apply N.eqb_eq in H. exfalso. apply (Hp x); [now left|exact H].
  - cbn [app startsWith] in *. apply andb_true_iff in H. destruct H as [H1 H2].
    rewrite H1. cbn [andb]. apply IH; auto. intros z Hz. apply Hp. now right.
Qed.

Lemma startsWith_prefix g s' p :
  startsWith g p = true -> startsWith (g ++ s') p = true.
Proof.
  revert g; induction p as [|x p IH]; intros g H; [now destruct (g ++ s')|].
  destruct g as [|y g]; [discriminate|]. cbn [app startsWith] in *.
  apply andb_true_iff in H. destruct H as [H1 H2]. rewrite H1. cbn [andb]. now apply IH.
Qed.

Lemma startsWith_nth s p :
  startsWith s p = true -> forall j, (j < length p)%nat -> nth j s 0%N = nth j p 0%N.
Proof.
  revert s; induction p as [|x p IH]; intros s H j Hj; simpl in Hj; [lia|].
  destruct s as [|y s]; [discriminate|]. cbn [startsWith] in H.
  apply andb_true_iff in H. destruct H as [H1 H2]. apply N.eqb_eq in H1. subst y.
  destruct j as [|j]; [reflexivity|]. cbn [nth]. apply IH; [exact H2|lia].
Qed.

Hypothesis key_long : (8 < length key)%nat.

(** No occurrence of the key starts inside a redaction mark. *)
Lemma mark_hides X :
  includes (str "[REDACTED]" ++ X) key = includes X key.
Proof.
  assert (No : forall i, (i < 10)%nat ->
            startsWith (skipn i (str "[REDACTED]") ++ X) key = false).
  { intros i Hi.
    destruct (startsWith (skipn i (str "[REDACTED]") ++ X) key) eqn:S; [|reflexivity].
    exfalso.
    assert (B : exists j, (j < length key)%nat /\
               (nth j (skipn i (str "[REDACTED]") ++ X) 0%N = LBRACKET \/
                nth j (skipn i (str "[REDACTED]") ++ X) 0%N = RBRACKET)).
    { exists (match i with O => 0 | S _ => 9 - i end)%nat.
      split; [unfold jsstring, char in *; destruct i; lia|].
      do 10 (destruct i as [|i]; [cbn; auto|]). lia. }
    destruct B as (j & Hj & B).
    rewrite (startsWith_nth _ _ S j Hj) in B.
    destruct (key_no_bracket (nth j key 0%N)) as [A1 A2]; [now apply nth_In|].
    destruct B; contradiction. }
  change (str "[REDACTED]") with [91; 82; 69; 68; 65; 67; 84; 69; 68; 93]%N in *.
  pose proof (No 0%nat ltac:(lia)) as N0. pose proof (No 1%nat ltac:(lia)) as N1.
  pose proof (No 2%nat ltac:(lia)) as N2. pose proof (No 3%nat ltac:(lia)) as N3.
  pose proof (No 4%nat ltac:(lia)) as N4. pose proof (No 5%nat ltac:(lia)) as N5.
  pose proof (No 6%nat ltac:(lia)) as N6. pose proof (No 7%nat ltac:(lia)) as N7.
  pose proof (No 8%nat ltac:(lia)) as N8. pose proof (No 9%nat ltac:(lia)) as N9.
  cbn [skipn app] in N0, N1, N2, N3, N4, N5, N6, N7, N8, N9.
  cbn [app includes].
  rewrite N0, N1, N2, N3, N4, N5, N6, N7, N8, N9. reflexivity.
Qed.

(** The key does not occur in the output. *)
Lemma redact_hides s : includes (out s) key = false.
Proof.
  remember (length s) as n eqn:Hn.
  assert (Hle : (length s <= n)%nat) by lia. clear Hn.
  revert s Hle. induction n as [|n IH]; intros s Hle.
  - destruct s; [|simpl in Hle; lia]. rewrite redact_nil.
    cbn [includes]. destruct key; [congruence|reflexivity].
  - destruct s as [|c s].
    + rewrite redact_nil. cbn [includes]. destruct key; [congruence|reflexivity].
    + destruct (startsWith (c :: s) key) eqn:S.
      * destruct (startsWith_split _ _ S) as [rest E]. rewrite E, redact_hit, mark_hides.
        apply IH. apply (f_equal (@length _)) in E. rewrite length_app in E.
        simpl in *. lia.
      * rewrite (redact_miss _ _ S). cbn [includes].
        rewrite (IH s) by (simpl in Hle; lia). rewrite orb_false_r.
        destruct (redact_gap s) as (g & tail & s' & E1 & E2 & T).
        rewrite E1.
        destruct (startsWith (c :: g ++ tail) key) eqn:W; [|reflexivity].
        exfalso.
        destruct (startsWith_before_bracket key (c :: g) tail) as [P|[P1 P2]].
        -- intros x Hx. now apply key_no_bracket.
        -- destruct tail; auto.
        -- exact W.
        -- rewrite E2 in S.
           change (c :: g ++ s') with ((c :: g) ++ s') in S.
           rewrite (startsWith_prefix _ s' _ P) in S. discriminate.
        -- subst tail. rewrite app_nil_r in W.
           change (c :: g) with ([c] ++ g) in P2. cbn [app] in P2. congruence.
Qed.

End Redact.
End SanitizeFacts.

(** X27.  The sanitized message does not show the key.  For a cached key of
    more than 8 code units without square brackets, whatever other
    characters of regular-expression syntax it holds, [sanitizeError]
    returns a message in which the key does not occur. *)
Theorem sanitizeError_hides_key (config : Plugin.Config) (message : jsstring) :
  bracket_free (Plugin.apiKey config) = true ->
  (8 < length (Plugin.apiKey config))%nat ->
  exists sanitized,
    Plugin.sanitizeError (Some config) message = Some sanitized /\
    includes sanitized (Plugin.apiKey config) = false.
Proof.
  intros Hb Hl. unfold Plugin.sanitizeError.
  assert (Hne : Plugin.apiKey config <> []).
  { intros E. rewrite E in Hl. simpl in Hl. lia. }
  destruct (Plugin.apiKey config) as [|c key] eqn:K; [congruence|].
  cbn [truthy andb].
  destruct (includes message (c :: key)) eqn:I.
  - rewrite SanitizeFacts.literal_of_escaped.
    eexists. split; [reflexivity|].
    apply (SanitizeFacts.redact_hides (c :: key) Hne Hb Hl).
  - exists message. auto.
Qed.

Lemma sanitizeError_hides_key_witness :
  exists sanitized,
    Plugin.sanitizeError
      (Some {| Plugin.apiUrl := str "https://api.example.com";
               Plugin.apiKey := str "sk-a.b+c*d";
               Plugin.model := str "m";
               Plugin.maxTokens := Number 4096 |})
      (str "401: bad key sk-a.b+c*d (sk-a.b+c*dsk-a.b+c*d)")
    = Some sanitized /\
    includes sanitized (str "sk-a.b+c*d") = false.
Proof.
  apply (sanitizeError_hides_key
           {| Plugin.apiUrl := str "https://api.example.com";
              Plugin.apiKey := str "sk-a.b+c*d";
              Plugin.model := str "m";
              Plugin.maxTokens := Number 4096 |}).
  - reflexivity.
  - vm_compute. lia.
Defined.
